(** * go-rod: the protocol-session core, embedded and verified

    A shallow embedding of the parts of the [rod] and [proto] packages that
    resolve execution contexts, cache domain state, attach to targets and
    route hijacked requests, and of what surrounds them: the chained
    operations on contexts, the matchers and pools of utils.go, the key
    actions and the mouse of input.go and the quads of [proto]; followed by
    the properties proved about them.

    Layout: Part I is the model (one module per Go package, in dependency
    order); Part II defines the vocabulary the properties are stated in;
    Part III holds the concrete browsers, pages and remotes the properties
    are exercised on; Part IV proves them. *)

From stdpp Require Import gmap strings list fin_maps.
From Stdlib Require Import NArith ZArith Ascii Lia.
From Corelib Require PrimFloat FloatAxioms SpecFloat.

Local Open Scope string_scope.
Local Open Scope list_scope.
Local Open Scope stdpp_scope.
Set Warnings "-register-all".

(* ===================================================================== *)
(** * Part I. The model                                                   *)
(* ===================================================================== *)

(** ** Go strings seen as rune sequences

    [strings.TrimSpace] and the [regexp] package both work rune by rune, so
    patterns and URLs are modelled by their sequence of code points.
    Identifiers that the code only compares or concatenates (method names,
    session ids, object ids) stay Rocq strings. *)

Abbreviation rune := N.

Fixpoint runes (s : string) : list rune :=
  match s with
  | EmptyString => []
  | String c s' => N_of_ascii c :: runes s'
  end.

Module unicode.

(** [unicode.IsSpace]: the Unicode White_Space property. *)
Definition IsSpace (r : rune) : bool :=
  ((9 <=? r) && (r <=? 13) || (r =? 32) || (r =? 133) || (r =? 160)
   || (r =? 5760) || (8192 <=? r) && (r <=? 8202) || (r =? 8232)
   || (r =? 8233) || (r =? 8239) || (r =? 8287) || (r =? 12288))%N.

End unicode.

Module strings.

Fixpoint TrimLeftSpace (s : list rune) : list rune :=
  match s with
  | c :: s' => if unicode.IsSpace c then TrimLeftSpace s' else s
  | [] => []
  end.

Definition TrimRightSpace (s : list rune) : list rune :=
  rev (TrimLeftSpace (rev s)).

(** [strings.TrimSpace]: all leading and trailing white space removed. *)
Definition TrimSpace (s : list rune) : list rune :=
  TrimRightSpace (TrimLeftSpace s).

(** [strings.Split(s, ".")] on an identifier: the pieces between the dots;
    a string without a dot is returned whole, as the only piece. *)
Fixpoint SplitDot (s : string) : list string :=
  match s with
  | EmptyString => [EmptyString]
  | String c s' =>
      if Ascii.eqb c "."%char then EmptyString :: SplitDot s'
      else match SplitDot s' with
           | piece :: rest => String c piece :: rest
           | [] => [String c EmptyString]
           end
  end.

End strings.

(** ** The [regexp] package, as far as the router uses it

    Go's standard library is not part of the sources; it is modelled for the
    fragment of RE2 syntax that [PatternToReg] produces from patterns
    without groups, classes or alternation: a sequence of atoms, each with at
    most one repetition operator. [Compile] answers [None] both for a syntax
    error and for an expression outside this fragment, so what is proved
    about compiled expressions is proved inside the fragment only. *)

Module regexp.

Inductive atom : Type :=
  | Lit (r : rune)      (* a literal rune, written plainly or escaped *)
  | AnyNotNL            (* [.]: any rune but line feed *)
  | BeginText           (* [\A] *)
  | EndText.            (* [\z] *)

Inductive quant : Type := One | Star | Plus | Opt.

Definition Regexp : Type := list (atom * quant).

Definition backslash : rune := 92%N.
Definition asterisk : rune := 42%N.
Definition question : rune := 63%N.
Definition plus : rune := 43%N.
Definition dot : rune := 46%N.
Definition space : rune := 32%N.
Definition newline : rune := 10%N.

Definition is_repeat_op (c : rune) : bool :=
  ((c =? asterisk) || (c =? plus) || (c =? question))%N.

(** Runes that open a construct outside the fragment. *)
Definition is_unsupported (c : rune) : bool :=
  ((c =? 40) || (c =? 41) || (c =? 91) || (c =? 93) || (c =? 123)
   || (c =? 125) || (c =? 124) || (c =? 94) || (c =? 36))%N.

Definition is_ascii_punct (c : rune) : bool :=
  ((33 <=? c) && (c <=? 47) || (58 <=? c) && (c <=? 64)
   || (91 <=? c) && (c <=? 96) || (123 <=? c) && (c <=? 126))%N.

Definition quant_of (c : rune) : quant :=
  if (c =? asterisk)%N then Star else if (c =? plus)%N then Plus else Opt.

(** The repetition operator that may follow an atom: [*], [+] or [?], each
    optionally followed by the non-greedy marker [?].  A further repetition
    operator is the syntax error "invalid nested repetition operator". *)
Definition parse_quant (s : list rune) : option (quant * list rune) :=
  match s with
  | c :: s1 =>
      if is_repeat_op c then
        let s2 := match s1 with
                  | c2 :: s2 => if (c2 =? question)%N then s2 else s1
                  | [] => s1
                  end in
        match s2 with
        | c3 :: _ => if is_repeat_op c3 then None else Some (quant_of c, s2)
        | [] => Some (quant_of c, s2)
        end
      else Some (One, s)
  | [] => Some (One, [])
  end.

(** One atom off the front of the expression. [None]: a syntax error (a
    repetition operator with nothing to repeat, a trailing backslash) or a
    construct outside the fragment. *)
Definition parse_atom (s : list rune) : option (atom * list rune) :=
  match s with
  | [] => None
  | c :: s1 =>
      if (c =? backslash)%N then
        match s1 with
        | e :: s2 =>
            if (e =? 65)%N then Some (BeginText, s2)
            else if (e =? 122)%N then Some (EndText, s2)
            else if is_ascii_punct e then Some (Lit e, s2)
            else None
        | [] => None
        end
      else if (c =? dot)%N then Some (AnyNotNL, s1)
      else if is_repeat_op c || is_unsupported c then None
      else Some (Lit c, s1)
  end.

Definition zero_width (a : atom) : bool :=
  match a with BeginText | EndText => true | _ => false end.

Fixpoint parse (fuel : nat) (s : list rune) : option Regexp :=
  match s with
  | [] => Some []
  | _ :: _ =>
      match fuel with
      | O => None
      | S fuel' =>
          match parse_atom s with
          | None => None
          | Some (a, s1) =>
              match parse_quant s1 with
              | None => None
              | Some (q, s2) =>
                  match q, zero_width a with
                  | One, _ | _, false =>
                      option_map (cons (a, q)) (parse fuel' s2)
                  | _, true => None
                  end
              end
          end
      end
  end.

(** [regexp.Compile]; every atom consumes at least one rune, so the length
    of the expression is fuel enough. *)
Definition Compile (expr : list rune) : option Regexp :=
  parse (length expr) expr.

Definition atom_matches (a : atom) (c : rune) : bool :=
  match a with
  | Lit r => (c =? r)%N
  | AnyNotNL => negb (c =? newline)%N
  | BeginText | EndText => false
  end.

(** Zero or more runes matching [a], then the continuation [k]. *)
Fixpoint star_loop (a : atom) (k : bool -> list rune -> bool)
    (at_start : bool) (s : list rune) : bool :=
  k at_start s
  || match s with
     | c :: s' => atom_matches a c && star_loop a k false s'
     | [] => false
     end.

(** Does [re] match a prefix of [s]?  [at_start] tells whether [s] is the
    whole text, for [\A]. *)
Fixpoint match_here (re : Regexp) : bool -> list rune -> bool :=
  match re with
  | [] => fun _ _ => true
  | (BeginText, _) :: re' => fun at_start s => at_start && match_here re' at_start s
  | (EndText, _) :: re' =>
      fun at_start s =>
        match s with [] => match_here re' at_start s | _ :: _ => false end
  | (a, One) :: re' =>
      fun _ s =>
        match s with
        | c :: s' => atom_matches a c && match_here re' false s'
        | [] => false
        end
  | (a, Star) :: re' => star_loop a (match_here re')
  | (a, Plus) :: re' =>
      fun _ s =>
        match s with
        | c :: s' => atom_matches a c && star_loop a (match_here re') false s'
        | [] => false
        end
  | (a, Opt) :: re' =>
      fun at_start s =>
        match_here re' at_start s
        || match s with
           | c :: s' => atom_matches a c && match_here re' false s'
           | [] => false
           end
  end.

Fixpoint search (re : Regexp) (at_start : bool) (s : list rune) : bool :=
  match_here re at_start s
  || match s with
     | _ :: s' => search re false s'
     | [] => false
     end.

(** [Regexp.MatchString]: does the text contain any match? *)
Definition MatchString (re : Regexp) (s : list rune) : bool :=
  search re true s.

(** The package compiles more than the fragment. What it does with an
    expression that [Compile] has no answer for is not modelled but taken
    as given: [rest expr] is [None] when the package reports an error for
    [expr], and otherwise what the compiled expression matches. *)
Definition Rest : Type := list rune -> option (list rune -> bool).

(** A compiled expression, Go's [*regexp.Regexp], as the driver holds it:
    the program of an expression of the fragment, or an expression the
    package has compiled outside it, known by what it matches. *)
Inductive Compiled : Type :=
  | Modelled (prog : Regexp)
  | Other (matches : list rune -> bool).

(** [regexp.Compile] on every expression. *)
Definition Compile_all (rest : Rest) (expr : list rune) : option Compiled :=
  match Compile expr with
  | Some prog => Some (Modelled prog)
  | None => option_map Other (rest expr)
  end.

(** [Regexp.MatchString] on every compiled expression. *)
Definition Matches (re : Compiled) (s : list rune) : bool :=
  match re with
  | Modelled prog => MatchString prog s
  | Other matches => matches s
  end.

(** [ReplaceAllString] for the two package-level expressions of [proto],
    which both have the shape [([^\\])X] with a template [$1R]: scanning left
    to right, a rune other than a backslash that is followed by [X] is kept
    and the [X] replaced by [R]; the scan resumes after the [X], so matches
    never overlap. *)
Fixpoint ReplaceAfterNonBackslash (x : rune) (repl : list rune)
    (s : list rune) : list rune :=
  match s with
  | [] => []
  | c :: s' =>
      match s' with
      | y :: s'' =>
          if negb (c =? backslash)%N && (y =? x)%N
          then c :: repl ++ ReplaceAfterNonBackslash x repl s''
          else c :: ReplaceAfterNonBackslash x repl s'
      | [] => [c]
      end
  end.

End regexp.

Module proto.

(** [regAsterisk.ReplaceAllString(pattern, "$1.*")], with
    [regAsterisk = regexp.MustCompile(`([^\\])\*`)]. *)
Definition regAsterisk_ReplaceAllString (pattern : list rune) : list rune :=
  regexp.ReplaceAfterNonBackslash regexp.asterisk (runes ".*") pattern.

(** [regBackSlash.ReplaceAllString(pattern, "$1.")], with
    [regBackSlash = regexp.MustCompile(`([^\\])\?`)]. *)
Definition regBackSlash_ReplaceAllString (pattern : list rune) : list rune :=
  regexp.ReplaceAfterNonBackslash regexp.question (runes ".") pattern.

(** [PatternToReg]: FetchRequestPattern.URLPattern to regular expression. *)
Definition PatternToReg (pattern : list rune) : list rune :=
  match pattern with
  | [] => []
  | _ :: _ =>
      let pattern := regexp.space :: pattern in
      let pattern := regAsterisk_ReplaceAllString pattern in
      let pattern := regBackSlash_ReplaceAllString pattern in
      runes "\A" ++ strings.TrimSpace pattern ++ runes "\z"
  end.

(** [ParseMethodName]: [arr := strings.Split(method, "."); arr[0], arr[1]].
    [None] stands for the index-out-of-range panic on a name with no dot. *)
Definition ParseMethodName (method : string) : option (string * string) :=
  match strings.SplitDot method with
  | domain :: name :: _ => Some (domain, name)
  | _ => None
  end.

(** Quads and shapes (the patches of [proto]). *)

Record Point : Type := mkPoint {
  pt_X : PrimFloat.float;
  pt_Y : PrimFloat.float
}.

Record DOMRect : Type := mkDOMRect {
  rect_X : PrimFloat.float;
  rect_Y : PrimFloat.float;
  rect_Width : PrimFloat.float;
  rect_Height : PrimFloat.float
}.

(** [DOMQuad] is a slice of coordinates, [Shape] a slice of quads. *)
Abbreviation DOMQuad := (list PrimFloat.float).
Abbreviation Shape := (list DOMQuad).

(** [q[i]] for an [int] index: out of range, the read panics ([None]). *)
Definition index (q : DOMQuad) (i : Z) : option PrimFloat.float :=
  if (i <? 0)%Z then None else q !! Z.to_nat i.

(** [for i := 0; i < n; i++] with a body that may panic. *)
Definition for_range {S : Type} (n : Z) (body : Z -> S -> option S) (s : S)
    : option S :=
  foldl (fun acc i => s ← acc; body (Z.of_nat i) s) (Some s) (seq 0 (Z.to_nat n)).

(** [DOMQuad.Len]. *)
Definition DOMQuad_Len (q : DOMQuad) : Z := Z.quot (Z.of_nat (length q)) 2.

(** [DOMQuad.Each]; [fn] works on the variables it has captured, [S]. *)
Definition DOMQuad_Each {S : Type} (fn : Point -> Z -> S -> S) (q : DOMQuad)
    (s : S) : option S :=
  for_range (DOMQuad_Len q)
    (fun i s =>
       x ← index q (i * 2);
       y ← index q (i * 2 + 1);
       Some (fn (mkPoint x y) i s))
    s.

(** [DOMQuad.Area], each product and sum rounded on its own. *)
Definition DOMQuad_Area (q : DOMQuad) : option PrimFloat.float :=
  let l := (Z.quot (Z.of_nat (length q)) 2 - 1)%Z in
  area ← for_range l
            (fun i area =>
               a ← index q (i * 2);
               b ← index q (i * 2 + 3);
               c ← index q (i * 2 + 2);
               d ← index q (i * 2 + 1);
               Some (PrimFloat.add area
                       (PrimFloat.sub (PrimFloat.mul a b) (PrimFloat.mul c d))))
            PrimFloat.zero;
  a ← index q (l * 2);
  b ← index q 1;
  c ← index q 0;
  d ← index q (l * 2 + 1);
  Some (PrimFloat.div
          (PrimFloat.add area
             (PrimFloat.sub (PrimFloat.mul a b) (PrimFloat.mul c d)))
          PrimFloat.two).

(** The four variables the closure of [Shape.Box] updates. *)
Record Edges : Type := mkEdges {
  e_left : PrimFloat.float;
  e_top : PrimFloat.float;
  e_right : PrimFloat.float;
  e_bottom : PrimFloat.float
}.

Definition Box_grow (pt : Point) (_ : Z) (e : Edges) : Edges :=
  mkEdges
    (if PrimFloat.ltb (pt_X pt) (e_left e) then pt_X pt else e_left e)
    (if PrimFloat.ltb (pt_Y pt) (e_top e) then pt_Y pt else e_top e)
    (if PrimFloat.ltb (e_right e) (pt_X pt) then pt_X pt else e_right e)
    (if PrimFloat.ltb (e_bottom e) (pt_Y pt) then pt_Y pt else e_bottom e).

(** [Shape.Box]; the result is [nil] ([Some None]) for the empty shape. *)
Definition Shape_Box (qs : Shape) : option (option DOMRect) :=
  match qs with
  | [] => Some None
  | q0 :: _ =>
      x0 ← index q0 0;
      y0 ← index q0 1;
      e ← foldl (fun acc q => e ← acc; DOMQuad_Each Box_grow q e)
             (Some (mkEdges x0 y0 x0 y0)) qs;
      Some (Some (mkDOMRect (e_left e) (e_top e)
                    (PrimFloat.sub (e_right e) (e_left e))
                    (PrimFloat.sub (e_bottom e) (e_top e))))
  end.

End proto.

(** ** Package [rod]: shared data *)

Module rod.

(** *** Requests of [lib/proto] that the modelled code builds

    Modelled from the spec: the generated request structs and their
    [ProtoReq] methods are not among the sources. Each request is the struct
    with the fields the driver sets, and [ProtoReq] gives its wire name,
    "Domain.method" (the spec fixes the [domain.enable] / [domain.disable]
    convention); [OtherRequest] is any request the model has no struct for. *)

Record FetchRequestPattern : Type := mkFetchRequestPattern {
  URLPattern : list rune;
  ResourceType : string
}.

Record FetchEnable : Type := mkFetchEnable {
  Patterns : list FetchRequestPattern;
  HandleAuthRequests : bool
}.

Record FetchContinueRequest : Type := mkFetchContinueRequest {
  cr_RequestID : string;
  cr_URL : list rune;
  cr_Method : string;
  cr_PostData : string
}.

Record FetchFulfillRequest : Type := mkFetchFulfillRequest {
  ff_RequestID : string;
  ResponseCode : Z;
  ResponseHeaders : list (string * string);
  ff_Body : string
}.

Record FetchFailRequest : Type := mkFetchFailRequest {
  fl_RequestID : string;
  ErrorReason : string
}.

Record RuntimeCallArgument : Type := mkRuntimeCallArgument {
  arg_Value : option string;          (* a plain JSON value, as text *)
  arg_ObjectID : string
}.

Record RuntimeCallFunctionOn : Type := mkRuntimeCallFunctionOn {
  cf_FunctionDeclaration : string;
  cf_ObjectID : string;
  cf_Arguments : list RuntimeCallArgument;
  cf_AwaitPromise : bool;
  cf_ReturnByValue : bool;
  cf_UserGesture : bool
}.

Inductive Request : Type :=
  | ReqFetchEnable (r : FetchEnable)
  | ReqFetchContinueRequest (r : FetchContinueRequest)
  | ReqFetchFulfillRequest (r : FetchFulfillRequest)
  | ReqFetchFailRequest (r : FetchFailRequest)
  | ReqTargetAttachToTarget (targetID : string) (flatten : bool)
  | ReqPageEnable
  | ReqRuntimeEvaluate (expression : string)
  | ReqRuntimeCallFunctionOn (r : RuntimeCallFunctionOn)
  | ReqDOMDescribeNode (objectID : string) (depth : Z) (pierce : bool)
  | ReqDOMResolveNode (backendNodeID : Z)
  | OtherRequest (method : string) (fields : string).

Definition ProtoReq (req : Request) : string :=
  match req with
  | ReqFetchEnable _ => "Fetch.enable"
  | ReqFetchContinueRequest _ => "Fetch.continueRequest"
  | ReqFetchFulfillRequest _ => "Fetch.fulfillRequest"
  | ReqFetchFailRequest _ => "Fetch.failRequest"
  | ReqTargetAttachToTarget _ _ => "Target.attachToTarget"
  | ReqPageEnable => "Page.enable"
  | ReqRuntimeEvaluate _ => "Runtime.evaluate"
  | ReqRuntimeCallFunctionOn _ => "Runtime.callFunctionOn"
  | ReqDOMDescribeNode _ _ _ => "DOM.describeNode"
  | ReqDOMResolveNode _ => "DOM.resolveNode"
  | OtherRequest method _ => method
  end.

Definition EmulationClearDeviceMetricsOverride := "Emulation.clearDeviceMetricsOverride".
Definition EmulationSetDeviceMetricsOverride := "Emulation.setDeviceMetricsOverride".
Definition EmulationClearGeolocationOverride := "Emulation.clearGeolocationOverride".
Definition EmulationSetGeolocationOverride := "Emulation.setGeolocationOverride".

(** The [params interface{}] of a call: [nil] or a request struct. *)
Abbreviation Params := (option Request).

(** [proto.RuntimeRemoteObject], as far as the driver reads it. *)
Record RemoteObject : Type := mkRemoteObject {
  ObjectID : string;
  Description : string
}.

(** Errors. [ErrCtxNotFound] is [cdp.ErrCtxNotFound], the one error the
    driver tests for with [errors.Is]; [ErrClient] is any other error of the
    transport or the remote; the last two are rod's own error types. *)
Inductive error : Type :=
  | ErrCtxNotFound
  | ErrClient (msg : string)
  | ErrObjectNotFound (this : RemoteObject)
  | ErrEval (details : string).

Definition is_ErrCtxNotFound (err : error) : bool :=
  match err with ErrCtxNotFound => true | _ => false end.

(** A decoded reply, with the fields the modelled code reads. *)
Record Response : Type := mkResponse {
  res_SessionID : string;             (* Target.attachToTarget: SessionID *)
  res_Object : RemoteObject;          (* Result of an evaluation, Object of DOM.resolveNode *)
  res_ExceptionDetails : option string;
  res_ContentDocument : option Z      (* Node.ContentDocument.BackendNodeID *)
}.

(** One call handed to the transport client. *)
Record CallRecord : Type := mkCall {
  call_session : string;
  call_method : string;
  call_params : Params
}.

(** The transport client ([CDPClient.Call]): the reply to a call may depend
    on every call made before it. *)
Definition CDPClient : Type := list CallRecord -> CallRecord -> error + Response.

Record Element : Type := mkElement { el_Object : RemoteObject }.

(** The fields of a [Page] that never change once it is built; [addr] is the
    address of the struct, which tells two instances for one target apart. *)
Record Page : Type := mkPage {
  TargetID : string;
  SessionID : string;
  FrameID : string;
  element : option Element;
  addr : nat
}.

(** [Browser.states] is one [sync.Map] used with two kinds of key: a
    [stateKey] struct (browserContextID, sessionID, methodName) for the last
    parameters of a method, and a bare TargetID for a cached page. Keys of
    different Go types are never equal. *)
Abbreviation stateKey := (string * string * string)%type.
Abbreviation Key := (stateKey + string)%type.

Inductive Value : Type :=
  | VParams (params : Params)
  | VPage (page : Page).

(** What the driver shares between all copies of a [Browser]: the state
    map, the calls its client has received so far, and the next free
    address for a [Page]. *)
Record World : Type := mkWorld {
  states : gmap Key Value;
  calls : list CallRecord;
  next_addr : nat
}.

Definition with_states (f : gmap Key Value -> gmap Key Value) (w : World) : World :=
  mkWorld (f (states w)) (calls w) (next_addr w).

(** *** Control: state, panics and unbounded loops

    A computation over a store [S] returns a value, panics, or is cut off
    while still looping ([Spin], only produced by the fuel of a [for] loop
    that has no exit condition). *)
Inductive outcome (S A : Type) : Type :=
  | Ret (a : A) (s : S)
  | Panic (s : S)
  | Spin (s : S).
Arguments Ret {S A} a s.
Arguments Panic {S A} s.
Arguments Spin {S A} s.

Definition M (S A : Type) : Type := S -> outcome S A.

Definition ret {S A : Type} (a : A) : M S A := fun s => Ret a s.

Definition bind {S A B : Type} (m : M S A) (k : A -> M S B) : M S B :=
  fun s =>
    match m s with
    | Ret a s' => k a s'
    | Panic s' => Panic s'
    | Spin s' => Spin s'
    end.

Definition panic {S A : Type} : M S A := fun s => Panic s.

Definition spin {S A : Type} : M S A := fun s => Spin s.

Definition modify {S : Type} (f : S -> S) : M S unit := fun s => Ret tt (f s).

Notation "x <- m ;; k" := (bind m (fun x => k))
  (at level 100, m at next level, right associativity).
Notation "m ;;; k" := (bind m (fun _ => k))
  (at level 100, right associativity).

(** A computation on a part [T] of the store [S]. *)
Definition lift {S T A : Type} (proj : S -> T) (inj : T -> S -> S)
    (m : M T A) : M S A :=
  fun s =>
    match m (proj s) with
    | Ret a t => Ret a (inj t s)
    | Panic t => Panic (inj t s)
    | Spin t => Spin (inj t s)
    end.

(** The store after a computation, however it ended. *)
Definition final {S A : Type} (o : outcome S A) : S :=
  match o with Ret _ s | Panic s | Spin s => s end.

(** ** [Browser]: the domain-state cache (states.go, browser.go) *)

Record Device : Type := mkDevice { IsClear : bool; device_title : string }.

Record Browser : Type := mkBrowser {
  BrowserContextID : string;
  client : CDPClient;
  defaultDevice : Device
}.

Definition Browser_key (b : Browser) (sessionID methodName : string) : Key :=
  inl (BrowserContextID b, sessionID, methodName).

Definition states_Store (k : Key) (v : Value) : M World unit :=
  modify (with_states (insert k v)).

Definition states_Delete (k : Key) : M World unit :=
  modify (with_states (delete k)).

Definition states_Load (k : Key) : M World (option Value) :=
  fun w => Ret (states w !! k) w.

Definition ParseMethodName (method : string) : M World (string * string) :=
  match proto.ParseMethodName method with
  | Some dn => ret dn
  | None => panic
  end.

(** [Browser.set]. *)
Definition Browser_set (b : Browser) (sessionID methodName : string)
    (params : Params) : M World unit :=
  states_Store (Browser_key b sessionID methodName) (VParams params) ;;;
  key <- (if String.eqb methodName EmulationClearDeviceMetricsOverride
          then ret EmulationSetDeviceMetricsOverride
          else if String.eqb methodName EmulationClearGeolocationOverride
          then ret EmulationSetGeolocationOverride
          else
            dn <- ParseMethodName methodName ;;
            ret (if String.eqb (snd dn) "disable" then fst dn +:+ ".enable" else "")) ;;
  if String.eqb key "" then ret tt
  else states_Delete (Browser_key b sessionID key).

(** [Browser.RemoveState]. *)
Definition Browser_RemoveState (key : Key) : M World unit :=
  states_Delete key.

(** [b.client.Call]: the call is handed to the client and recorded. *)
Definition client_Call (b : Browser) (c : CallRecord) : M World (error + Response) :=
  fun w => Ret (client b (calls w) c) (mkWorld (states w) (calls w ++ [c]) (next_addr w)).

(** [Browser.Call]. *)
Definition Browser_Call (b : Browser) (sessionID methodName : string)
    (params : Params) : M World (error + Response) :=
  res <- client_Call b (mkCall sessionID methodName params) ;;
  match res with
  | inl err => ret (inl err)
  | inr r =>
      Browser_set b sessionID methodName params ;;;
      ret (inr r)
  end.

(** [proto.call], behind every generated [Call] method: the client is a
    browser (session "") or a page (its session). *)
Definition proto_call (b : Browser) (sessionID : string) (req : Request)
    : M World (error + Response) :=
  Browser_Call b sessionID (ProtoReq req) (Some req).

(** [Browser.EnableDomain]. The restore function is the closure the Go code
    returns; it captures [enabled], [sessionID] and [req]. *)
Definition Browser_EnableDomain (b : Browser) (sessionID : string)
    (req : Request) : M World (M World unit) :=
  v <- states_Load (Browser_key b sessionID (ProtoReq req)) ;;
  let enabled := bool_decide (is_Some v) in
  (if negb enabled
   then Browser_Call b sessionID (ProtoReq req) (Some req) ;;; ret tt
   else ret tt) ;;;
  ret (if negb enabled
       then
         dn <- ParseMethodName (ProtoReq req) ;;
         Browser_Call b sessionID (fst dn +:+ ".disable") None ;;; ret tt
       else ret tt).

(** [Browser.DisableDomain]. *)
Definition Browser_DisableDomain (b : Browser) (sessionID : string)
    (req : Request) : M World (M World unit) :=
  v <- states_Load (Browser_key b sessionID (ProtoReq req)) ;;
  let enabled := bool_decide (is_Some v) in
  dn <- ParseMethodName (ProtoReq req) ;;
  (if enabled
   then Browser_Call b sessionID (fst dn +:+ ".disable") None ;;; ret tt
   else ret tt) ;;;
  ret (if enabled
       then Browser_Call b sessionID (ProtoReq req) (Some req) ;;; ret tt
       else ret tt).

Definition Browser_cachePage (page : Page) : M World unit :=
  states_Store (inr (TargetID page)) (VPage page).

(** [Browser.loadCachedPage]; the type assertion of the cached value to a
    page pointer panics on a value that is no page. *)
Definition Browser_loadCachedPage (id : string) : M World (option Page) :=
  v <- states_Load (inr id) ;;
  match v with
  | Some (VPage page) => ret (Some page)
  | Some (VParams _) => panic
  | None => ret None
  end.

(** [Page.EnableDomain]: the browser's, on the page's session. *)
Definition Page_EnableDomain (b : Browser) (p : Page) (method : Request)
    : M World (M World unit) :=
  Browser_EnableDomain b (SessionID p) method.

Definition Page_cleanupStates (p : Page) : M World unit :=
  Browser_RemoveState (inr (TargetID p)).

Definition new_Page (targetID sessionID : string) : M World Page :=
  fun w =>
    Ret (mkPage targetID sessionID targetID None (next_addr w))
        (mkWorld (states w) (calls w) (S (next_addr w))).

Section PageFromTarget.

(** [Page.Emulate] (page.go) is not among the sources: whatever it does to
    the store and whatever it returns, [PageFromTarget] only looks at its
    error. *)
Variable Page_Emulate : Browser -> Page -> Device -> M World (option error).

(** [Browser.PageFromTarget], under [targetsLock]. [page.initEvents] only
    starts the goroutine that pumps events to the page: it leaves the state
    map and the call log alone and has no step here. *)
Definition Browser_PageFromTarget (b : Browser) (targetID : string)
    : M World (error + Page) :=
  cached <- Browser_loadCachedPage targetID ;;
  match cached with
  | Some page => ret (inr page)
  | None =>
      session <- proto_call b "" (ReqTargetAttachToTarget targetID true) ;;
      match session with
      | inl err => ret (inl err)
      | inr session =>
          page <- new_Page targetID (res_SessionID session) ;;
          err <- (if negb (IsClear (defaultDevice b))
                  then Page_Emulate b page (defaultDevice b)
                  else ret None) ;;
          match err with
          | Some err => ret (inl err)
          | None =>
              Browser_cachePage page ;;;
              Page_EnableDomain b page ReqPageEnable ;;;
              ret (inr page)
          end
      end
  end.

End PageFromTarget.

(** ** [HijackRouter] (hijack.go) *)

(** [proto.FetchRequestPaused], the event of a paused request. *)
Record FetchRequestPaused : Type := mkFetchRequestPaused {
  RequestID : string;
  Request_URL : list rune;
  Request_Method : string;
  Request_PostData : string;
  ev_ResourceType : string
}.

Record HijackResponse : Type := mkHijackResponse {
  payload : FetchFulfillRequest;
  fail : FetchFailRequest
}.

(** The [Hijack] context a handler receives and mutates. Its [OnError]
    callback is not a field here: every invocation of it is recorded as an
    [OnError] event instead, whatever callback is installed. *)
Record Hijack : Type := mkHijack {
  Hijack_Request : FetchRequestPaused;
  Hijack_Response : HijackResponse;
  Skip : bool;
  continueRequest : option FetchContinueRequest;
  CustomState : string
}.

Record hijackHandler : Type := mkhijackHandler {
  h_pattern : list rune;
  h_regexp : regexp.Compiled;
  h_handler : Hijack -> Hijack
}.

(** [r.client] is the browser (session "") or a page (its session); either
    way a call ends in [Browser.Call] on that session. *)
Record HijackRouter : Type := mkHijackRouter {
  handlers : list hijackHandler;
  enable : FetchEnable;
  client_session : string;
  browser : Browser
}.

Inductive hijack_event : Type :=
  | Handled (pattern : list rune)     (* h.handler(ctx) was invoked *)
  | OnError (err : error).            (* ctx.OnError(err) was invoked *)

Record HijackWorld : Type := mkHijackWorld {
  hw_world : World;
  hw_events : list hijack_event
}.

Definition emit (ev : hijack_event) : M HijackWorld unit :=
  modify (fun hw => mkHijackWorld (hw_world hw) (hw_events hw ++ [ev])).

Definition newHijackRouter (b : Browser) (session : string) : HijackRouter :=
  mkHijackRouter [] (mkFetchEnable [] false) session b.

Definition router_Call (r : HijackRouter) (req : Request)
    : M HijackWorld (error + Response) :=
  lift hw_world (fun w hw => mkHijackWorld w (hw_events hw))
       (proto_call (browser r) (client_session r) req).

(** [HijackRouter.new]. *)
Definition HijackRouter_new (e : FetchRequestPaused) : Hijack :=
  mkHijack e
    (mkHijackResponse
       (mkFetchFulfillRequest (RequestID e) 200 [] "")
       (mkFetchFailRequest (RequestID e) ""))
    false None "".

Definition with_RequestID (cq : FetchContinueRequest) (id : string)
    : FetchContinueRequest :=
  mkFetchContinueRequest id (cr_URL cq) (cr_Method cq) (cr_PostData cq).

Definition report (res : error + Response) : M HijackWorld unit :=
  match res with
  | inl err => emit (OnError err)
  | inr _ => ret tt
  end.

(** The [for _, h := range r.handlers] loop of the goroutine that
    [initEvents] starts for each paused request. [ret tt] where the Go code
    returns, a recursive call where it continues. *)
Fixpoint HijackRouter_walk (r : HijackRouter) (e : FetchRequestPaused)
    (hs : list hijackHandler) (ctx : Hijack) : M HijackWorld unit :=
  match hs with
  | [] => ret tt
  | h :: hs' =>
      if negb (regexp.Matches (h_regexp h) (Request_URL e))
      then HijackRouter_walk r e hs' ctx
      else
        emit (Handled (h_pattern h)) ;;;
        let ctx := h_handler h ctx in
        match continueRequest ctx with
        | Some cq =>
            res <- router_Call r
                     (ReqFetchContinueRequest (with_RequestID cq (RequestID e))) ;;
            report res
        | None =>
            if Skip ctx then HijackRouter_walk r e hs' ctx
            else if negb (String.eqb (ErrorReason (fail (Hijack_Response ctx))) "")
            then
              res <- router_Call r (ReqFetchFailRequest (fail (Hijack_Response ctx))) ;;
              report res
            else
              res <- router_Call r
                       (ReqFetchFulfillRequest (payload (Hijack_Response ctx))) ;;
              match res with
              | inl err => emit (OnError err)
              | inr _ => HijackRouter_walk r e hs' ctx
              end
        end
  end.

(** What the router does with one paused-request event. *)
Definition HijackRouter_dispatch (r : HijackRouter) (e : FetchRequestPaused)
    : M HijackWorld unit :=
  HijackRouter_walk r e (handlers r) (HijackRouter_new e).

Definition err_of (res : error + Response) : option error :=
  match res with inl err => Some err | inr _ => None end.

(** A router next to the world of its browser. [Add] and [Remove] change
    the router they are called on, and what they have done to it is there
    to see when one of them panics. *)
Record RouterWorld : Type := mkRouterWorld {
  rw_world : World;
  rw_router : HijackRouter
}.

Definition set_router (f : HijackRouter -> HijackRouter) : M RouterWorld unit :=
  modify (fun s => mkRouterWorld (rw_world s) (f (rw_router s))).

(** [r.enable.Call(r.client)]. *)
Definition HijackRouter_enable_Call : M RouterWorld (option error) :=
  fun s =>
    (res <- lift rw_world (fun w s => mkRouterWorld w (rw_router s))
              (proto_call (browser (rw_router s)) (client_session (rw_router s))
                 (ReqFetchEnable (enable (rw_router s)))) ;;
     ret (err_of res)) s.

Section Compile.

(** Go's [regexp] package on the expressions its model leaves out. *)
Variable rest : regexp.Rest.

(** [regexp.MustCompile]: panics when the expression does not compile. *)
Definition MustCompile {S : Type} (expr : list rune) : M S regexp.Compiled :=
  match regexp.Compile_all rest expr with
  | Some re => ret re
  | None => panic
  end.

(** [HijackRouter.Add]: the pattern is enabled, then compiled, then its
    handler is added, then the enabled patterns are sent. *)
Definition HijackRouter_Add (pattern : list rune) (resourceType : string)
    (handler : Hijack -> Hijack) : M RouterWorld (option error) :=
  set_router (fun r =>
    mkHijackRouter (handlers r)
      (mkFetchEnable
         (Patterns (enable r) ++ [mkFetchRequestPattern pattern resourceType])
         (HandleAuthRequests (enable r)))
      (client_session r) (browser r)) ;;;
  reg <- MustCompile (proto.PatternToReg pattern) ;;
  set_router (fun r =>
    mkHijackRouter (handlers r ++ [mkhijackHandler pattern reg handler])
      (enable r) (client_session r) (browser r)) ;;;
  HijackRouter_enable_Call.

End Compile.

(** [HijackRouter.Remove]. *)
Definition HijackRouter_Remove (pattern : list rune)
    : M RouterWorld (option error) :=
  set_router (fun r =>
    let kept := filter (fun h => h_pattern h <> pattern) (handlers r) in
    mkHijackRouter kept
      (mkFetchEnable (map (fun h => mkFetchRequestPattern (h_pattern h) "") kept)
         (HandleAuthRequests (enable r)))
      (client_session r) (browser r)) ;;;
  HijackRouter_enable_Call.

(** ** [Page]: execution context, helpers and evaluation (page_eval.go) *)

(** [js.Function]: a helper with the helpers it depends on. *)
Inductive Function : Type :=
  | mkFunction (name : string) (definition : string) (dependencies : list Function).

Definition fn_Name (fn : Function) : string :=
  match fn with mkFunction name _ _ => name end.

Definition fn_Definition (fn : Function) : string :=
  match fn with mkFunction _ definition _ => definition end.

(** An element of [EvalOptions.JSArgs], by the dynamic type [formatArgs]
    switches on. *)
Inductive Arg : Type :=
  | ArgRemoteObject (obj : RemoteObject)
  | ArgFunction (fn : Function)
  | ArgJSON (value : string).

Record EvalOptions : Type := mkEvalOptions {
  ByValue : bool;
  AwaitPromise : bool;
  ThisObj : option RemoteObject;
  JS : string;
  JSArgs : list Arg;
  UserGesture : bool
}.

(** [Eval] (the name is a keyword here, hence the underscore). *)
Definition Eval_ (js : string) (args : list Arg) : EvalOptions :=
  mkEvalOptions true false None js args false.

(** [EvalOptions.This]. *)
Definition This (e : EvalOptions) (obj : RemoteObject) : EvalOptions :=
  mkEvalOptions (ByValue e) (AwaitPromise e) (Some obj) (JS e) (JSArgs e) (UserGesture e).

Definition in_cutset (c : ascii) : bool :=
  let n := N_of_ascii c in
  ((9 <=? n) && (n <=? 13) || (n =? 32) || (n =? 59))%N.

Fixpoint trim_left (s : list ascii) : list ascii :=
  match s with
  | c :: s' => if in_cutset c then trim_left s' else s
  | [] => []
  end.

(** [strings.Trim(js, "\t\n\v\f\r ;")]. *)
Definition Trim_cutset (js : string) : string :=
  String.string_of_list_ascii
    (rev (trim_left (rev (trim_left (String.list_ascii_of_string js))))).

(** [EvalOptions.formatToJSFunc]. *)
Definition formatToJSFunc (e : EvalOptions) : string :=
  "function() { return (" +:+ Trim_cutset (JS e) +:+ ").apply(this, arguments) }".

(** What one [Page] keeps behind its pointers, next to the browser's
    world: the string [jsCtxID] points to, the [helpers] map ([None] is the
    nil map), and a log of the invalidations and sleeps of [Evaluate]. *)
Inductive page_event : Type :=
  | Unset                 (* p.unsetJSCtxID() *)
  | Slept (ms : N).       (* backoff(p.ctx) slept for so many milliseconds *)

Record PageWorld : Type := mkPageWorld {
  pw_world : World;
  jsCtxID : string;
  helpers : option (gmap string (gmap string string));
  pw_log : list page_event
}.

Definition get_jsCtxID : M PageWorld string :=
  fun pw => Ret (jsCtxID pw) pw.

Definition set_jsCtxID (id : string) : M PageWorld unit :=
  modify (fun pw => mkPageWorld (pw_world pw) id (helpers pw) (pw_log pw)).

(** [delete(p.helpers, ctxID)]; deleting from the nil map does nothing. *)
Definition delete_helpers (ctxID : string) : M PageWorld unit :=
  modify (fun pw =>
    mkPageWorld (pw_world pw) (jsCtxID pw)
      (match helpers pw with
       | Some hs => Some (delete ctxID hs)
       | None => None
       end)
      (pw_log pw)).

Definition set_helpers (hs : option (gmap string (gmap string string)))
    : M PageWorld unit :=
  modify (fun pw => mkPageWorld (pw_world pw) (jsCtxID pw) hs (pw_log pw)).

Definition log (ev : page_event) : M PageWorld unit :=
  modify (fun pw =>
    mkPageWorld (pw_world pw) (jsCtxID pw) (helpers pw) (pw_log pw ++ [ev])).

(** Early return on an error, as [if err != nil { return ..., err }]. *)
Notation "x <-? m ;; k" :=
  (bind m (fun r => match r with inl err => ret (inl err) | inr x => k end))
  (at level 100, m at next level, right associativity).

(** Modelled from the spec: [utils.BackoffSleeper] (lib/utils) is not among
    the sources. The spec describes its delays as a backoff that starts at
    the initial interval, is multiplied per step by a random factor and is
    capped at the maximal interval. [jitter] is the product with that random
    factor; times are in milliseconds. *)
Record Sleeper : Type := mkSleeper { sl_interval : N; sl_max : N }.

Definition BackoffSleeper (init max : N) : Sleeper :=
  mkSleeper (N.min init max) max.

Section Evaluate.

Variable b : Browser.
Variable p : Page.

(** [js.Functions] (lib/js), the helper that holds all others, and the
    random factor of the backoff: both from outside the sources. *)
Variable js_Functions : Function.
Variable jitter : N -> N.

Definition Sleeper_sleep (sl : Sleeper) : M PageWorld Sleeper :=
  log (Slept (sl_interval sl)) ;;;
  ret (mkSleeper (N.min (sl_max sl) (jitter (sl_interval sl))) (sl_max sl)).

(** Modelled from the spec: [Page.Call] (page.go) is not among the sources;
    outbound calls of a session go through the domain-state cache to the
    transport client, that is through [Browser.Call] on the page's session. *)
Definition Page_Call (req : Request) : M PageWorld (error + Response) :=
  lift pw_world
       (fun w pw => mkPageWorld w (jsCtxID pw) (helpers pw) (pw_log pw))
       (proto_call b (SessionID p) req).

(** [Element.Describe], called on the element that embeds the frame. *)
Definition Element_Describe (el : Element) (depth : Z) (pierce : bool)
    : M PageWorld (error + Response) :=
  Page_Call (ReqDOMDescribeNode (ObjectID (el_Object el)) depth pierce).

(** [Page.getHelper]. *)
Definition Page_getHelper (ctxID name : string) : M PageWorld (string * bool) :=
  fun pw =>
    let hs := match helpers pw with Some hs => hs | None => ∅ end in
    let (list, hs) :=
      match hs !! ctxID with
      | Some list => (list, hs)
      | None => (∅, <[ctxID := ∅]> hs)
      end in
    Ret (match list !! name with
         | Some id => (id, true)
         | None => ("", false)
         end)
        (mkPageWorld (pw_world pw) (jsCtxID pw) (Some hs) (pw_log pw)).

(** [Page.setHelper]: [p.helpers[jsCtxID][name] = fnID] panics when there is
    no inner map to assign to. *)
Definition Page_setHelper (ctxID name fnID : string) : M PageWorld unit :=
  fun pw =>
    match helpers pw with
    | Some hs =>
        match hs !! ctxID with
        | Some list =>
            Ret tt (mkPageWorld (pw_world pw) (jsCtxID pw)
                      (Some (<[ctxID := <[name := fnID]> list]> hs)) (pw_log pw))
        | None => Panic pw
        end
    | None => Panic pw
    end.

(** [Page.jsCtxIDByObjectID]. *)
Definition Page_jsCtxIDByObjectID (id : string) : M PageWorld (error + string) :=
  res <-? Page_Call (ReqRuntimeCallFunctionOn
                       (mkRuntimeCallFunctionOn "() => window" id [] false false false)) ;;
  ret (inr (ObjectID (res_Object res))).

(** [Page.getJSCtxID], under [jsCtxLock]. [IsIframe] (page.go, not among
    the sources) tells whether the page has the element that embeds it. *)
Definition Page_getJSCtxID : M PageWorld (error + string) :=
  cur <- get_jsCtxID ;;
  if negb (String.eqb cur "") then ret (inr cur)
  else
    match element p with
    | None =>
        obj <-? Page_Call (ReqRuntimeEvaluate "window") ;;
        set_jsCtxID (ObjectID (res_Object obj)) ;;;
        set_helpers None ;;;
        id <- get_jsCtxID ;;
        ret (inr id)
    | Some el =>
        node <-? Element_Describe el 1 true ;;
        match res_ContentDocument node with
        | None => panic                (* nil ContentDocument dereferenced *)
        | Some backendNodeID =>
            obj <-? Page_Call (ReqDOMResolveNode backendNodeID) ;;
            cur <- get_jsCtxID ;;
            delete_helpers cur ;;;
            r <- Page_jsCtxIDByObjectID (ObjectID (res_Object obj)) ;;
            match r with
            | inl err => set_jsCtxID "" ;;; ret (inl err)
            | inr id => set_jsCtxID id ;;; ret (inr id)
            end
        end
    end.

(** [Page.unsetJSCtxID]. *)
Definition Page_unsetJSCtxID : M PageWorld unit :=
  set_jsCtxID "" ;;; log Unset.

(** [Page.ensureJSHelper]. *)
Fixpoint Page_ensureJSHelper (fn : Function) : M PageWorld (error + string) :=
  match fn with
  | mkFunction name definition dependencies =>
      ctxID <-? Page_getJSCtxID ;;
      found <- Page_getHelper ctxID (fn_Name js_Functions) ;;
      fnID <-? (if snd found then ret (inr (fst found))
                else
                  res <-? Page_Call
                            (ReqRuntimeCallFunctionOn
                               (mkRuntimeCallFunctionOn (fn_Definition js_Functions)
                                  ctxID [] false false false)) ;;
                  Page_setHelper ctxID (fn_Name js_Functions)
                    (ObjectID (res_Object res)) ;;;
                  ret (inr (ObjectID (res_Object res)))) ;;
      found <- Page_getHelper ctxID name ;;
      if snd found then ret (inr (fst found))
      else
        _ <-? (fix each (deps : list Function) : M PageWorld (error + unit) :=
                 match deps with
                 | [] => ret (inr tt)
                 | dep :: deps' =>
                     _ <-? Page_ensureJSHelper dep ;;
                     each deps'
                 end) dependencies ;;
        res <-? Page_Call
                  (ReqRuntimeCallFunctionOn
                     (mkRuntimeCallFunctionOn
                        ("functions => { const f = functions." +:+ name +:+ " = "
                         +:+ definition
                         +:+ "; f.toString = () => 'fn'; return f }")
                        ctxID [mkRuntimeCallArgument None fnID]
                        false false false)) ;;
        Page_setHelper ctxID name (ObjectID (res_Object res)) ;;;
        ret (inr (ObjectID (res_Object res)))
  end.

(** [Page.formatArgs]. *)
Fixpoint Page_formatArgs (args : list Arg)
    : M PageWorld (error + list RuntimeCallArgument) :=
  match args with
  | [] => ret (inr [])
  | arg :: args' =>
      formated <-? match arg with
                   | ArgRemoteObject obj =>
                       ret (inr (mkRuntimeCallArgument None (ObjectID obj)))
                   | ArgFunction fn =>
                       id <-? Page_ensureJSHelper fn ;;
                       ret (inr (mkRuntimeCallArgument None id))
                   | ArgJSON value =>
                       ret (inr (mkRuntimeCallArgument (Some value) ""))
                   end ;;
      rest <-? Page_formatArgs args' ;;
      ret (inr (formated :: rest))
  end.

(** [Page.evaluate]. *)
Definition Page_evaluate (opts : EvalOptions) : M PageWorld (error + RemoteObject) :=
  args <-? Page_formatArgs (JSArgs opts) ;;
  objectID <-? match ThisObj opts with
               | None => Page_getJSCtxID
               | Some this => ret (inr (ObjectID this))
               end ;;
  res <-? Page_Call
            (ReqRuntimeCallFunctionOn
               (mkRuntimeCallFunctionOn (formatToJSFunc opts) objectID args
                  (AwaitPromise opts) (ByValue opts) (UserGesture opts))) ;;
  match res_ExceptionDetails res with
  | Some details => ret (inl (ErrEval details))
  | None => ret (inr (res_Object res))
  end.

(** The [for] loop of [Page.Evaluate]; [backoff] is the loop's variable,
    [None] while it is nil. The loop has no exit condition of its own, so
    the model takes fuel, one unit per iteration. *)
Fixpoint Evaluate_loop (fuel : nat) (backoff : option Sleeper)
    (opts : EvalOptions) : M PageWorld (error + RemoteObject) :=
  match fuel with
  | O => spin
  | S fuel' =>
      res <- Page_evaluate opts ;;
      match res with
      | inl err =>
          if is_ErrCtxNotFound err then
            match ThisObj opts with
            | Some this => ret (inl (ErrObjectNotFound this))
            | None =>
                backoff' <- match backoff with
                            | None => ret (BackoffSleeper 30 3000)
                            | Some sl => Sleeper_sleep sl
                            end ;;
                Page_unsetJSCtxID ;;;
                Evaluate_loop fuel' (Some backoff') opts
            end
          else ret res
      | inr _ => ret res
      end
  end.

(** [Page.Evaluate]. *)
Definition Page_Evaluate (fuel : nat) (opts : EvalOptions)
    : M PageWorld (error + RemoteObject) :=
  Evaluate_loop fuel None opts.

End Evaluate.

(** ** [Browser]: reading the state cache back (states.go) *)

(** [Browser.LoadState], called with a pointer to a request struct, as the
    driver calls it. The recorded parameters are copied into [method] by
    reflection, which panics when nothing but [nil] was recorded (the call
    had no parameters) and when the recorded value is of another type than
    [method]; every request type has a method name of its own, so the types
    are compared by name. The result is [has] with what [method] holds
    afterwards. *)
Definition Browser_LoadState (b : Browser) (sessionID : string)
    (method : Request) : M World (bool * Request) :=
  v <- states_Load (Browser_key b sessionID (ProtoReq method)) ;;
  match v with
  | None => ret (false, method)
  | Some (VParams (Some data)) =>
      if String.eqb (ProtoReq data) (ProtoReq method) then ret (true, data)
      else panic
  | Some (VParams None) => panic
  | Some (VPage _) => panic
  end.

(** ** [Hijack] and [HijackResponse]: what a handler can ask for (hijack.go) *)

(** [Hijack.ContinueRequest]. *)
Definition Hijack_ContinueRequest (cq : FetchContinueRequest) (h : Hijack)
    : Hijack :=
  mkHijack (Hijack_Request h) (Hijack_Response h) (Skip h) (Some cq)
    (CustomState h).

(** [HijackResponse.Fail]. *)
Definition HijackResponse_Fail (reason : string) (ctx : HijackResponse)
    : HijackResponse :=
  mkHijackResponse (payload ctx) (mkFetchFailRequest (fl_RequestID (fail ctx)) reason).

(** [HijackResponse.SetHeader]: the pairs are appended to the headers of
    the payload two strings at a time; a key left without a value is an
    index out of range. *)
Fixpoint HijackResponse_SetHeader (pairs : list string)
    : M HijackResponse unit :=
  match pairs with
  | [] => ret tt
  | [_] => panic
  | name :: value :: pairs' =>
      modify (fun ctx =>
        mkHijackResponse
          (mkFetchFulfillRequest (ff_RequestID (payload ctx))
             (ResponseCode (payload ctx))
             (ResponseHeaders (payload ctx) ++ [(name, value)])
             (ff_Body (payload ctx)))
          (fail ctx)) ;;;
      HijackResponse_SetHeader pairs'
  end.

(** ** [Element]: evaluation on the object of an element (page_eval.go,
    element.go) *)

(** [EvalOptions.ByPromise]. *)
Definition ByPromise (e : EvalOptions) : EvalOptions :=
  mkEvalOptions (ByValue e) true (ThisObj e) (JS e) (JSArgs e) (UserGesture e).

Section Eval.

Variable b : Browser.
Variable p : Page.
Variable js_Functions : Function.
Variable jitter : N -> N.

(** [Element.Evaluate] and [Element.Eval], for an element of the page. *)
Definition Element_Evaluate (fuel : nat) (el : Element) (opts : EvalOptions)
    : M PageWorld (error + RemoteObject) :=
  Page_Evaluate b p js_Functions jitter fuel (This opts (el_Object el)).

Definition Element_Eval (fuel : nat) (el : Element) (js : string)
    (params : list Arg) : M PageWorld (error + RemoteObject) :=
  Element_Evaluate fuel el (ByPromise (Eval_ js params)).

End Eval.

(** ** Chained operations of [Browser], [Page] and [Element] (context.go) *)

(** Go's [context.Context], as the driver builds it. A context made by
    [WithCancel] or [WithTimeout] has an identity, which is what its cancel
    function cancels; [WithTimeoutVal] is [context.WithValue] under the
    driver's own key [timeoutContextKey], whose values are always a
    [timeoutContextVal] (the parent context and the cancel function of a
    timeout); [WithOtherValue] is a value under any other key. *)
Inductive Ctx : Type :=
  | Background
  | WithCancel (id : nat) (parent : Ctx)
  | WithTimeout (id : nat) (d : Z) (parent : Ctx)
  | WithTimeoutVal (val_parent : Ctx) (val_cancel : nat) (parent : Ctx)
  | WithOtherValue (key value : string) (parent : Ctx).

(** [ctx.Value(timeoutContextKey{})]: the innermost value under the key. *)
Fixpoint Value_timeout (ctx : Ctx) : option (Ctx * nat) :=
  match ctx with
  | Background => None
  | WithCancel _ parent | WithTimeout _ _ parent | WithOtherValue _ _ parent =>
      Value_timeout parent
  | WithTimeoutVal val_parent val_cancel _ => Some (val_parent, val_cancel)
  end.

(** What the contexts share: the identities handed out so far and the ones
    whose cancel function has been called. *)
Record CtxWorld : Type := mkCtxWorld {
  next_ctx : nat;
  cancelled : gset nat
}.

Definition context_WithCancel (parent : Ctx) : M CtxWorld (Ctx * nat) :=
  fun w => Ret (WithCancel (next_ctx w) parent, next_ctx w)
               (mkCtxWorld (S (next_ctx w)) (cancelled w)).

Definition context_WithTimeout (parent : Ctx) (d : Z) : M CtxWorld (Ctx * nat) :=
  fun w => Ret (WithTimeout (next_ctx w) d parent, next_ctx w)
               (mkCtxWorld (S (next_ctx w)) (cancelled w)).

(** Calling a cancel function. *)
Definition cancel (id : nat) : M CtxWorld unit :=
  modify (fun w => mkCtxWorld (next_ctx w) ({[id]} ∪ cancelled w)).

(** [ctx.Done()] is closed once the context or one it derives from has
    been cancelled (deadlines are not modelled: no time passes). *)
Fixpoint Done (w : CtxWorld) (ctx : Ctx) : bool :=
  match ctx with
  | Background => false
  | WithCancel id parent | WithTimeout id _ parent =>
      bool_decide (id ∈ cancelled w) || Done w parent
  | WithTimeoutVal _ _ parent | WithOtherValue _ _ parent => Done w parent
  end.

(** A [Browser], [Page] or [Element] seen as what the chained operations
    work on: its [ctx] and [sleeper] fields, and the rest of the struct.
    The three copies of each method in context.go differ in the type of the
    receiver only. *)
Record Chained (T S : Type) : Type := mkChained {
  ch_rest : T;
  ch_ctx : Ctx;
  ch_sleeper : S
}.
Arguments mkChained {T S} ch_rest ch_ctx ch_sleeper.
Arguments ch_rest {T S} c.
Arguments ch_ctx {T S} c.
Arguments ch_sleeper {T S} c.

Section Chain.

Context {T S : Type}.

(** [Context]: a clone with the context replaced. *)
Definition Chained_Context (o : Chained T S) (ctx : Ctx) : Chained T S :=
  mkChained (ch_rest o) ctx (ch_sleeper o).

(** [GetContext]. *)
Definition Chained_GetContext (o : Chained T S) : Ctx := ch_ctx o.

(** [Timeout]. *)
Definition Chained_Timeout (o : Chained T S) (d : Z) : M CtxWorld (Chained T S) :=
  tc <- context_WithTimeout (ch_ctx o) d ;;
  ret (Chained_Context o (WithTimeoutVal (ch_ctx o) (snd tc) (fst tc))).

(** [CancelTimeout]: the type assertion panics on the nil that [Value]
    returns when no timeout is under the context. *)
Definition Chained_CancelTimeout (o : Chained T S) : M CtxWorld (Chained T S) :=
  match Value_timeout (ch_ctx o) with
  | None => panic
  | Some (val_parent, val_cancel) =>
      cancel val_cancel ;;;
      ret (Chained_Context o val_parent)
  end.

(** [WithCancel]: the clone and its cancel function. *)
Definition Chained_WithCancel (o : Chained T S) : M CtxWorld (Chained T S * nat) :=
  cc <- context_WithCancel (ch_ctx o) ;;
  ret (Chained_Context o (fst cc), snd cc).

(** [Sleeper]: a clone with the sleeper replaced. *)
Definition Chained_Sleeper (o : Chained T S) (sleeper : S) : Chained T S :=
  mkChained (ch_rest o) (ch_ctx o) sleeper.

End Chain.

(** ** Matchers and pools (utils.go) *)

(** [genRegMatcher]. Compiling the expressions panics ([None]) on the
    first one that the package does not compile. *)
Fixpoint MustCompile_each (rest : regexp.Rest) (patterns : list (list rune))
    : option (list regexp.Compiled) :=
  match patterns with
  | [] => Some []
  | p :: patterns' =>
      match regexp.Compile_all rest p with
      | Some re =>
          match MustCompile_each rest patterns' with
          | Some res => Some (re :: res)
          | None => None
          end
      | None => None
      end
  end.

(** The loop over [regExcludes], left by [goto end] on the first match. *)
Fixpoint excluded (regExcludes : list regexp.Compiled) (s : list rune) : bool :=
  match regExcludes with
  | [] => false
  | exclude :: rest =>
      if regexp.Matches exclude s then true else excluded rest s
  end.

(** The function [genRegMatcher] returns. *)
Fixpoint reg_matcher (regIncludes regExcludes : list regexp.Compiled)
    (s : list rune) : bool :=
  match regIncludes with
  | [] => false
  | include :: rest =>
      if regexp.Matches include s
      then (if excluded regExcludes s then false else true)
      else reg_matcher rest regExcludes s
  end.

Definition genRegMatcher (rest : regexp.Rest) (includes excludes : list (list rune))
    : option (list rune -> bool) :=
  match MustCompile_each rest includes with
  | Some regIncludes =>
      match MustCompile_each rest excludes with
      | Some regExcludes => Some (reg_matcher regIncludes regExcludes)
      | None => None
      end
  | None => None
  end.

(** [PagePool] and [BrowserPool]: a buffered channel of pointers, [None]
    for nil. The two types have the same code, over [*Page] and over
    [*Browser]. An operation on a channel that cannot proceed blocks until
    another goroutine lets it; a blocked operation is [None] here. *)
Record Pool (T : Type) : Type := mkPool {
  pool_cap : nat;
  pool_queue : list (option T)
}.
Arguments mkPool {T} pool_cap pool_queue.
Arguments pool_cap {T} p.
Arguments pool_queue {T} p.

Section Pool.

Context {T : Type}.

Definition chan_send (x : option T) (pp : Pool T) : option (Pool T) :=
  if Nat.ltb (length (pool_queue pp)) (pool_cap pp)
  then Some (mkPool (pool_cap pp) (pool_queue pp ++ [x]))
  else None.

Definition chan_recv (pp : Pool T) : option (option T * Pool T) :=
  match pool_queue pp with
  | [] => None
  | x :: queue => Some (x, mkPool (pool_cap pp) queue)
  end.

(** [NewPagePool], [NewBrowserPool]: [make] panics on a negative size
    (the [None] of this function); the [limit] sends fill the channel. *)
Definition NewPool (limit : Z) : option (Pool T) :=
  if (limit <? 0)%Z then None
  else Some (mkPool (Z.to_nat limit) (replicate (Z.to_nat limit) None)).

(** [Get]: [create], a function in Go, is given by what it returns; it is
    called when a nil comes out of the channel. *)
Definition Pool_Get (create : option T) (pp : Pool T) : option (option T * Pool T) :=
  match chan_recv pp with
  | Some (Some p, pp') => Some (Some p, pp')
  | Some (None, pp') => Some (create, pp')
  | None => None
  end.

(** [Put]. *)
Definition Pool_Put (p : option T) (pp : Pool T) : option (Pool T) :=
  chan_send p pp.

(** [Cleanup]: the elements [iteratee] has been called with, in order,
    the pool as the loop leaves it, and the receives the loop has yet to
    make: none when it has returned, the rest of them when it is blocked on
    an empty channel. Blocked, it goes on from there (with that many
    receives) once something is put. *)
Fixpoint Cleanup_loop (n : nat) (pp : Pool T) : list T * Pool T * nat :=
  match n with
  | O => ([], pp, O)
  | S n' =>
      match chan_recv pp with
      | Some (p, pp') =>
          let '(visited, pp'', todo) := Cleanup_loop n' pp' in
          (match p with Some x => x :: visited | None => visited end, pp'', todo)
      | None => ([], pp, n)
      end
  end.

Definition Pool_Cleanup (pp : Pool T) : list T * Pool T * nat :=
  Cleanup_loop (pool_cap pp) pp.

End Pool.

(** ** Keyboard and mouse (input.go) *)

(** [input.Key] is a rune. *)
Abbreviation input_Key := rune.

Inductive KeyActionType : Type :=
  | KeyActionPress
  | KeyActionRelease
  | KeyActionTypeKey.

Record KeyAction : Type := mkKeyAction {
  ka_Type : KeyActionType;
  ka_Key : input_Key
}.

(** [KeyActions.Press], [Release] and [Type]: one action per key, added
    to the actions there are. *)
Definition KeyActions_Press (keys : list input_Key) (actions : list KeyAction)
    : list KeyAction :=
  actions ++ map (mkKeyAction KeyActionPress) keys.

Definition KeyActions_Release (keys : list input_Key) (actions : list KeyAction)
    : list KeyAction :=
  actions ++ map (mkKeyAction KeyActionRelease) keys.

Definition KeyActions_Type (keys : list input_Key) (actions : list KeyAction)
    : list KeyAction :=
  actions ++ map (mkKeyAction KeyActionTypeKey) keys.

(** The map [h] of [balance]: for each key, whether its last action is a
    press. *)
Definition need_release (actions : list KeyAction) : gmap input_Key bool :=
  foldl (fun h a =>
           match ka_Type a with
           | KeyActionPress => <[ka_Key a := true]> h
           | KeyActionRelease | KeyActionTypeKey => <[ka_Key a := false]> h
           end)
        ∅ actions.

Section balance.

(** The order in which [range] visits a map is not specified in Go: it is
    whatever [range_order] says. *)
Variable range_order : gmap input_Key bool -> list (input_Key * bool).

(** [KeyActions.balance]. *)
Definition KeyActions_balance (actions : list KeyAction) : list KeyAction :=
  foldl (fun (actions : list KeyAction) (kv : input_Key * bool) =>
           if snd kv then actions ++ [mkKeyAction KeyActionRelease (fst kv)]
           else actions)
        actions (range_order (need_release actions)).

End balance.

(** [proto.InputDispatchMouseEvent], with the fields the mouse sets. *)
Record InputDispatchMouseEvent : Type := mkInputDispatchMouseEvent {
  me_Type : string;
  me_X : PrimFloat.float;
  me_Y : PrimFloat.float;
  me_Button : string;
  me_Buttons : Z;
  me_ClickCount : Z;
  me_Modifiers : Z
}.

(** The [Mouse] of a page: where it is and the buttons that are down, in
    the order they were pressed. *)
Record Mouse : Type := mkMouse {
  m_x : PrimFloat.float;
  m_y : PrimFloat.float;
  m_buttons : list string
}.

(** The input devices of a page next to the browser's world: the keys
    that are down ([Keyboard.pressed]) and the mouse. *)
Record InputWorld : Type := mkInputWorld {
  iw_world : World;
  iw_pressed : gset input_Key;
  iw_mouse : Mouse
}.

Definition set_buttons (buttons : list string) : M InputWorld unit :=
  modify (fun iw =>
    mkInputWorld (iw_world iw) (iw_pressed iw)
      (mkMouse (m_x (iw_mouse iw)) (m_y (iw_mouse iw)) buttons)).

Section Mouse.

Variable b : Browser.
Variable p : Page.

(** From [lib/input], which is not among the sources: the modifier bit of
    a key and the encoding of the buttons that are down; and the JSON
    encoding of an event, which is all the client gets to see of it. *)
Variable Key_Modifier : input_Key -> Z.
Variable EncodeMouseButton : list string -> string * Z.
Variable marshal : InputDispatchMouseEvent -> string.

(** From dev_helpers.go, which is not among the sources either: the pause
    the browser makes before an action when it runs in slow motion. *)
Variable trySlowmotion : M InputWorld unit.

(** [Keyboard.getModifiers]: the bits of the keys that are down, or-ed
    together. *)
Definition Keyboard_getModifiers : M InputWorld Z :=
  fun iw =>
    Ret (set_fold (fun key ms => Z.lor ms (Key_Modifier key)) 0%Z (iw_pressed iw)) iw.

Definition InputDispatchMouseEvent_Call (ev : InputDispatchMouseEvent)
    : M InputWorld (error + Response) :=
  lift iw_world (fun w iw => mkInputWorld w (iw_pressed iw) (iw_mouse iw))
       (proto_call b (SessionID p)
          (OtherRequest "Input.dispatchMouseEvent" (marshal ev))).

(** [Mouse.Down]. *)
Definition Mouse_Down (button : string) (clicks : Z) : M InputWorld (option error) :=
  fun iw =>
    (let m := iw_mouse iw in
     let toButtons := m_buttons m ++ [button] in
     let buttons := snd (EncodeMouseButton toButtons) in
     modifiers <- Keyboard_getModifiers ;;
     res <- InputDispatchMouseEvent_Call
              (mkInputDispatchMouseEvent "mousePressed" (m_x m) (m_y m) button
                 buttons clicks modifiers) ;;
     match res with
     | inl err => ret (Some err)
     | inr _ => set_buttons toButtons ;;; ret None
     end) iw.

(** [Mouse.Up]. *)
Definition Mouse_Up (button : string) (clicks : Z) : M InputWorld (option error) :=
  fun iw =>
    (let m := iw_mouse iw in
     let toButtons := filter (fun btn => btn <> button) (m_buttons m) in
     let buttons := snd (EncodeMouseButton toButtons) in
     modifiers <- Keyboard_getModifiers ;;
     res <- InputDispatchMouseEvent_Call
              (mkInputDispatchMouseEvent "mouseReleased" (m_x m) (m_y m) button
                 buttons clicks modifiers) ;;
     match res with
     | inl err => ret (Some err)
     | inr _ => set_buttons toButtons ;;; ret None
     end) iw.

(** [Mouse.Click]. *)
Definition Mouse_Click (button : string) : M InputWorld (option error) :=
  trySlowmotion ;;;
  err <- Mouse_Down button 1 ;;
  match err with
  | Some err => ret (Some err)
  | None => Mouse_Up button 1
  end.

End Mouse.

End rod.

(* ===================================================================== *)
(** * Part II. The vocabulary of the properties                           *)
(* ===================================================================== *)

Import rod.

(** ** Method names and the state map *)

Fixpoint dot_free (s : string) : bool :=
  match s with
  | EmptyString => true
  | String c s' => negb (Ascii.eqb c ".") && dot_free s'
  end.

(** The entry [Browser.set] deletes after storing the one of [method]:
    the override a clear-override method undoes, the [enable] entry of the
    domain a [disable] belongs to. *)
Definition counterpart (method : string) : option string :=
  if String.eqb method EmulationClearDeviceMetricsOverride
  then Some EmulationSetDeviceMetricsOverride
  else if String.eqb method EmulationClearGeolocationOverride
  then Some EmulationSetGeolocationOverride
  else match proto.ParseMethodName method with
       | Some (domain, name) =>
           if String.eqb name "disable" then Some (domain +:+ ".enable") else None
       | None => None
       end.

(** The state map [Browser.set] leaves behind. *)
Definition set_states (b : Browser) (sessionID methodName : string)
    (params : Params) (st : gmap Key Value) : gmap Key Value :=
  match counterpart methodName with
  | Some k =>
      delete (Browser_key b sessionID k)
        (<[Browser_key b sessionID methodName := VParams params]> st)
  | None => <[Browser_key b sessionID methodName := VParams params]> st
  end.

(** ** Walks of the hijack router *)

(** No handler of [hs] ends the walk for the URL: each one either does not
    match, or is run and leaves the context with no continue directive and
    with [Skip] set. The context is threaded as the walk threads it. *)
Fixpoint unresolved (url : list rune) (hs : list hijackHandler) (ctx : Hijack)
    : bool :=
  match hs with
  | [] => true
  | h :: hs' =>
      if negb (regexp.Matches (h_regexp h) url) then unresolved url hs' ctx
      else
        let ctx := h_handler h ctx in
        match continueRequest ctx with
        | Some _ => false
        | None => Skip ctx && unresolved url hs' ctx
        end
  end.

(** The context the walk holds once an unresolved prefix is behind it. *)
Fixpoint ctx_after (url : list rune) (hs : list hijackHandler) (ctx : Hijack)
    : Hijack :=
  match hs with
  | [] => ctx
  | h :: hs' =>
      if negb (regexp.Matches (h_regexp h) url) then ctx_after url hs' ctx
      else ctx_after url hs' (h_handler h ctx)
  end.

Definition is_Handled (ev : hijack_event) : Prop :=
  match ev with Handled _ => True | OnError _ => False end.

(** The router with one more enabled pattern, with one more handler, and
    without the handlers of a pattern. *)
Definition enabling (pattern : list rune) (resourceType : string)
    (r : HijackRouter) : HijackRouter :=
  mkHijackRouter (handlers r)
    (mkFetchEnable
       (Patterns (enable r) ++ [mkFetchRequestPattern pattern resourceType])
       (HandleAuthRequests (enable r)))
    (client_session r) (browser r).

Definition handling (h : hijackHandler) (r : HijackRouter) : HijackRouter :=
  mkHijackRouter (handlers r ++ [h]) (enable r) (client_session r) (browser r).

Definition removing (pattern : list rune) (r : HijackRouter) : HijackRouter :=
  mkHijackRouter (filter (fun h => h_pattern h <> pattern) (handlers r))
    (mkFetchEnable
       (map (fun h => mkFetchRequestPattern (h_pattern h) "")
          (filter (fun h => h_pattern h <> pattern) (handlers r)))
       (HandleAuthRequests (enable r)))
    (client_session r) (browser r).

(** The call that sends the enabled patterns of a router. *)
Definition enable_call (r : HijackRouter) : CallRecord :=
  mkCall (client_session r) "Fetch.enable" (Some (ReqFetchEnable (enable r))).

(** ** Glob patterns *)

(** A rune that stands for itself both in a glob and in an expression. *)
Definition plain (c : rune) : bool :=
  negb (c =? regexp.backslash)%N && negb (c =? regexp.dot)%N
  && negb (regexp.is_repeat_op c) && negb (regexp.is_unsupported c)
  && negb (unicode.IsSpace c).

Definition is_wildcard (c : rune) : bool :=
  ((c =? regexp.asterisk) || (c =? regexp.question))%N.

(** The glob reading of a pattern: a literal rune, a wildcard escaped with
    a backslash, [*] and [?]. *)
Inductive glob_token : Type :=
  | GLit (c : rune)
  | GEsc (c : rune)
  | GStar
  | GQuest.

(** How a token is spelled in a pattern. *)
Definition spell (t : glob_token) : list rune :=
  match t with
  | GLit c => [c]
  | GEsc c => [regexp.backslash; c]
  | GStar => [regexp.asterisk]
  | GQuest => [regexp.question]
  end.

Definition pattern_of (toks : list glob_token) : list rune :=
  flat_map spell toks.

Definition literal (s : string) : list glob_token := map GLit (runes s).

Definition token_ok (t : glob_token) : bool :=
  match t with
  | GLit c => plain c
  | GEsc c => is_wildcard c
  | GStar | GQuest => true
  end.

Definition same_wildcard (t1 t2 : glob_token) : bool :=
  match t1, t2 with
  | GStar, GStar | GQuest, GQuest => true
  | _, _ => false
  end.

(** Does the sequence start with the wildcard [t]? *)
Definition starts_with (t : glob_token) (toks : list glob_token) : bool :=
  match toks with t' :: _ => same_wildcard t t' | [] => false end.

(** Well-formed token sequences: literals are plain, only wildcards are
    escaped, and no wildcard comes directly after the same wildcard. *)
Fixpoint glob_ok (toks : list glob_token) : bool :=
  match toks with
  | [] => true
  | t :: toks' => token_ok t && negb (starts_with t toks') && glob_ok toks'
  end.

(** What a glob matches, in the spec's words: [*] any run of runes, [?] any
    single rune (any but a line feed, as [.] in the expression), every other
    token its rune, and the whole text has to be matched. *)
Fixpoint glob_match (toks : list glob_token) : list rune -> bool :=
  match toks with
  | [] => fun s => match s with [] => true | _ :: _ => false end
  | GStar :: toks' =>
      fix any_run (s : list rune) : bool :=
        glob_match toks' s
        || match s with
           | x :: s' => negb (x =? regexp.newline)%N && any_run s'
           | [] => false
           end
  | GQuest :: toks' =>
      fun s =>
        match s with
        | x :: s' => negb (x =? regexp.newline)%N && glob_match toks' s'
        | [] => false
        end
  | (GLit c | GEsc c) :: toks' =>
      fun s =>
        match s with
        | x :: s' => (x =? c)%N && glob_match toks' s'
        | [] => false
        end
  end.

(** The spelling of a token after the first pass of [PatternToReg], after
    both passes, and the item of the expression it ends up as. *)
Definition star_spell (t : glob_token) : list rune :=
  match t with
  | GStar => [regexp.dot; regexp.asterisk]
  | _ => spell t
  end.

Definition regex_spell (t : glob_token) : list rune :=
  match t with
  | GStar => [regexp.dot; regexp.asterisk]
  | GQuest => [regexp.dot]
  | _ => spell t
  end.

Definition glob_item (t : glob_token) : regexp.atom * regexp.quant :=
  match t with
  | GLit c | GEsc c => (regexp.Lit c, regexp.One)
  | GStar => (regexp.AnyNotNL, regexp.Star)
  | GQuest => (regexp.AnyNotNL, regexp.One)
  end.

(** Whether the expression of a pattern compiles and matches a URL. *)
Definition pattern_matches (pattern url : string) : option bool :=
  option_map (fun re => regexp.MatchString re (runes url))
    (regexp.Compile (proto.PatternToReg (runes pattern))).

(** ** Pages *)

(** The helpers cached under a context id, and one of them. *)
Definition helpers_under (pw : PageWorld) (ctxID : string)
    : option (gmap string string) :=
  match helpers pw with
  | Some hs => hs !! ctxID
  | None => None
  end.

Definition cached_helper (pw : PageWorld) (ctxID name : string) : option string :=
  match helpers_under pw ctxID with
  | Some list => list !! name
  | None => None
  end.

(** The page after an invalidation, with the waits that preceded it. *)
Definition invalidated (waits : list page_event) (pw : PageWorld) : PageWorld :=
  mkPageWorld (pw_world pw) "" (helpers pw) (pw_log pw ++ waits ++ [Unset]).

(** A sleeper the loop of [Evaluate] can hold: made by
    [BackoffSleeper 30 3000] and advanced any number of times. *)
Definition sleeper_ok (sl : Sleeper) : Prop :=
  (sl_interval sl <= 3000)%N /\ sl_max sl = 3000%N.

(** The sleeper after one sleep. *)
Definition next_sleeper (jitter : N -> N) (sl : Sleeper) : Sleeper :=
  mkSleeper (N.min (sl_max sl) (jitter (sl_interval sl))) (sl_max sl).

Fixpoint count_Unset (evs : list page_event) : nat :=
  match evs with
  | [] => 0
  | Unset :: evs' => S (count_Unset evs')
  | Slept _ :: evs' => count_Unset evs'
  end.

(** ** Method names, once more *)

(** The suffix of a method name after its second piece: nothing, or a dot
    and more. *)
Definition dotted_rest (rest : string) : bool :=
  match rest with
  | EmptyString => true
  | String c _ => Ascii.eqb c "."
  end.

(** The call [PageFromTarget] attaches to a target with. *)
Definition attach_call (targetID : string) : CallRecord :=
  mkCall "" "Target.attachToTarget" (Some (ReqTargetAttachToTarget targetID true)).

(** ** Handlers and calls of the hijack router *)

(** The handlers whose expression matches a URL, in the order of the
    router. *)
Definition matching (url : list rune) (hs : list hijackHandler)
    : list hijackHandler :=
  filter (fun h => regexp.Matches (h_regexp h) url = true) hs.

Definition Handled_by (h : hijackHandler) : hijack_event := Handled (h_pattern h).

(** The three calls that answer a paused request. *)
Definition answers_request (session : string) (c : CallRecord) : Prop :=
  call_session c = session
  /\ match call_params c with
     | Some (ReqFetchContinueRequest _) => call_method c = "Fetch.continueRequest"
     | Some (ReqFetchFailRequest _) => call_method c = "Fetch.failRequest"
     | Some (ReqFetchFulfillRequest _) => call_method c = "Fetch.fulfillRequest"
     | _ => False
     end.

Definition is_OnError (ev : hijack_event) : Prop :=
  match ev with OnError _ => True | Handled _ => False end.

(** A handler that leaves the default action to the router: no continue
    directive, no skip, no failure reason. *)
Definition fulfils (ctx : Hijack) : Prop :=
  continueRequest ctx = None /\ Skip ctx = false
  /\ ErrorReason (fail (Hijack_Response ctx)) = "".

(** The [Fetch.fulfillRequest] calls of a log. *)
Definition is_fulfill (c : CallRecord) : bool :=
  String.eqb (call_method c) "Fetch.fulfillRequest".

(** The pairs of a flat list of keys and values. *)
Fixpoint pairs_of (pairs : list string) : list (string * string) :=
  match pairs with
  | name :: value :: pairs' => (name, value) :: pairs_of pairs'
  | _ => []
  end.

(** The response with more headers. *)
Definition with_headers (more : list (string * string)) (ctx : HijackResponse)
    : HijackResponse :=
  mkHijackResponse
    (mkFetchFulfillRequest (ff_RequestID (payload ctx)) (ResponseCode (payload ctx))
       (ResponseHeaders (payload ctx) ++ more) (ff_Body (payload ctx)))
    (fail ctx).

(** The patterns a router has enabled in the browser and the patterns of
    its handlers. *)
Definition enabled_patterns (r : HijackRouter) : list (list rune) :=
  map URLPattern (Patterns (enable r)).

Definition handler_patterns (r : HijackRouter) : list (list rune) :=
  map h_pattern (handlers r).

(** One change of a router's handlers, and a sequence of them made on one
    router; the errors of the calls are dropped, as by a caller that does
    not look at them. *)
Inductive router_op : Type :=
  | OpAdd (pattern : list rune) (resourceType : string) (handler : Hijack -> Hijack)
  | OpRemove (pattern : list rune).


Definition apply_op (rest : regexp.Rest) (op : router_op)
    : M RouterWorld (option error) :=
  match op with
  | OpAdd pattern resourceType handler =>
      HijackRouter_Add rest pattern resourceType handler
  | OpRemove pattern => HijackRouter_Remove pattern
  end.

Fixpoint apply_ops (rest : regexp.Rest) (ops : list router_op)
    : M RouterWorld unit :=
  match ops with
  | [] => ret tt
  | op :: ops' => apply_op rest op ;;; apply_ops rest ops'
  end.

(** ** The helper cache of a context *)

(** The helper cache of a context has grown: the context id is the same and
    every helper that was cached under the context still is, with the
    same id. *)
Definition grows (ctxID : string) (pw pw' : PageWorld) : Prop :=
  jsCtxID pw' = jsCtxID pw
  /\ forall name id, cached_helper pw ctxID name = Some id ->
                     cached_helper pw' ctxID name = Some id.

(** The remote never hands out the empty string as the id of the object
    an evaluation results in. *)
Definition is_evaluation (c : CallRecord) : bool :=
  match call_params c with
  | Some (ReqRuntimeEvaluate _) | Some (ReqRuntimeCallFunctionOn _) => true
  | _ => false
  end.

Definition ids_not_empty (b : Browser) : Prop :=
  forall history c res,
    is_evaluation c = true ->
    client b history c = inr res -> ObjectID (res_Object res) <> "".

Section HelperSteps.

Variable b : Browser.
Variable p : Page.
Variable js_Functions : Function.

(** The dependencies of a helper, ensured one after the other. *)
Definition ensure_each : list Function -> M PageWorld (error + unit) :=
  fix each (deps : list Function) : M PageWorld (error + unit) :=
    match deps with
    | [] => ret (inr tt)
    | dep :: deps' =>
        _ <-? Page_ensureJSHelper b p js_Functions dep ;;
        each deps'
    end.

(** What [ensureJSHelper] does to a page whose context is resolved. *)
Definition ensures (fn : Function) : Prop :=
  forall pw, jsCtxID pw <> "" ->
    grows (jsCtxID pw) pw (final (Page_ensureJSHelper b p js_Functions fn pw))
    /\ forall id pw',
         Page_ensureJSHelper b p js_Functions fn pw = Ret (inr id) pw' ->
         cached_helper pw' (jsCtxID pw) (fn_Name fn) = Some id
         /\ is_Some (cached_helper pw' (jsCtxID pw) (fn_Name js_Functions)).

(** The two halves of [ensureJSHelper] once the context id is there: the
    holder of all helpers, then the helper itself. *)
Definition ensure_holder (ctxID : string) : M PageWorld (error + string) :=
  found <- Page_getHelper ctxID (fn_Name js_Functions) ;;
  if snd found then ret (inr (fst found))
  else
    res <-? Page_Call b p
              (ReqRuntimeCallFunctionOn
                 (mkRuntimeCallFunctionOn (fn_Definition js_Functions)
                    ctxID [] false false false)) ;;
    Page_setHelper ctxID (fn_Name js_Functions) (ObjectID (res_Object res)) ;;;
    ret (inr (ObjectID (res_Object res))).

Definition ensure_named (ctxID name definition : string)
    (dependencies : list Function) (fnID : string)
    : M PageWorld (error + string) :=
  found <- Page_getHelper ctxID name ;;
  if snd found then ret (inr (fst found))
  else
    _ <-? ensure_each dependencies ;;
    res <-? Page_Call b p
              (ReqRuntimeCallFunctionOn
                 (mkRuntimeCallFunctionOn
                    ("functions => { const f = functions." +:+ name +:+ " = "
                     +:+ definition
                     +:+ "; f.toString = () => 'fn'; return f }")
                    ctxID [mkRuntimeCallArgument None fnID]
                    false false false)) ;;
    Page_setHelper ctxID name (ObjectID (res_Object res)) ;;;
    ret (inr (ObjectID (res_Object res))).

End HelperSteps.

(** ** Evaluation on an element *)

Definition is_helper (arg : Arg) : bool :=
  match arg with ArgFunction _ => true | _ => false end.

(** The call argument of an argument that is no helper. *)
Definition plain_argument (arg : Arg) : RuntimeCallArgument :=
  match arg with
  | ArgRemoteObject obj => mkRuntimeCallArgument None (ObjectID obj)
  | ArgFunction fn => mkRuntimeCallArgument None ""
  | ArgJSON value => mkRuntimeCallArgument (Some value) ""
  end.

(** What [evaluate] makes of the client's answer. *)
Definition evaluated (answer : error + Response) : error + RemoteObject :=
  match answer with
  | inl err => inl err
  | inr res =>
      match res_ExceptionDetails res with
      | Some details => inl (ErrEval details)
      | None => inr (res_Object res)
      end
  end.

Definition Eval_call (p : Page) (el : Element) (js : string) (params : list Arg)
    : CallRecord :=
  mkCall (SessionID p) "Runtime.callFunctionOn"
    (Some (ReqRuntimeCallFunctionOn
             (mkRuntimeCallFunctionOn
                (formatToJSFunc (Eval_ js params)) (ObjectID (el_Object el))
                (map plain_argument params) true true false))).

(** ** Contexts *)

#[global] Instance Ctx_eq_dec : EqDecision Ctx.
Proof. solve_decision. Defined.

(** Contexts derived from [base] without a timeout of the driver in
    between: by [WithCancel], by a value under a foreign key, by a plain
    [context.WithTimeout]. *)
Fixpoint derived (base ctx : Ctx) : bool :=
  bool_decide (ctx = base)
  || match ctx with
     | WithCancel _ parent | WithTimeout _ _ parent | WithOtherValue _ _ parent =>
         derived base parent
     | Background | WithTimeoutVal _ _ _ => false
     end.

(** ** Pools *)

(** A sequence of [Get]s and [Put]s on a pool, none of which blocks. *)
Inductive pool_op (T : Type) : Type :=
  | OpGet (create : option T)
  | OpPut (p : option T).
Arguments OpGet {T} create.
Arguments OpPut {T} p.

Definition is_Get {T : Type} (op : pool_op T) : bool :=
  match op with OpGet _ => true | OpPut _ => false end.

Definition pool_step {T : Type} (pp : Pool T) (op : pool_op T) : option (Pool T) :=
  match op with
  | OpGet create => option_map snd (Pool_Get create pp)
  | OpPut p => Pool_Put p pp
  end.

Fixpoint pool_run {T : Type} (ops : list (pool_op T)) (pp : Pool T)
    : option (Pool T) :=
  match ops with
  | [] => Some pp
  | op :: ops' =>
      match pool_step pp op with
      | Some pp' => pool_run ops' pp'
      | None => None
      end
  end.

(** The elements that have been taken and not put back. *)
Definition in_use {T : Type} (ops : list (pool_op T)) : Z :=
  (Z.of_nat (length (filter (fun op => is_Get op = true) ops))
   - Z.of_nat (length (filter (fun op => is_Get op = false) ops)))%Z.

(** ** Keys and buttons *)

(** The last action of a list that is on a given key. *)
Definition last_on (key : input_Key) (actions : list KeyAction)
    : option KeyActionType :=
  option_map ka_Type (last (filter (fun a => ka_Key a = key) actions)).

(** The buttons that are down once one has been released. *)
Definition released (button : string) (buttons : list string) : list string :=
  filter (fun btn => btn <> button) buttons.

(** The call the mouse makes for an event of a button, where it is. *)
Definition mouse_call (p : Page) (marshal : InputDispatchMouseEvent -> string)
    (type : string) (m : Mouse) (button : string) (buttons clicks modifiers : Z)
    : CallRecord :=
  mkCall (SessionID p) "Input.dispatchMouseEvent"
    (Some (OtherRequest "Input.dispatchMouseEvent"
             (marshal (mkInputDispatchMouseEvent type (m_x m) (m_y m) button
                         buttons clicks modifiers)))).

(** The modifier bits of the keys that are down. *)
Definition modifiers_of (Key_Modifier : input_Key -> Z) (pressed : gset input_Key)
    : Z :=
  set_fold (fun key ms => Z.lor ms (Key_Modifier key)) 0%Z pressed.

(** ** Shapes *)

(** The vertices of a quad, and of a shape. *)
Fixpoint vertices (q : proto.DOMQuad) : list proto.Point :=
  match q with
  | x :: y :: q' => proto.mkPoint x y :: vertices q'
  | _ => []
  end.

Definition Shape_vertices (qs : proto.Shape) : list proto.Point :=
  concat (map vertices qs).

(** A vertex that does not lie beyond the edges: it is not to the left of
    the left one, above the top one, to the right of the right one or
    below the bottom one, as Go compares floating-point numbers. *)
Definition within (e : proto.Edges) (pt : proto.Point) : Prop :=
  PrimFloat.ltb (proto.pt_X pt) (proto.e_left e) = false
  /\ PrimFloat.ltb (proto.pt_Y pt) (proto.e_top e) = false
  /\ PrimFloat.ltb (proto.e_right e) (proto.pt_X pt) = false
  /\ PrimFloat.ltb (proto.e_bottom e) (proto.pt_Y pt) = false.

(** Each edge passes through a vertex. *)
Definition touches (e : proto.Edges) (pts : list proto.Point) : Prop :=
  proto.e_left e ∈ map proto.pt_X pts
  /\ proto.e_top e ∈ map proto.pt_Y pts
  /\ proto.e_right e ∈ map proto.pt_X pts
  /\ proto.e_bottom e ∈ map proto.pt_Y pts.

(* ===================================================================== *)
(** * Part III. Browsers, pages and remotes to run the model on           *)
(* ===================================================================== *)

Definition empty_World : World := mkWorld ∅ [] 0.

Definition an_object (id : string) : Response :=
  mkResponse "" (mkRemoteObject id "") None None.

(** A client that answers every call, and a browser on it. *)
Definition answering_client : CDPClient :=
  fun _ _ => inr (mkResponse "session-1" (mkRemoteObject "obj-1" "") None None).

Definition a_browser : Browser :=
  mkBrowser "" answering_client (mkDevice true "").

(** A client that refuses every call. *)
Definition refusing_client : CDPClient :=
  fun _ _ => inl (ErrClient "connection closed").

(** A device to emulate and an [Emulate] that makes one call for it. *)
Definition a_device : Device := mkDevice false "Laptop".

Definition one_call_Emulate (b : Browser) (p : Page) (d : Device)
    : M World (option error) :=
  res <- proto_call b (SessionID p)
           (OtherRequest EmulationSetDeviceMetricsOverride (device_title d)) ;;
  ret (err_of res).

Definition emulating_browser : Browser :=
  mkBrowser "" answering_client a_device.

Definition cut_off_browser : Browser := mkBrowser "" refusing_client a_device.

Definition attached : outcome World (error + Page) :=
  Browser_PageFromTarget one_call_Emulate emulating_browser "T" empty_World.

Definition the_page : Page := mkPage "T" "session-1" "T" None 0.

(** [Fetch.enable] recorded with one pattern, as a hijack router leaves it,
    and the empty request [HandleAuth] disables the domain with. *)
Definition hijack_patterns : FetchEnable :=
  mkFetchEnable [mkFetchRequestPattern (runes "/api/*") ""] false.

Definition empty_FetchEnable : FetchEnable := mkFetchEnable [] false.

Definition hijacking_World : World :=
  mkWorld {[ Browser_key a_browser "" "Fetch.enable"
             := VParams (Some (ReqFetchEnable hijack_patterns)) ]} [] 0.

(** A [regexp] package that compiles nothing but the modelled fragment:
    enough where every expression is in the fragment. *)
Definition no_rest : regexp.Rest := fun _ => None.

(** Two handlers, none of which resolves a request for "/api/users": the
    first does not match, the second matches and skips. *)
Definition skip_handler (ctx : Hijack) : Hijack :=
  mkHijack (Hijack_Request ctx) (Hijack_Response ctx) true
    (continueRequest ctx) (CustomState ctx).

Definition skipping_setup : outcome RouterWorld (option error) :=
  (HijackRouter_Add no_rest (runes "/img/*") "" (fun ctx => ctx) ;;;
   HijackRouter_Add no_rest (runes "/api/*") "" skip_handler)
    (mkRouterWorld empty_World (newHijackRouter a_browser "")).

Definition skipping_router : HijackRouter := rw_router (final skipping_setup).

Definition api_request : FetchRequestPaused :=
  mkFetchRequestPaused "request-1" (runes "/api/users") "GET" "" "XHR".

(** A fresh router with one handler, registered under the empty pattern. *)
Definition catch_all_setup : outcome RouterWorld (option error) :=
  HijackRouter_Add no_rest [] "" skip_handler
    (mkRouterWorld empty_World (newHijackRouter a_browser "")).

(** Helpers, pages and the remote of a frame: its window has the object id
    "window-1" until it has been asked for once, "window-2" from then on; a
    helper made in a context gets an id that names the context. *)
Definition functions_helper : Function := mkFunction "functions" "() => ({})" [].

Definition element_helper : Function :=
  mkFunction "element" "function (s) { return this.querySelector(s) }" [].

Definition doubling (ms : N) : N := (2 * ms)%N.

Definition is_window_call (c : CallRecord) : bool :=
  match call_params c with
  | Some (ReqRuntimeCallFunctionOn r) =>
      String.eqb (cf_FunctionDeclaration r) "() => window"
  | Some (ReqRuntimeEvaluate _) => true
  | _ => false
  end.

Definition window_id (history : list CallRecord) : string :=
  if existsb is_window_call history then "window-2" else "window-1".

Definition frame_client : CDPClient :=
  fun history c =>
    match call_params c with
    | Some (ReqDOMDescribeNode _ _ _) =>
        inr (mkResponse "" (mkRemoteObject "" "") None (Some 7%Z))
    | Some (ReqDOMResolveNode _) => inr (an_object "document")
    | Some (ReqRuntimeEvaluate _) => inr (an_object (window_id history))
    | Some (ReqRuntimeCallFunctionOn r) =>
        if String.eqb (cf_FunctionDeclaration r) "() => window"
        then inr (an_object (window_id history))
        else inr (an_object ("helper@" +:+ cf_ObjectID r))
    | _ => inl (ErrClient "unexpected call")
    end.

Definition frame_browser : Browser := mkBrowser "" frame_client (mkDevice true "").

Definition iframe_element : Element := mkElement (mkRemoteObject "iframe" "").

Definition iframe_page : Page := mkPage "T" "S" "F" (Some iframe_element) 1.

Definition window_page : Page := mkPage "T" "S" "T" None 0.

Definition fresh_PageWorld : PageWorld := mkPageWorld empty_World "" None [].

(** A page that has cached a helper in its first context and has then been
    invalidated: as an iframe, and as a top-level window. *)
Definition invalidated_iframe : PageWorld :=
  final ((Page_ensureJSHelper frame_browser iframe_page functions_helper element_helper
          ;;; Page_unsetJSCtxID) fresh_PageWorld).

Definition invalidated_window : PageWorld :=
  final ((Page_ensureJSHelper frame_browser window_page functions_helper element_helper
          ;;; Page_unsetJSCtxID) fresh_PageWorld).

(** A remote whose context has gone stale: calling a function fails with
    context-not-found until the window has been asked for again. *)
Definition stale_once_client : CDPClient :=
  fun history c =>
    match call_params c with
    | Some (ReqRuntimeEvaluate _) => inr (an_object "window-2")
    | Some (ReqRuntimeCallFunctionOn r) =>
        if existsb is_window_call history then inr (an_object "result")
        else inl ErrCtxNotFound
    | _ => inl (ErrClient "unexpected call")
    end.

Definition stale_once_browser : Browser :=
  mkBrowser "" stale_once_client (mkDevice true "").

Definition stale_PageWorld : PageWorld :=
  mkPageWorld empty_World "window-1" None [].

Definition one : EvalOptions := Eval_ "() => 1" [].

Definition a_node : RemoteObject := mkRemoteObject "node-9" "div".

(** A remote that has lost the context for good. *)
Definition stale_client : CDPClient := fun _ _ => inl ErrCtxNotFound.

Definition stale_browser : Browser := mkBrowser "" stale_client (mkDevice true "").

(** An object with a context and a sleeper to chain operations on, and the
    world before any context has been made. *)
Definition a_target : Chained string N := mkChained "browser" Background 100%N.

Definition fresh_CtxWorld : CtxWorld := mkCtxWorld 0 ∅.

(** What [answering_client] answers. *)
Definition the_answer : Response :=
  mkResponse "session-1" (mkRemoteObject "obj-1" "") None None.

(** A handler registered under a pattern, compiled as [Add] compiles it,
    and handlers that continue the request, fail it, leave it as it is and
    set the body of the response. *)
Definition handler_for (pattern : string) (handler : Hijack -> Hijack)
    : hijackHandler :=
  mkhijackHandler (runes pattern)
    (default (regexp.Modelled [])
       (regexp.Compile_all no_rest (proto.PatternToReg (runes pattern))))
    handler.

Definition continue_handler (ctx : Hijack) : Hijack :=
  Hijack_ContinueRequest
    (mkFetchContinueRequest "" (runes "/api/v2/users") "GET" "") ctx.

Definition fail_handler (ctx : Hijack) : Hijack :=
  mkHijack (Hijack_Request ctx)
    (HijackResponse_Fail "BlockedByClient" (Hijack_Response ctx))
    (Skip ctx) (continueRequest ctx) (CustomState ctx).

Definition keep_handler (ctx : Hijack) : Hijack := ctx.

Definition body_handler (ctx : Hijack) : Hijack :=
  mkHijack (Hijack_Request ctx)
    (mkHijackResponse
       (mkFetchFulfillRequest (ff_RequestID (payload (Hijack_Response ctx))) 200
          (ResponseHeaders (payload (Hijack_Response ctx))) "[]")
       (fail (Hijack_Response ctx)))
    (Skip ctx) (continueRequest ctx) (CustomState ctx).

Definition a_router : HijackRouter := newHijackRouter a_browser "".

Definition fresh_HijackWorld : HijackWorld := mkHijackWorld empty_World [].

(** A [regexp] package as far as the examples need one: of what the model
    leaves out it compiles the expression with a group that the pattern
    "/api/(v1|v2)/*" is translated to, and nothing else. *)
Definition versions_rest : regexp.Rest :=
  fun expr =>
    if bool_decide (expr = runes "\A/api/(v1|v2)/.*\z")
    then Some (fun s =>
                 bool_decide (runes "/api/v1/" `prefix_of` s)
                 || bool_decide (runes "/api/v2/" `prefix_of` s))
    else None.

(** Two handlers added and the first removed again. *)
Definition some_ops : list router_op :=
  [OpAdd (runes "/img/*") "" keep_handler;
   OpAdd (runes "/api/(v1|v2)/*") "XHR" fail_handler;
   OpRemove (runes "/img/*")].

(** An element whose object the remote no longer knows. *)
Definition a_gone_node : Element := mkElement a_node.

(** A pool of two pages, one in use and one put back. *)
Definition busy_pool : Pool string := mkPool 2 [Some "page-1"].

(** Control pressed, shift pressed, control pressed and released, "a"
    typed. *)
Definition some_keys : list KeyAction :=
  KeyActions_Type [97%N]
    (KeyActions_Release [17%N] (KeyActions_Press [17%N; 16%N; 17%N] [])).


(** A mouse at the origin whose left button is down. *)
Definition a_mouse : InputWorld :=
  mkInputWorld empty_World ∅ (mkMouse PrimFloat.zero PrimFloat.zero ["left"]).

(* ===================================================================== *)
(** * Part IV. Properties                                                 *)
(* ===================================================================== *)

(** ** Method names *)

Lemma SplitDot_cons (s : string) :
  exists piece rest, strings.SplitDot s = piece :: rest.
Proof.
  induction s as [|c s' IH]; simpl; [by eexists _, _|].
  destruct (Ascii.eqb c "."); [by eexists _, _|].
  destruct IH as (piece & rest & ->). by eexists _, _.
Qed.

Lemma SplitDot_dot_free (d : string) :
  dot_free d = true -> strings.SplitDot d = [d].
Proof.
  induction d as [|c d' IH]; simpl; [done|].
  destruct (Ascii.eqb c "."); simpl; [done|].
  intros H. by rewrite IH.
Qed.

Lemma SplitDot_app (d tail : string) :
  dot_free d = true ->
  strings.SplitDot (d +:+ "." +:+ tail) = d :: strings.SplitDot tail.
Proof.
  induction d as [|c d' IH]; simpl; [done|].
  destruct (Ascii.eqb c "."); simpl; [done|].
  intros H. by rewrite IH.
Qed.

Lemma SplitDot_head_dot_free (s d : string) (rest : list string) :
  strings.SplitDot s = d :: rest -> dot_free d = true.
Proof.
  revert d rest. induction s as [|c s' IH]; simpl; intros d rest.
  - by intros [= <- <-].
  - destruct (Ascii.eqb c ".") eqn:Hc; [by intros [= <- <-]|].
    destruct (SplitDot_cons s') as (piece & rest' & Hs). rewrite Hs.
    intros [= <- <-]. simpl. rewrite Hc. simpl. eauto.
Qed.

Lemma ParseMethodName_app (d n : string) :
  dot_free d = true -> dot_free n = true ->
  proto.ParseMethodName (d +:+ "." +:+ n) = Some (d, n).
Proof.
  intros Hd Hn. unfold proto.ParseMethodName.
  by rewrite (SplitDot_app d n Hd), (SplitDot_dot_free n Hn).
Qed.

Lemma ParseMethodName_enable (d : string) :
  dot_free d = true -> proto.ParseMethodName (d +:+ ".enable") = Some (d, "enable").
Proof. intros Hd. exact (ParseMethodName_app d "enable" Hd eq_refl). Qed.

Lemma ParseMethodName_disable (d : string) :
  dot_free d = true -> proto.ParseMethodName (d +:+ ".disable") = Some (d, "disable").
Proof. intros Hd. exact (ParseMethodName_app d "disable" Hd eq_refl). Qed.

Lemma ParseMethodName_domain (m d n : string) :
  proto.ParseMethodName m = Some (d, n) -> dot_free d = true.
Proof.
  unfold proto.ParseMethodName.
  destruct (strings.SplitDot m) as [|d' [|n' rest]] eqn:Hs; try done.
  intros [= <- <-]. by eapply SplitDot_head_dot_free.
Qed.

Lemma counterpart_neq (m k : string) : counterpart m = Some k -> k <> m.
Proof.
  unfold counterpart.
  destruct (String.eqb m EmulationClearDeviceMetricsOverride) eqn:E1.
  { apply String.eqb_eq in E1. subst m. by intros [= <-]. }
  destruct (String.eqb m EmulationClearGeolocationOverride) eqn:E2.
  { apply String.eqb_eq in E2. subst m. by intros [= <-]. }
  destruct (proto.ParseMethodName m) as [[d n]|] eqn:Hp; [|done].
  destruct (String.eqb n "disable") eqn:En; [|done].
  apply String.eqb_eq in En. subst n. intros [= <-] Heq.
  pose proof (ParseMethodName_domain _ _ _ Hp) as Hd.
  rewrite <- Heq in Hp.
  rewrite (ParseMethodName_enable d Hd) in Hp. congruence.
Qed.

Lemma counterpart_disable (d : string) :
  dot_free d = true -> counterpart (d +:+ ".disable") = Some (d +:+ ".enable").
Proof.
  intros Hd. unfold counterpart.
  destruct (String.eqb _ EmulationClearDeviceMetricsOverride) eqn:E1.
  { apply String.eqb_eq, (f_equal proto.ParseMethodName) in E1.
    by rewrite (ParseMethodName_disable d Hd) in E1. }
  destruct (String.eqb _ EmulationClearGeolocationOverride) eqn:E2.
  { apply String.eqb_eq, (f_equal proto.ParseMethodName) in E2.
    by rewrite (ParseMethodName_disable d Hd) in E2. }
  by rewrite (ParseMethodName_disable d Hd).
Qed.

(** ** The domain-state cache *)

Lemma Browser_set_final b sessionID methodName params w :
  final (Browser_set b sessionID methodName params w)
  = with_states (set_states b sessionID methodName params) w.
Proof.
  unfold Browser_set, set_states, counterpart, bind, states_Store, states_Delete,
    ParseMethodName, modify, ret, panic, with_states.
  destruct (String.eqb methodName EmulationClearDeviceMetricsOverride); [done|].
  destruct (String.eqb methodName EmulationClearGeolocationOverride); [done|].
  destruct (proto.ParseMethodName methodName) as [[d n]|]; simpl; [|done].
  destruct (String.eqb n "disable"); simpl; [|done].
  destruct d; done.
Qed.

Lemma Browser_set_returns b sessionID methodName params w :
  is_Some (proto.ParseMethodName methodName) ->
  Browser_set b sessionID methodName params w
  = Ret tt (with_states (set_states b sessionID methodName params) w).
Proof.
  intros [[d n] Hp].
  unfold Browser_set, set_states, counterpart, bind, states_Store, states_Delete,
    ParseMethodName, modify, ret, panic, with_states.
  rewrite Hp.
  destruct (String.eqb methodName EmulationClearDeviceMetricsOverride); [done|].
  destruct (String.eqb methodName EmulationClearGeolocationOverride); [done|].
  simpl. destruct (String.eqb n "disable"); simpl; [|done].
  destruct d; done.
Qed.

Lemma set_states_lookup b sessionID methodName params st :
  set_states b sessionID methodName params st !! Browser_key b sessionID methodName
  = Some (VParams params).
Proof.
  unfold set_states. destruct (counterpart methodName) as [k|] eqn:Hk.
  - rewrite lookup_delete_ne, lookup_insert_eq; [done|].
    apply counterpart_neq in Hk. unfold Browser_key. congruence.
  - by rewrite lookup_insert_eq.
Qed.

Lemma set_states_counterpart b sessionID methodName params st k :
  counterpart methodName = Some k ->
  set_states b sessionID methodName params st !! Browser_key b sessionID k = None.
Proof.
  unfold set_states. intros ->. by rewrite lookup_delete_eq.
Qed.

Lemma set_states_other b sessionID methodName params st (key : Key) :
  key <> Browser_key b sessionID methodName ->
  (forall k, counterpart methodName = Some k -> key <> Browser_key b sessionID k) ->
  set_states b sessionID methodName params st !! key = st !! key.
Proof.
  unfold set_states. intros Hne Hk.
  destruct (counterpart methodName) as [k|].
  - rewrite lookup_delete_ne, lookup_insert_ne; [done|done|]. intros Heq.
    by apply (Hk k).
  - by rewrite lookup_insert_ne.
Qed.

Lemma set_states_page b sessionID methodName params st (id : string) :
  set_states b sessionID methodName params st !! inr id = st !! inr id.
Proof. apply set_states_other; unfold Browser_key; congruence. Qed.

(** [Browser.Call], by what the client answers. *)
Lemma Browser_Call_err b sessionID methodName params w err :
  client b (calls w) (mkCall sessionID methodName params) = inl err ->
  Browser_Call b sessionID methodName params w
  = Ret (inl err)
        (mkWorld (states w) (calls w ++ [mkCall sessionID methodName params])
           (next_addr w)).
Proof.
  intros H. unfold Browser_Call, bind, client_Call, ret. by rewrite H.
Qed.

Lemma Browser_Call_ok_final b sessionID methodName params w r :
  client b (calls w) (mkCall sessionID methodName params) = inr r ->
  final (Browser_Call b sessionID methodName params w)
  = mkWorld (set_states b sessionID methodName params (states w))
      (calls w ++ [mkCall sessionID methodName params]) (next_addr w).
Proof.
  intros H. unfold Browser_Call, bind, client_Call. rewrite H.
  match goal with |- context [Browser_set ?b ?s ?m ?p ?w] =>
    pose proof (Browser_set_final b s m p w) as Hf;
    destruct (Browser_set b s m p w) end; simpl in *; by subst.
Qed.

Lemma Browser_Call_ok b sessionID methodName params w r :
  client b (calls w) (mkCall sessionID methodName params) = inr r ->
  is_Some (proto.ParseMethodName methodName) ->
  Browser_Call b sessionID methodName params w
  = Ret (inr r)
        (mkWorld (set_states b sessionID methodName params (states w))
           (calls w ++ [mkCall sessionID methodName params]) (next_addr w)).
Proof.
  intros H Hp. unfold Browser_Call, bind, client_Call. rewrite H.
  by rewrite Browser_set_returns.
Qed.

(** C10. [Browser.Call] touches the state map if and only if the client
    call succeeds. On an error the error is returned and the map is left as
    it was. On success the response is returned (the method name being of
    the form [Domain.name], as every protocol method's is) and, in the map,
    the entry of (browserContextID, session, method) holds the parameters of
    the call, the entry of the method's counterpart (the override a
    clear-override undoes, the [enable] of a [disable]) is gone, and every
    other entry is as before. *)
Theorem Browser_Call_cache_atomic (b : Browser) (sessionID methodName : string)
    (params : Params) (w : World) :
  match client b (calls w) (mkCall sessionID methodName params) with
  | inl err =>
      exists w', Browser_Call b sessionID methodName params w = Ret (inl err) w'
                 /\ states w' = states w
  | inr r =>
      let o := Browser_Call b sessionID methodName params w in
      (is_Some (proto.ParseMethodName methodName) -> o = Ret (inr r) (final o))
      /\ states (final o) !! Browser_key b sessionID methodName
         = Some (VParams params)
      /\ (forall k, counterpart methodName = Some k ->
                    states (final o) !! Browser_key b sessionID k = None)
      /\ (forall key : Key,
            key <> Browser_key b sessionID methodName ->
            (forall k, counterpart methodName = Some k ->
                       key <> Browser_key b sessionID k) ->
            states (final o) !! key = states w !! key)
  end.
Proof.
  destruct (client b (calls w) (mkCall sessionID methodName params))
    as [err|r] eqn:Hc.
  - eexists. split; [by apply Browser_Call_err|done].
  - cbv zeta. split.
    { intros Hp. by rewrite (Browser_Call_ok _ _ _ _ _ _ Hc Hp). }
    rewrite (Browser_Call_ok_final _ _ _ _ _ _ Hc). simpl.
    split; [apply set_states_lookup|].
    split; [apply set_states_counterpart|apply set_states_other].
Qed.

Lemma Browser_Call_page b sessionID methodName params w (id : string) :
  states (final (Browser_Call b sessionID methodName params w)) !! inr id
  = states w !! inr id.
Proof.
  destruct (client b (calls w) (mkCall sessionID methodName params))
    as [err|r] eqn:Hc.
  - by rewrite (Browser_Call_err _ _ _ _ _ _ Hc).
  - rewrite (Browser_Call_ok_final _ _ _ _ _ _ Hc). apply set_states_page.
Qed.

(** ** Enabling and disabling a domain *)

(** [Browser.EnableDomain] on a domain that is not enabled: the enable call
    is made, and the restore function is the one that disables. *)
Lemma Browser_EnableDomain_fresh b sessionID req domain name w r :
  states w !! Browser_key b sessionID (ProtoReq req) = None ->
  proto.ParseMethodName (ProtoReq req) = Some (domain, name) ->
  client b (calls w) (mkCall sessionID (ProtoReq req) (Some req)) = inr r ->
  Browser_EnableDomain b sessionID req w
  = Ret (Browser_Call b sessionID (domain +:+ ".disable") None ;;; ret tt)
        (mkWorld (set_states b sessionID (ProtoReq req) (Some req) (states w))
           (calls w ++ [mkCall sessionID (ProtoReq req) (Some req)])
           (next_addr w)).
Proof.
  intros Hst Hp Hc. unfold Browser_EnableDomain, bind at 1, states_Load.
  rewrite Hst. simpl. unfold bind at 1, bind at 1.
  rewrite (Browser_Call_ok _ _ _ _ _ _ Hc) by (rewrite Hp; eauto).
  unfold ret at 1 2. f_equal.
  unfold ParseMethodName. by rewrite Hp.
Qed.

(** [Browser.EnableDomain] on an enabled domain: no call, and a restore
    function that does nothing. *)
Lemma Browser_EnableDomain_enabled b sessionID req w v :
  states w !! Browser_key b sessionID (ProtoReq req) = Some v ->
  Browser_EnableDomain b sessionID req w = Ret (ret tt) w.
Proof.
  intros Hst. unfold Browser_EnableDomain, bind, states_Load.
  rewrite Hst. reflexivity.
Qed.

Lemma Browser_EnableDomain_page b sessionID req w restore w' (id : string) :
  Browser_EnableDomain b sessionID req w = Ret restore w' ->
  states w' !! inr id = states w !! inr id.
Proof.
  unfold Browser_EnableDomain, bind at 1, states_Load.
  destruct (states w !! Browser_key b sessionID (ProtoReq req)) as [v|]; simpl.
  - by intros [= _ <-].
  - unfold bind at 1, bind at 1.
    pose proof (Browser_Call_page b sessionID (ProtoReq req) (Some req) w id) as Hf.
    destruct (Browser_Call b sessionID (ProtoReq req) (Some req) w);
      simpl in *; [|done..].
    by intros [= _ <-].
Qed.

(** C4. On a session where all calls succeed and the domain of a request
    [domain.enable] is not enabled: two [EnableDomain]s in a row issue the
    enable call once; the restore function of the second issues no call and
    leaves the domain enabled; the restore function of the first, run after
    it, issues the one [domain.disable] call, after which the domain is no
    longer recorded as enabled. *)
Theorem EnableDomain_nesting (b : Browser) (sessionID : string)
    (req : Request) (domain : string) (w : World) :
  ProtoReq req = domain +:+ ".enable" ->
  dot_free domain = true ->
  (forall history c, exists r, client b history c = inr r) ->
  states w !! Browser_key b sessionID (ProtoReq req) = None ->
  exists restore1 restore2 w1 w2 w3 w4,
    Browser_EnableDomain b sessionID req w = Ret restore1 w1
    /\ Browser_EnableDomain b sessionID req w1 = Ret restore2 w2
    /\ calls w2 = calls w ++ [mkCall sessionID (ProtoReq req) (Some req)]
    /\ restore2 w2 = Ret tt w3
    /\ calls w3 = calls w2
    /\ states w3 !! Browser_key b sessionID (ProtoReq req) = Some (VParams (Some req))
    /\ restore1 w3 = Ret tt w4
    /\ calls w4 = calls w2 ++ [mkCall sessionID (domain +:+ ".disable") None]
    /\ states w4 !! Browser_key b sessionID (ProtoReq req) = None.
Proof.
  intros Hm Hd Hok Hst.
  assert (Hp : proto.ParseMethodName (ProtoReq req) = Some (domain, "enable")).
  { rewrite Hm. by apply ParseMethodName_enable. }
  destruct (Hok (calls w) (mkCall sessionID (ProtoReq req) (Some req))) as [r Hc].
  pose proof (Browser_EnableDomain_fresh _ _ _ _ _ _ _ Hst Hp Hc) as H1.
  set (w1 := mkWorld (set_states b sessionID (ProtoReq req) (Some req) (states w))
               (calls w ++ [mkCall sessionID (ProtoReq req) (Some req)])
               (next_addr w)) in *.
  assert (Hst1 : states w1 !! Browser_key b sessionID (ProtoReq req)
                 = Some (VParams (Some req))) by apply set_states_lookup.
  pose proof (Browser_EnableDomain_enabled _ _ _ _ _ Hst1) as H2.
  destruct (Hok (calls w1) (mkCall sessionID (domain +:+ ".disable") None))
    as [r' Hc'].
  assert (Hp' : is_Some (proto.ParseMethodName (domain +:+ ".disable"))).
  { rewrite (ParseMethodName_disable domain Hd); eauto. }
  eexists _, _, w1, w1, w1, _.
  split; [exact H1|]. split; [exact H2|]. split; [done|].
  split; [done|]. split; [done|]. split; [exact Hst1|].
  split.
  { unfold bind. rewrite (Browser_Call_ok _ _ _ _ _ _ Hc' Hp'). reflexivity. }
  split; [done|]. simpl.
  rewrite Hm. apply set_states_counterpart. by apply counterpart_disable.
Qed.

Lemma EnableDomain_nesting_witness :
  exists restore1 restore2 w1 w2 w3 w4,
    Browser_EnableDomain a_browser "s" ReqPageEnable empty_World = Ret restore1 w1
    /\ Browser_EnableDomain a_browser "s" ReqPageEnable w1 = Ret restore2 w2
    /\ calls w2 = [mkCall "s" "Page.enable" (Some ReqPageEnable)]
    /\ restore2 w2 = Ret tt w3
    /\ calls w3 = calls w2
    /\ states w3 !! Browser_key a_browser "s" "Page.enable"
       = Some (VParams (Some ReqPageEnable))
    /\ restore1 w3 = Ret tt w4
    /\ calls w4 = calls w2 ++ [mkCall "s" "Page.disable" None]
    /\ states w4 !! Browser_key a_browser "s" "Page.enable" = None.
Proof.
  apply (EnableDomain_nesting a_browser "s" ReqPageEnable "Page" empty_World).
  - reflexivity.
  - reflexivity.
  - intros history c. eexists. reflexivity.
  - reflexivity.
Defined.

(** [Browser.DisableDomain] on a domain that is not enabled: no call, and a
    restore function that does nothing. *)
Lemma Browser_DisableDomain_not_enabled b sessionID req w :
  is_Some (proto.ParseMethodName (ProtoReq req)) ->
  states w !! Browser_key b sessionID (ProtoReq req) = None ->
  Browser_DisableDomain b sessionID req w = Ret (ret tt) w.
Proof.
  intros [dn Hp] Hst.
  unfold Browser_DisableDomain, bind, states_Load, ParseMethodName.
  rewrite Hst, Hp. reflexivity.
Qed.

(** C3 (what the code does). [Browser.DisableDomain] on a domain recorded
    as enabled with parameters [P] issues [domain.disable], and its restore
    function then calls the method again with [req], the request that was
    handed to [DisableDomain]: [P] is looked up and dropped, so the state
    map ends with [req] where [P] was. *)
Theorem DisableDomain_restore_uses_req (b : Browser) (sessionID : string)
    (req : Request) (domain name : string) (P : Params) (w : World) :
  proto.ParseMethodName (ProtoReq req) = Some (domain, name) ->
  (forall history c, exists r, client b history c = inr r) ->
  states w !! Browser_key b sessionID (ProtoReq req) = Some (VParams P) ->
  exists restore w1 w2,
    Browser_DisableDomain b sessionID req w = Ret restore w1
    /\ calls w1 = calls w ++ [mkCall sessionID (domain +:+ ".disable") None]
    /\ restore w1 = Ret tt w2
    /\ calls w2 = calls w1 ++ [mkCall sessionID (ProtoReq req) (Some req)]
    /\ states w2 !! Browser_key b sessionID (ProtoReq req) = Some (VParams (Some req)).
Proof.
  intros Hp Hok Hst.
  pose proof (ParseMethodName_domain _ _ _ Hp) as Hd.
  destruct (Hok (calls w) (mkCall sessionID (domain +:+ ".disable") None))
    as [r Hc].
  assert (Hp' : is_Some (proto.ParseMethodName (domain +:+ ".disable"))).
  { rewrite (ParseMethodName_disable domain Hd); eauto. }
  set (w1 := mkWorld (set_states b sessionID (domain +:+ ".disable") None (states w))
               (calls w ++ [mkCall sessionID (domain +:+ ".disable") None])
               (next_addr w)).
  destruct (Hok (calls w1) (mkCall sessionID (ProtoReq req) (Some req)))
    as [r' Hc'].
  eexists _, w1, _. split.
  { unfold Browser_DisableDomain, bind at 1, states_Load. rewrite Hst. simpl.
    unfold bind at 1, ParseMethodName. rewrite Hp. unfold ret at 1. simpl.
    unfold bind at 1, bind at 1.
    rewrite (Browser_Call_ok _ _ _ _ _ _ Hc Hp'). reflexivity. }
  split; [done|]. split.
  { unfold bind.
    rewrite (Browser_Call_ok _ _ _ _ _ _ Hc') by (rewrite Hp; eauto).
    reflexivity. }
  split; [done|]. simpl. apply set_states_lookup.
Qed.

(** The failing input of C3: [Fetch.enable] is recorded with one pattern,
    and the domain is disabled with an empty [FetchEnable], as [HandleAuth]
    does; the restore function enables the domain without the pattern. *)
Lemma DisableDomain_restore_loses_patterns :
  exists restore w1 w2,
    Browser_DisableDomain a_browser "" (ReqFetchEnable empty_FetchEnable)
      hijacking_World = Ret restore w1
    /\ calls w1 = [mkCall "" "Fetch.disable" None]
    /\ restore w1 = Ret tt w2
    /\ calls w2 = calls w1
                  ++ [mkCall "" "Fetch.enable" (Some (ReqFetchEnable empty_FetchEnable))]
    /\ states w2 !! Browser_key a_browser "" "Fetch.enable"
       = Some (VParams (Some (ReqFetchEnable empty_FetchEnable))).
Proof.
  apply (DisableDomain_restore_uses_req a_browser "" (ReqFetchEnable empty_FetchEnable)
           "Fetch" "enable" (Some (ReqFetchEnable hijack_patterns)) hijacking_World).
  - reflexivity.
  - intros history c. eexists. reflexivity.
  - reflexivity.
Defined.

(** ** The page cache *)

Section PageCache.

Variable Page_Emulate : Browser -> Page -> Device -> M World (option error).

Lemma PageFromTarget_cached b targetID page w :
  states w !! inr targetID = Some (VPage page) ->
  Browser_PageFromTarget Page_Emulate b targetID w = Ret (inr page) w.
Proof.
  intros Hst.
  unfold Browser_PageFromTarget, Browser_loadCachedPage, states_Load, bind.
  by rewrite Hst.
Qed.

Lemma PageFromTarget_attach_failed b targetID err w :
  states w !! inr targetID = None ->
  client b (calls w)
    (mkCall "" "Target.attachToTarget"
       (Some (ReqTargetAttachToTarget targetID true))) = inl err ->
  Browser_PageFromTarget Page_Emulate b targetID w
  = Ret (inl err)
        (mkWorld (states w)
           (calls w ++ [mkCall "" "Target.attachToTarget"
                          (Some (ReqTargetAttachToTarget targetID true))])
           (next_addr w)).
Proof.
  intros Hst Hc.
  unfold Browser_PageFromTarget, Browser_loadCachedPage, states_Load,
    proto_call, bind.
  rewrite Hst. simpl. by rewrite (Browser_Call_err _ _ _ _ _ _ Hc).
Qed.

Lemma PageFromTarget_caches b targetID page w w' :
  Browser_PageFromTarget Page_Emulate b targetID w = Ret (inr page) w' ->
  states w' !! inr targetID = Some (VPage page).
Proof.
  unfold Browser_PageFromTarget, Browser_loadCachedPage, states_Load,
    proto_call, new_Page, Browser_cachePage, states_Store, modify,
    Page_EnableDomain, bind, ret, panic.
  destruct (states w !! inr targetID) as [[params|cached]|] eqn:Hst; try done.
  { by intros [= <- <-]. }
  destruct (Browser_Call b "" _ _ w) as [[err|session] w1|w1|w1]; try done.
  set (page' := mkPage targetID (res_SessionID session) targetID None (next_addr w1)).
  set (w2 := mkWorld (states w1) (calls w1) (S (next_addr w1))).
  assert (Hcached : forall w3,
    match Browser_EnableDomain b (SessionID page') ReqPageEnable
            (with_states (insert (inr (TargetID page')) (VPage page')) w3) with
    | Ret _ s' => Ret (@inr error Page page') s'
    | Panic s' => Panic s'
    | Spin s' => Spin s'
    end = Ret (inr page) w' ->
    states w' !! inr targetID = Some (VPage page)).
  { intros w3.
    destruct (Browser_EnableDomain _ _ _ _) as [restore w4|w4|w4] eqn:He;
      try done.
    intros [= <- <-].
    rewrite (Browser_EnableDomain_page _ _ _ _ _ _ targetID He). simpl.
    by rewrite lookup_insert_eq. }
  destruct (negb (IsClear (defaultDevice b))).
  - destruct (Page_Emulate b page' (defaultDevice b) w2)
      as [[err|] w3|w3|w3]; try done.
    apply Hcached.
  - apply Hcached.
Qed.

(** C8. [PageFromTarget] is idempotent per target. Once a call for target
    [T] has returned a page, the page is cached under [T], and while it is,
    every call for [T] returns that very page (same address) and leaves the
    world as it is, so no further attach call or any other call is made; in
    particular the next call does. And when [T] is not cached and the client
    fails the attach call, the call returns that error, having made this one
    call only, and the state map is unchanged: [T] stays uncached. *)
Theorem PageFromTarget_idempotent (b : Browser) (targetID : string) (w : World) :
  (forall page w',
      Browser_PageFromTarget Page_Emulate b targetID w = Ret (inr page) w' ->
      states w' !! inr targetID = Some (VPage page)
      /\ Browser_PageFromTarget Page_Emulate b targetID w' = Ret (inr page) w'
      /\ forall w'',
           states w'' !! inr targetID = Some (VPage page) ->
           Browser_PageFromTarget Page_Emulate b targetID w'' = Ret (inr page) w'')
  /\ (forall err,
        states w !! inr targetID = None ->
        client b (calls w)
          (mkCall "" "Target.attachToTarget"
             (Some (ReqTargetAttachToTarget targetID true))) = inl err ->
        exists w',
          Browser_PageFromTarget Page_Emulate b targetID w = Ret (inl err) w'
          /\ states w' = states w
          /\ states w' !! inr targetID = None
          /\ calls w' = calls w ++ [mkCall "" "Target.attachToTarget"
                                      (Some (ReqTargetAttachToTarget targetID true))]).
Proof.
  split.
  - intros page w' H. apply PageFromTarget_caches in H.
    split; [done|]. split; [by apply PageFromTarget_cached|].
    intros w'' H''. by apply PageFromTarget_cached.
  - intros err Hst Hc. eexists.
    split; [by apply PageFromTarget_attach_failed|]. by simpl.
Qed.

End PageCache.

Lemma PageFromTarget_idempotent_witness :
  (attached = Ret (inr the_page) (final attached)
   /\ length (calls (final attached)) = 3
   /\ states (final attached) !! inr "T" = Some (VPage the_page)
   /\ Browser_PageFromTarget one_call_Emulate emulating_browser "T" (final attached)
      = Ret (inr the_page) (final attached))
  /\ (exists w',
        Browser_PageFromTarget one_call_Emulate cut_off_browser "T" empty_World
        = Ret (inl (ErrClient "connection closed")) w'
        /\ states w' = states empty_World
        /\ states w' !! inr "T" = None
        /\ calls w' = [mkCall "" "Target.attachToTarget"
                         (Some (ReqTargetAttachToTarget "T" true))]).
Proof.
  assert (Hrun : attached = Ret (inr the_page) (final attached))
    by (vm_compute; reflexivity).
  destruct (proj1 (PageFromTarget_idempotent one_call_Emulate emulating_browser
                     "T" empty_World) the_page (final attached) Hrun)
    as (Hcached & Hnext & _).
  split.
  - split; [exact Hrun|]. split; [vm_compute; reflexivity|]. by split.
  - apply (proj2 (PageFromTarget_idempotent one_call_Emulate cut_off_browser
                    "T" empty_World)); reflexivity.
Defined.

(** ** The hijack router *)

Lemma walk_unresolved_prefix r e pre post ctx hw :
  unresolved (Request_URL e) pre ctx = true ->
  exists evs,
    Forall is_Handled evs
    /\ HijackRouter_walk r e (pre ++ post) ctx hw
       = HijackRouter_walk r e post (ctx_after (Request_URL e) pre ctx)
           (mkHijackWorld (hw_world hw) (hw_events hw ++ evs)).
Proof.
  revert ctx hw. induction pre as [|h pre IH]; intros ctx hw; simpl.
  - intros _. exists []. split; [constructor|].
    rewrite app_nil_r. by destruct hw.
  - destruct (negb (regexp.Matches (h_regexp h) (Request_URL e))).
    + apply IH.
    + destruct (continueRequest (h_handler h ctx)); [done|].
      intros [HS Hu]%andb_true_iff. rewrite HS.
      unfold bind at 1, emit, modify.
      destruct (IH (h_handler h ctx)
                  (mkHijackWorld (hw_world hw) (hw_events hw ++ [Handled (h_pattern h)]))
                  Hu) as (evs & Hevs & ->).
      exists (Handled (h_pattern h) :: evs). split; [by constructor|].
      simpl. by rewrite <- app_assoc.
Qed.

(** C2 (as the code has it). When no handler produces a terminal directive
    for a paused request, the walk ends having made no call at all and
    without invoking [OnError]: the browser's world is untouched, and the
    only events are the invocations of the handlers that matched. *)
Theorem walk_unresolved_silent (r : HijackRouter) (e : FetchRequestPaused)
    (hs : list hijackHandler) (ctx : Hijack) (hw : HijackWorld) :
  unresolved (Request_URL e) hs ctx = true ->
  exists evs,
    Forall is_Handled evs
    /\ HijackRouter_walk r e hs ctx hw
       = Ret tt (mkHijackWorld (hw_world hw) (hw_events hw ++ evs)).
Proof.
  intros Hu.
  destruct (walk_unresolved_prefix r e hs [] ctx hw Hu) as (evs & Hevs & Hw).
  rewrite app_nil_r in Hw. exists evs. by split.
Qed.

(** The claim as stated fails: the request is dropped without a word. No
    call reaches the browser and nothing is passed to [OnError]. *)
Lemma dispatch_unresolved_reports_nothing :
  length (handlers skipping_router) = 2
  /\ HijackRouter_dispatch skipping_router api_request
       (mkHijackWorld (rw_world (final skipping_setup)) [])
     = Ret tt (mkHijackWorld (rw_world (final skipping_setup))
                 [Handled (runes "/api/*")]).
Proof. split; vm_compute; reflexivity. Qed.

Lemma walk_unresolved_silent_witness :
  exists evs,
    Forall is_Handled evs
    /\ HijackRouter_walk skipping_router api_request (handlers skipping_router)
         (HijackRouter_new api_request)
         (mkHijackWorld (rw_world (final skipping_setup)) [])
       = Ret tt (mkHijackWorld (rw_world (final skipping_setup)) ([] ++ evs)).
Proof.
  apply (walk_unresolved_silent skipping_router api_request
           (handlers skipping_router) (HijackRouter_new api_request)
           (mkHijackWorld (rw_world (final skipping_setup)) [])).
  vm_compute. reflexivity.
Defined.

(** ** The empty pattern *)


(** A call through [proto.call]: it returns the client's answer, adds the
    call to the log and, when it succeeds, records its request. *)
Lemma proto_call_returns b sessionID req w :
  is_Some (proto.ParseMethodName (ProtoReq req)) ->
  exists w',
    proto_call b sessionID req w
    = Ret (client b (calls w) (mkCall sessionID (ProtoReq req) (Some req))) w'
    /\ calls w' = calls w ++ [mkCall sessionID (ProtoReq req) (Some req)]
    /\ (forall r, client b (calls w) (mkCall sessionID (ProtoReq req) (Some req)) = inr r ->
          states w' !! Browser_key b sessionID (ProtoReq req) = Some (VParams (Some req))).
Proof.
  intros Hp. unfold proto_call.
  destruct (client b (calls w) (mkCall sessionID (ProtoReq req) (Some req)))
    as [err|res] eqn:Hc.
  - rewrite (Browser_Call_err _ _ _ _ _ _ Hc). eexists. split; [done|].
    split; [done|]. done.
  - rewrite (Browser_Call_ok _ _ _ _ _ _ Hc Hp). eexists. split; [done|].
    split; [done|]. intros _ _. simpl. apply set_states_lookup.
Qed.

(** Sending the enabled patterns: the call is made, its error is what is
    returned, and the router is left as it is. *)
Lemma enable_Call_returns (s : RouterWorld) :
  exists w',
    HijackRouter_enable_Call s
    = Ret (err_of (client (browser (rw_router s)) (calls (rw_world s))
                     (enable_call (rw_router s))))
          (mkRouterWorld w' (rw_router s))
    /\ calls w' = calls (rw_world s) ++ [enable_call (rw_router s)].
Proof.
  unfold HijackRouter_enable_Call, lift.
  destruct (proto_call_returns (browser (rw_router s)) (client_session (rw_router s))
              (ReqFetchEnable (enable (rw_router s))) (rw_world s))
    as (w' & Hcall & Hcalls & _); [by eexists|].
  exists w'. split; [|exact Hcalls].
  unfold bind. rewrite Hcall. done.
Qed.

(** [Add], by whether the expression of the pattern compiles: if not, it
    panics with the pattern enabled and nothing sent. *)
Lemma HijackRouter_Add_spec rest pattern resourceType handler (s : RouterWorld) :
  HijackRouter_Add rest pattern resourceType handler s
  = match regexp.Compile_all rest (proto.PatternToReg pattern) with
    | Some re =>
        HijackRouter_enable_Call
          (mkRouterWorld (rw_world s)
             (handling (mkhijackHandler pattern re handler)
                (enabling pattern resourceType (rw_router s))))
    | None =>
        Panic (mkRouterWorld (rw_world s)
                 (enabling pattern resourceType (rw_router s)))
    end.
Proof.
  unfold HijackRouter_Add, MustCompile, bind, set_router, modify.
  by destruct (regexp.Compile_all rest (proto.PatternToReg pattern)).
Qed.




(** On a fresh router whose only handler is registered under the empty
    pattern, the handler is run for a request. *)
Example catch_all_handles_request :
  HijackRouter_dispatch (rw_router (final catch_all_setup)) api_request
    (mkHijackWorld (rw_world (final catch_all_setup)) [])
  = Ret tt (mkHijackWorld (rw_world (final catch_all_setup)) [Handled []]).
Proof. vm_compute. reflexivity. Qed.


(** ** Glob patterns *)

Section Glob.

Import regexp.

Lemma plain_spec c :
  plain c = true ->
  c <> backslash /\ c <> dot /\ c <> asterisk /\ c <> question
  /\ is_repeat_op c = false /\ is_unsupported c = false
  /\ unicode.IsSpace c = false.
Proof.
  unfold plain. rewrite !andb_true_iff, !negb_true_iff.
  intros ((((Hb & Hd) & Hr) & Hu) & Hs).
  apply N.eqb_neq in Hb, Hd.
  repeat split; try done; by intros ->.
Qed.

Lemma is_wildcard_spec c :
  is_wildcard c = true -> c = asterisk \/ c = question.
Proof.
  unfold is_wildcard. intros [H|H]%orb_true_iff; apply N.eqb_eq in H; eauto.
Qed.

Lemma glob_ok_cons t toks :
  glob_ok (t :: toks) = true ->
  token_ok t = true /\ starts_with t toks = false /\ glob_ok toks = true.
Proof.
  simpl. rewrite !andb_true_iff, negb_true_iff. tauto.
Qed.

(** [ReplaceAfterNonBackslash], one step at a time. *)
Lemma Replace_step x repl c y s :
  ReplaceAfterNonBackslash x repl (c :: y :: s)
  = if negb (c =? backslash)%N && (y =? x)%N
    then c :: repl ++ ReplaceAfterNonBackslash x repl s
    else c :: ReplaceAfterNonBackslash x repl (y :: s).
Proof. reflexivity. Qed.

Lemma Replace_keep x repl c y s :
  (c = backslash \/ y <> x) ->
  ReplaceAfterNonBackslash x repl (c :: y :: s)
  = c :: ReplaceAfterNonBackslash x repl (y :: s).
Proof.
  intros H. rewrite Replace_step.
  destruct H as [->|H]; [by rewrite N.eqb_refl|].
  apply N.eqb_neq in H. by rewrite H, andb_false_r.
Qed.

Lemma Replace_hit x repl c s :
  c <> backslash ->
  ReplaceAfterNonBackslash x repl (c :: x :: s)
  = c :: repl ++ ReplaceAfterNonBackslash x repl s.
Proof.
  intros H. rewrite Replace_step. apply N.eqb_neq in H.
  by rewrite H, N.eqb_refl.
Qed.

(** The first pass: [*] becomes [.*], everything else is kept. A leading
    wildcard is only replaced when a rune is in front of it, which is why
    the statement comes in two halves. *)
Lemma star_pass toks :
  glob_ok toks = true ->
  (forall c0, c0 <> backslash ->
     ReplaceAfterNonBackslash asterisk (runes ".*") (c0 :: flat_map spell toks)
     = c0 :: flat_map star_spell toks)
  /\ (starts_with GStar toks = false ->
      ReplaceAfterNonBackslash asterisk (runes ".*") (flat_map spell toks)
      = flat_map star_spell toks).
Proof.
  induction toks as [|t toks IH]; [done|].
  intros Hok. apply glob_ok_cons in Hok as (Ht & Hadj & Hok).
  destruct (IH Hok) as [IH1 IH2]. clear IH.
  destruct t as [c|c| |]; cbn [flat_map spell star_spell app] in *.
  - (* a literal *)
    apply plain_spec in Ht as (Hb & _ & Ha & _).
    split; [intros c0 Hc0; rewrite Replace_keep by eauto|intros _];
      by rewrite IH1.
  - (* an escaped wildcard *)
    assert (Hc : c <> backslash).
    { apply is_wildcard_spec in Ht as [->| ->]; done. }
    split; [intros c0 Hc0; rewrite Replace_keep by (right; done)|intros _];
      rewrite Replace_keep by eauto; by rewrite IH1.
  - (* the wildcard [*] *)
    split; [|done]. intros c0 Hc0. rewrite Replace_hit by done.
    by rewrite IH2.
  - (* the wildcard [?] *)
    split; [intros c0 Hc0; rewrite Replace_keep by (right; done)|intros _];
      by rewrite IH1.
Qed.

(** The second pass, on the result of the first: [?] becomes [.]. *)
Lemma quest_pass toks :
  glob_ok toks = true ->
  (forall c0, c0 <> backslash ->
     ReplaceAfterNonBackslash question (runes ".") (c0 :: flat_map star_spell toks)
     = c0 :: flat_map regex_spell toks)
  /\ (starts_with GQuest toks = false ->
      ReplaceAfterNonBackslash question (runes ".") (flat_map star_spell toks)
      = flat_map regex_spell toks).
Proof.
  induction toks as [|t toks IH]; [done|].
  intros Hok. apply glob_ok_cons in Hok as (Ht & Hadj & Hok).
  destruct (IH Hok) as [IH1 IH2]. clear IH.
  destruct t as [c|c| |]; cbn [flat_map spell star_spell regex_spell app] in *.
  - apply plain_spec in Ht as (Hb & _ & _ & Hq & _).
    split; [intros c0 Hc0; rewrite Replace_keep by eauto|intros _];
      by rewrite IH1.
  - assert (Hc : c <> backslash).
    { apply is_wildcard_spec in Ht as [->| ->]; done. }
    split; [intros c0 Hc0; rewrite Replace_keep by (right; done)|intros _];
      rewrite Replace_keep by eauto; by rewrite IH1.
  - split; [intros c0 Hc0; rewrite Replace_keep by (right; done)|intros _];
      rewrite Replace_keep by (right; done); by rewrite IH1.
  - split; [|done]. intros c0 Hc0. rewrite Replace_hit by done.
    by rewrite IH2.
Qed.

Lemma regex_spell_no_space toks :
  glob_ok toks = true ->
  forallb (fun c => negb (unicode.IsSpace c)) (flat_map regex_spell toks) = true.
Proof.
  induction toks as [|t toks IH]; [done|].
  intros Hok. apply glob_ok_cons in Hok as (Ht & _ & Hok).
  cbn [flat_map]. rewrite forallb_app, (IH Hok), andb_true_r.
  destruct t as [c|c| |]; simpl in *; try done.
  - apply plain_spec in Ht as (_ & _ & _ & _ & _ & _ & ->). done.
  - apply is_wildcard_spec in Ht as [->| ->]; done.
Qed.

Lemma TrimLeftSpace_no_space s :
  forallb (fun c => negb (unicode.IsSpace c)) s = true ->
  strings.TrimLeftSpace s = s.
Proof.
  destruct s as [|c s]; [done|]. simpl.
  intros [Hc _]%andb_true_iff. apply negb_true_iff in Hc. by rewrite Hc.
Qed.

Lemma TrimSpace_no_space s :
  forallb (fun c => negb (unicode.IsSpace c)) s = true ->
  strings.TrimSpace s = s.
Proof.
  intros Hs. unfold strings.TrimSpace, strings.TrimRightSpace.
  rewrite (TrimLeftSpace_no_space s Hs).
  rewrite TrimLeftSpace_no_space; [apply rev_involutive|].
  rewrite forallb_forall in *. intros c Hc. apply Hs.
  by apply in_rev.
Qed.

Lemma pattern_of_nonempty toks : toks <> [] -> pattern_of toks <> [].
Proof. destruct toks as [|[c|c| |] toks]; done. Qed.

(** What [PatternToReg] returns on the spelling of a well-formed glob. *)
Lemma PatternToReg_spelled toks :
  toks <> [] -> glob_ok toks = true ->
  proto.PatternToReg (pattern_of toks)
  = runes "\A" ++ flat_map regex_spell toks ++ runes "\z".
Proof.
  intros Hne Hok. pose proof (pattern_of_nonempty toks Hne) as Hp.
  unfold proto.PatternToReg, proto.regAsterisk_ReplaceAllString,
    proto.regBackSlash_ReplaceAllString.
  destruct (pattern_of toks) as [|c p] eqn:Hpat; [done|].
  rewrite <- Hpat. unfold pattern_of.
  rewrite (proj1 (star_pass toks Hok)) by done.
  rewrite (proj1 (quest_pass toks Hok)) by done.
  do 2 f_equal.
  change (strings.TrimSpace (space :: ?s)) with (strings.TrimSpace s).
  apply TrimSpace_no_space. by apply regex_spell_no_space.
Qed.

(** The expression, parsed back. *)
Lemma regex_spell_head toks :
  glob_ok toks = true ->
  match flat_map regex_spell toks ++ runes "\z" with
  | c :: _ => is_repeat_op c = false
  | [] => True
  end.
Proof.
  destruct toks as [|t toks]; [done|]. intros Hok.
  apply glob_ok_cons in Hok as (Ht & _ & _).
  destruct t as [c|c| |]; try done.
  apply plain_spec in Ht. simpl. tauto.
Qed.

Lemma parse_quant_none s :
  match s with c :: _ => is_repeat_op c = false | [] => True end ->
  parse_quant s = Some (One, s).
Proof. destruct s as [|c s]; [done|]. simpl. by intros ->. Qed.

Lemma parse_quant_star s :
  match s with c :: _ => is_repeat_op c = false | [] => True end ->
  parse_quant (asterisk :: s) = Some (Star, s).
Proof.
  destruct s as [|c s]; [done|]. intros Hc. simpl.
  destruct (N.eqb_spec c question) as [->|_]; [done|]. by rewrite Hc.
Qed.

Lemma parse_step fuel s a s1 q s2 :
  parse_atom s = Some (a, s1) ->
  parse_quant s1 = Some (q, s2) ->
  (q = One \/ zero_width a = false) ->
  parse (S fuel) s = option_map (cons (a, q)) (parse fuel s2).
Proof.
  intros Ha Hq Hz. destruct s as [|c s]; [done|].
  cbn [parse]. rewrite Ha, Hq.
  destruct Hz as [->|Hz]; [done|]. rewrite Hz. by destruct q.
Qed.

Lemma parse_atom_lit c s :
  c <> backslash -> c <> dot -> is_repeat_op c = false ->
  is_unsupported c = false ->
  parse_atom (c :: s) = Some (Lit c, s).
Proof.
  intros Hb Hd Hr Hu. simpl.
  destruct (N.eqb_spec c backslash); [done|].
  destruct (N.eqb_spec c dot); [done|]. by rewrite Hr, Hu.
Qed.

Lemma parse_atom_escaped c s :
  is_wildcard c = true ->
  parse_atom (backslash :: c :: s) = Some (Lit c, s).
Proof. by intros [->| ->]%is_wildcard_spec. Qed.

Lemma parse_spelled toks : forall fuel,
  glob_ok toks = true ->
  length (flat_map regex_spell toks ++ runes "\z") <= fuel ->
  parse fuel (flat_map regex_spell toks ++ runes "\z")
  = Some (map glob_item toks ++ [(EndText, One)]).
Proof.
  induction toks as [|t toks IH]; intros fuel Hok Hlen.
  { destruct fuel as [|[|fuel]]; [simpl in Hlen; lia..|done]. }
  pose proof Hok as Hok0.
  apply glob_ok_cons in Hok as (Ht & _ & Hok).
  pose proof (regex_spell_head toks Hok) as Hhead.
  destruct fuel as [|fuel]; [destruct t; simpl in Hlen; lia|].
  assert (Hrest : forall n, n + length (flat_map regex_spell toks ++ runes "\z")
                              <= S fuel -> 1 <= n ->
            parse fuel (flat_map regex_spell toks ++ runes "\z")
            = Some (map glob_item toks ++ [(EndText, One)])).
  { intros n Hn H1. apply IH; [done|lia]. }
  destruct t as [c|c| |]; cbn [flat_map regex_spell spell app map glob_item] in *.
  - apply plain_spec in Ht as (Hb & Hd & _ & _ & Hr & Hu & _).
    rewrite (parse_step fuel _ _ _ _ _ (parse_atom_lit c _ Hb Hd Hr Hu)
               (parse_quant_none _ Hhead)) by eauto.
    by rewrite (Hrest 1) by (simpl in *; lia).
  - rewrite (parse_step fuel _ _ _ _ _ (parse_atom_escaped c _ Ht)
               (parse_quant_none _ Hhead)) by eauto.
    by rewrite (Hrest 2) by (simpl in *; lia).
  - rewrite (parse_step fuel (dot :: asterisk :: _) AnyNotNL _ Star _ eq_refl
               (parse_quant_star _ Hhead)) by eauto.
    by rewrite (Hrest 2) by (simpl in *; lia).
  - rewrite (parse_step fuel (dot :: _) AnyNotNL _ One _ eq_refl
               (parse_quant_none _ Hhead)) by eauto.
    by rewrite (Hrest 1) by (simpl in *; lia).
Qed.

Lemma Compile_spelled toks :
  glob_ok toks = true ->
  Compile (runes "\A" ++ flat_map regex_spell toks ++ runes "\z")
  = Some ((BeginText, One) :: map glob_item toks ++ [(EndText, One)]).
Proof.
  intros Hok. unfold Compile.
  change (length (runes "\A" ++ ?s)) with (S (S (length s))).
  rewrite (parse_step _ (runes "\A" ++ _) BeginText _ One _ eq_refl
             (parse_quant_none _ (regex_spell_head toks Hok))) by eauto.
  rewrite parse_spelled; [done|done|lia].
Qed.

(** The expression of a glob matches as the glob does. *)
Lemma match_here_glob toks : forall at_start s,
  match_here (map glob_item toks ++ [(EndText, One)]) at_start s
  = glob_match toks s.
Proof.
  induction toks as [|t toks IH]; intros at_start s.
  { by destruct s. }
  destruct t as [c|c| |]; cbn [map glob_item glob_match app match_here].
  - destruct s as [|x s]; [done|]. simpl. by rewrite IH.
  - destruct s as [|x s]; [done|]. simpl. by rewrite IH.
  - revert at_start.
    induction s as [|x s IHs]; intros at_start; simpl; rewrite IH; [done|].
    by rewrite IHs.
  - destruct s as [|x s]; [done|]. simpl. by rewrite IH.
Qed.

Lemma search_anchored re s :
  search ((BeginText, One) :: re) false s = false.
Proof. induction s as [|x s IH]; simpl; [done|]. exact IH. Qed.

Lemma MatchString_anchored re s :
  MatchString ((BeginText, One) :: re) s = match_here re true s.
Proof.
  unfold MatchString. destruct s as [|x s]; simpl.
  - by rewrite orb_false_r.
  - by rewrite search_anchored, orb_false_r.
Qed.

(** C7 (on the patterns it holds for). A pattern that spells a well-formed
    glob, made of plain runes, escaped wildcards [\*] and [\?], and the
    wildcards [*] and [?] with none directly after the same one, is
    translated to an expression that compiles and matches exactly the URLs
    the glob matches as a whole: [*] stands for any run of runes, [?] for
    one rune, an escaped wildcard and a plain rune for themselves. *)
Theorem PatternToReg_glob (toks : list glob_token) :
  toks <> [] ->
  glob_ok toks = true ->
  exists re,
    Compile (proto.PatternToReg (pattern_of toks)) = Some re
    /\ forall url, MatchString re url = glob_match toks url.
Proof.
  intros Hne Hok. eexists. split.
  - rewrite (PatternToReg_spelled toks Hne Hok). by apply Compile_spelled.
  - intros url. rewrite MatchString_anchored. apply match_here_glob.
Qed.

End Glob.

Lemma PatternToReg_glob_witness :
  exists re,
    regexp.Compile (proto.PatternToReg (runes "/foo/\*/*?")) = Some re
    /\ forall url,
         regexp.MatchString re url
         = glob_match (literal "/foo/" ++ [GEsc regexp.asterisk]
                       ++ literal "/" ++ [GStar; GQuest]) url.
Proof.
  apply (PatternToReg_glob (literal "/foo/" ++ [GEsc regexp.asterisk]
                            ++ literal "/" ++ [GStar; GQuest]));
    [discriminate|reflexivity].
Defined.

(** The examples of the spec. *)
Example pattern_foo_star :
  pattern_matches "/foo/*" "/foo/bar/baz" = Some true
  /\ pattern_matches "/foo/*" "/fool" = Some false.
Proof. split; vm_compute; reflexivity. Qed.

Example pattern_a_quest_b :
  pattern_matches "/a?b" "/axb" = Some true
  /\ pattern_matches "/a?b" "/ab" = Some false
  /\ pattern_matches "/a?b" "/axxb" = Some false.
Proof. repeat split; vm_compute; reflexivity. Qed.

(** An escaped wildcard stands for itself. *)
Example pattern_escaped_star :
  pattern_matches "/a\*" "/a*" = Some true
  /\ pattern_matches "/a\*" "/ab" = Some false.
Proof. split; vm_compute; reflexivity. Qed.

(** The claim as stated fails: a dot of the pattern reaches the expression
    unescaped, where it matches any rune. *)
Lemma PatternToReg_leaves_dot_unescaped :
  proto.PatternToReg (runes "a.b") = runes "\Aa.b\z"
  /\ pattern_matches "a.b" "a.b" = Some true
  /\ pattern_matches "a.b" "axb" = Some true.
Proof. repeat split; vm_compute; reflexivity. Qed.

(** A wildcard directly after the same wildcard is not translated: the
    scan resumes after the first one, which was the rune the second needed
    in front of it. *)
Example PatternToReg_doubled_wildcards :
  proto.PatternToReg (runes "a**") = runes "\Aa.**\z"
  /\ regexp.Compile (proto.PatternToReg (runes "a**")) = None
  /\ proto.PatternToReg (runes "a??") = runes "\Aa.?\z"
  /\ pattern_matches "a??" "a" = Some true.
Proof. repeat split; vm_compute; reflexivity. Qed.

(** ** Execution contexts and the helper cache *)

Section Contexts.

Variable b : Browser.
Variable p : Page.

(** A call of the page changes the browser's world only. *)
Lemma Page_Call_frame req pw :
  exists w',
    final (Page_Call b p req pw)
    = mkPageWorld w' (jsCtxID pw) (helpers pw) (pw_log pw).
Proof.
  unfold Page_Call, lift.
  destruct (proto_call b (SessionID p) req (pw_world pw)); simpl; eauto.
Qed.

Lemma bind_final {S A B : Type} (m : M S A) (k : A -> M S B) (s : S) :
  final (bind m k s)
  = match m s with
    | Ret a s' => final (k a s')
    | Panic s' | Spin s' => s'
    end.
Proof. unfold bind. by destruct (m s). Qed.

(** The top-level path: a fresh resolution leaves no helper behind. *)
Lemma getJSCtxID_window_clears_helpers pw id pw' :
  element p = None ->
  jsCtxID pw = "" ->
  Page_getJSCtxID b p pw = Ret (inr id) pw' ->
  jsCtxID pw' = id /\ helpers pw' = None.
Proof.
  intros Hel Hid. unfold Page_getJSCtxID, get_jsCtxID. unfold bind at 1.
  rewrite Hid, Hel. simpl. unfold bind at 1.
  destruct (Page_Call_frame (ReqRuntimeEvaluate "window") pw) as [w' Hf].
  destruct (Page_Call b p _ pw) as [[err|obj] pw1|pw1|pw1]; simpl in Hf;
    try done.
  subst pw1. unfold bind, set_jsCtxID, set_helpers, modify, ret. simpl.
  by intros [= <- <-].
Qed.

Lemma getHelper_after_window pw id pw' name :
  element p = None ->
  jsCtxID pw = "" ->
  Page_getJSCtxID b p pw = Ret (inr id) pw' ->
  exists pw'', Page_getHelper id name pw' = Ret ("", false) pw''.
Proof.
  intros Hel Hid Hg.
  destruct (getJSCtxID_window_clears_helpers pw id pw' Hel Hid Hg) as [_ Hh].
  unfold Page_getHelper. rewrite Hh. rewrite lookup_empty.
  rewrite lookup_empty. eauto.
Qed.

(** C1 (what the code does on the iframe path). When the context of an
    iframe page is resolved again after [unsetJSCtxID], the entry deleted
    from the helper cache is the one keyed by the cleared id, the empty
    string: the helpers cached under any earlier context id are all still
    there afterwards, however the resolution ends. *)
Theorem getJSCtxID_iframe_keeps_helpers (el : Element) (pw : PageWorld)
    (old : string) :
  element p = Some el ->
  jsCtxID pw = "" ->
  old <> "" ->
  helpers_under (final (Page_getJSCtxID b p pw)) old = helpers_under pw old.
Proof.
  intros Hel Hid Hold. unfold Page_getJSCtxID, get_jsCtxID.
  rewrite bind_final, Hid, Hel. simpl.
  unfold Element_Describe. rewrite bind_final.
  destruct (Page_Call_frame (ReqDOMDescribeNode (ObjectID (el_Object el)) 1 true) pw)
    as [w1 Hf1].
  destruct (Page_Call b p _ pw) as [[err|node] pw1|pw1|pw1]; simpl in Hf1;
    subst pw1; try done.
  destruct (res_ContentDocument node) as [backendNodeID|]; [|done].
  rewrite bind_final.
  match goal with |- context [Page_Call b p ?r ?s] =>
    destruct (Page_Call_frame r s) as [w2 Hf2];
    destruct (Page_Call b p r s) as [[err|obj] pw2|pw2|pw2] end;
    simpl in Hf2; subst pw2; try done.
  rewrite bind_final. simpl. rewrite Hid.
  unfold delete_helpers, Page_jsCtxIDByObjectID, bind, set_jsCtxID, modify, ret.
  match goal with |- context [Page_Call b p ?r ?s] =>
    destruct (Page_Call_frame r s) as [w3 Hf3];
    destruct (Page_Call b p r s) as [[err|res] pw3|pw3|pw3] end;
    simpl in Hf3; subst pw3; simpl;
    unfold helpers_under; simpl;
    destruct (helpers pw) as [hs|]; try done;
    by rewrite lookup_delete_ne.
Qed.

(** *** The retry loop of [Evaluate] *)

Variable js_Functions : Function.
Variable jitter : N -> N.

Lemma BackoffSleeper_ok : sleeper_ok (BackoffSleeper 30 3000).
Proof. split; [vm_compute; discriminate|reflexivity]. Qed.

Lemma next_sleeper_ok sl : sleeper_ok sl -> sleeper_ok (next_sleeper jitter sl).
Proof.
  intros [Hi Hm]. split; simpl; [|done]. rewrite Hm. apply N.le_min_l.
Qed.

(** A sleep waits for the sleeper's interval and advances the sleeper. *)
Lemma Sleeper_sleep_next sl pw :
  Sleeper_sleep jitter sl pw
  = Ret (next_sleeper jitter sl)
        (mkPageWorld (pw_world pw) (jsCtxID pw) (helpers pw)
           (pw_log pw ++ [Slept (sl_interval sl)])).
Proof. reflexivity. Qed.

(** An iteration that succeeds ends the loop. *)
Lemma Evaluate_loop_success fuel backoff opts pw pw1 obj :
  Page_evaluate b p js_Functions opts pw = Ret (inr obj) pw1 ->
  Evaluate_loop b p js_Functions jitter (S fuel) backoff opts pw
  = Ret (inr obj) pw1.
Proof. intros Hev. cbn [Evaluate_loop]. unfold bind at 1. by rewrite Hev. Qed.

(** So does one that fails with anything but context-not-found. *)
Lemma Evaluate_loop_other_error fuel backoff opts pw pw1 err :
  Page_evaluate b p js_Functions opts pw = Ret (inl err) pw1 ->
  is_ErrCtxNotFound err = false ->
  Evaluate_loop b p js_Functions jitter (S fuel) backoff opts pw
  = Ret (inl err) pw1.
Proof.
  intros Hev Herr. cbn [Evaluate_loop]. unfold bind at 1. by rewrite Hev, Herr.
Qed.

(** And context-not-found under an explicit [ThisObj]. *)
Lemma Evaluate_loop_object_not_found fuel backoff opts pw pw1 this :
  Page_evaluate b p js_Functions opts pw = Ret (inl ErrCtxNotFound) pw1 ->
  ThisObj opts = Some this ->
  Evaluate_loop b p js_Functions jitter (S fuel) backoff opts pw
  = Ret (inl (ErrObjectNotFound this)) pw1.
Proof.
  intros Hev Hthis. cbn [Evaluate_loop]. unfold bind at 1.
  by rewrite Hev, Hthis.
Qed.

(** Context-not-found with a nil [ThisObj]: one more iteration. *)
Lemma Evaluate_loop_retry fuel backoff opts pw pw1 :
  Page_evaluate b p js_Functions opts pw = Ret (inl ErrCtxNotFound) pw1 ->
  ThisObj opts = None ->
  Evaluate_loop b p js_Functions jitter (S fuel) backoff opts pw
  = Evaluate_loop b p js_Functions jitter fuel
      (Some (match backoff with
             | None => BackoffSleeper 30 3000
             | Some sl => next_sleeper jitter sl
             end))
      opts
      (invalidated (match backoff with
                    | None => []
                    | Some sl => [Slept (sl_interval sl)]
                    end) pw1).
Proof.
  intros Hev Hthis. cbn [Evaluate_loop]. unfold bind at 1. rewrite Hev.
  cbn [is_ErrCtxNotFound]. rewrite Hthis.
  destruct backoff as [sl|];
    unfold bind, Sleeper_sleep, Page_unsetJSCtxID, set_jsCtxID, log, modify, ret;
    unfold bind; simpl; unfold invalidated, next_sleeper; simpl;
    by rewrite <- ?app_assoc.
Qed.

(** C5 (as the code has it). One failing iteration of the loop of
    [Evaluate]: a failure other than context-not-found is returned as it
    is; context-not-found under an explicit [ThisObj] is returned as
    [ErrObjectNotFound], with no invalidation and no retry; context-not-found
    with a nil [ThisObj] clears the context id and runs the whole evaluation
    again, without any wait the first time (the sleeper is only created
    then) and after a wait of at most 3000 ms every later time. *)
Theorem Evaluate_on_failure (fuel : nat) (backoff : option Sleeper)
    (opts : EvalOptions) (pw pw1 : PageWorld) (err : error) :
  Page_evaluate b p js_Functions opts pw = Ret (inl err) pw1 ->
  (forall sl, backoff = Some sl -> sleeper_ok sl) ->
  (is_ErrCtxNotFound err = false ->
     Evaluate_loop b p js_Functions jitter (S fuel) backoff opts pw
     = Ret (inl err) pw1)
  /\ (is_ErrCtxNotFound err = true ->
      forall this, ThisObj opts = Some this ->
        Evaluate_loop b p js_Functions jitter (S fuel) backoff opts pw
        = Ret (inl (ErrObjectNotFound this)) pw1)
  /\ (is_ErrCtxNotFound err = true ->
      ThisObj opts = None ->
      exists waits sl',
        sleeper_ok sl'
        /\ Evaluate_loop b p js_Functions jitter (S fuel) backoff opts pw
           = Evaluate_loop b p js_Functions jitter fuel (Some sl') opts
               (invalidated waits pw1)
        /\ match backoff with
           | None => waits = []
           | Some sl => waits = [Slept (sl_interval sl)] /\ (sl_interval sl <= 3000)%N
           end).
Proof.
  intros Hev Hok. split; [|split].
  - by apply Evaluate_loop_other_error.
  - intros Herr this Hthis. destruct err; try done.
    by apply Evaluate_loop_object_not_found.
  - intros Herr Hthis. destruct err; try done.
    eexists _, _. split; [|split; [by apply Evaluate_loop_retry|]].
    + destruct backoff as [sl|];
        [by apply next_sleeper_ok, Hok|apply BackoffSleeper_ok].
    + destruct backoff as [sl|]; [|done]. split; [done|].
      by apply (Hok sl).
Qed.

Lemma count_Unset_app evs1 evs2 :
  count_Unset (evs1 ++ evs2) = count_Unset evs1 + count_Unset evs2.
Proof.
  induction evs1 as [|[|ms] evs1 IH]; simpl; [done|by rewrite IH|done].
Qed.

Lemma count_Unset_invalidated waits pw :
  count_Unset (pw_log (invalidated waits pw))
  = count_Unset (pw_log pw) + count_Unset waits + 1.
Proof. unfold invalidated. simpl. rewrite !count_Unset_app. simpl. lia. Qed.

(** C6 (as the code has it). The loop has no bound of its own: on a page
    where every inner evaluation fails with context-not-found and [ThisObj]
    is nil, any number of iterations ends with the loop still running,
    having invalidated the context once per iteration. *)
Theorem Evaluate_retries_without_bound (opts : EvalOptions) :
  ThisObj opts = None ->
  (forall pw, exists pw1,
      Page_evaluate b p js_Functions opts pw = Ret (inl ErrCtxNotFound) pw1
      /\ pw_log pw1 = pw_log pw) ->
  forall fuel backoff pw,
  exists pw',
    Evaluate_loop b p js_Functions jitter fuel backoff opts pw = Spin pw'
    /\ count_Unset (pw_log pw') = count_Unset (pw_log pw) + fuel.
Proof.
  intros Hthis Hstale fuel.
  induction fuel as [|fuel IH]; intros backoff pw.
  { exists pw. split; [reflexivity|lia]. }
  destruct (Hstale pw) as (pw1 & Hev & Hlog).
  rewrite (Evaluate_loop_retry _ _ _ _ _ Hev Hthis).
  match goal with |- context [Evaluate_loop _ _ _ _ fuel ?bo opts ?s] =>
    destruct (IH bo s) as (pw' & -> & Hc) end.
  exists pw'. split; [done|]. rewrite Hc, count_Unset_invalidated, Hlog.
  destruct backoff; simpl; lia.
Qed.

End Contexts.

(** *** The helper cache after an invalidation *)

(** The failing input of C1: the helper cached under the first context of
    an iframe is still cached once the context has been resolved again. *)
Lemma iframe_helpers_survive_invalidation :
  jsCtxID invalidated_iframe = ""
  /\ cached_helper invalidated_iframe "window-1" "element" = Some "helper@window-1"
  /\ Page_getJSCtxID frame_browser iframe_page invalidated_iframe
     = Ret (inr "window-2")
           (final (Page_getJSCtxID frame_browser iframe_page invalidated_iframe))
  /\ helpers_under
       (final (Page_getJSCtxID frame_browser iframe_page invalidated_iframe))
       "window-1"
     = helpers_under invalidated_iframe "window-1"
  /\ cached_helper
       (final (Page_getJSCtxID frame_browser iframe_page invalidated_iframe))
       "window-1" "element" = Some "helper@window-1".
Proof.
  split; [vm_compute; reflexivity|]. split; [vm_compute; reflexivity|].
  split; [vm_compute; reflexivity|].
  assert (H := getJSCtxID_iframe_keeps_helpers frame_browser iframe_page
                 iframe_element invalidated_iframe "window-1" eq_refl eq_refl).
  split; [apply H; discriminate|].
  unfold cached_helper. rewrite H by discriminate. vm_compute. reflexivity.
Defined.

(** The same steps on a top-level page leave nothing behind. *)
Example window_helpers_cleared :
  cached_helper invalidated_window "window-1" "element" = Some "helper@window-1"
  /\ helpers (final (Page_getJSCtxID frame_browser window_page invalidated_window))
     = None.
Proof. split; vm_compute; reflexivity. Qed.

(** *** Runs of [Evaluate] *)

(** The claim as stated fails: the first retry is not preceded by any
    wait. The evaluation fails once with context-not-found and succeeds on
    the retry; the page was invalidated once and never slept. *)
Lemma Evaluate_first_retry_without_wait :
  exists pw',
    Page_Evaluate stale_once_browser window_page functions_helper doubling 2 one
      stale_PageWorld
    = Ret (inr (mkRemoteObject "result" "")) pw'
    /\ pw_log pw' = [Unset].
Proof. eexists. split; vm_compute; reflexivity. Qed.

Lemma Evaluate_on_failure_witness :
  (exists waits sl',
      sleeper_ok sl'
      /\ Evaluate_loop stale_once_browser window_page functions_helper doubling
           2 None one stale_PageWorld
         = Evaluate_loop stale_once_browser window_page functions_helper doubling
             1 (Some sl') one
             (invalidated waits
                (final (Page_evaluate stale_once_browser window_page
                          functions_helper one stale_PageWorld)))
      /\ waits = [])
  /\ Evaluate_loop stale_once_browser window_page functions_helper doubling
       2 None (This one a_node) stale_PageWorld
     = Ret (inl (ErrObjectNotFound a_node))
           (final (Page_evaluate stale_once_browser window_page
                     functions_helper (This one a_node) stale_PageWorld)).
Proof.
  split.
  - apply (Evaluate_on_failure stale_once_browser window_page functions_helper
             doubling 1 None one stale_PageWorld _ ErrCtxNotFound).
    + vm_compute. reflexivity.
    + discriminate.
    + reflexivity.
    + reflexivity.
  - apply (Evaluate_on_failure stale_once_browser window_page functions_helper
             doubling 1 None (This one a_node) stale_PageWorld _ ErrCtxNotFound).
    + vm_compute. reflexivity.
    + discriminate.
    + reflexivity.
    + reflexivity.
Defined.

Lemma stale_browser_evaluate pw :
  exists pw1,
    Page_evaluate stale_browser window_page functions_helper one pw
    = Ret (inl ErrCtxNotFound) pw1
    /\ pw_log pw1 = pw_log pw.
Proof.
  unfold Page_evaluate, one, Eval_, Page_formatArgs, bind, ret. simpl.
  unfold Page_getJSCtxID, get_jsCtxID, bind.
  destruct (String.eqb (jsCtxID pw) ""); simpl; eauto.
Qed.

(** The claim as stated fails: against this remote the loop is still
    running after any number of iterations. *)
Lemma Evaluate_never_gives_up :
  ~ exists fuel res pw',
      Page_Evaluate stale_browser window_page functions_helper doubling fuel one
        fresh_PageWorld = Ret res pw'.
Proof.
  assert (Hspin : forall fuel backoff pw, exists pw',
    Evaluate_loop stale_browser window_page functions_helper doubling fuel
      backoff one pw = Spin pw').
  { induction fuel as [|fuel IH]; intros backoff pw; [by exists pw|].
    destruct (stale_browser_evaluate pw) as (pw1 & Hev & _).
    rewrite (Evaluate_loop_retry _ _ _ _ _ _ _ _ _ Hev eq_refl). apply IH. }
  intros (fuel & res & pw' & H). unfold Page_Evaluate in H.
  destruct (Hspin fuel None fresh_PageWorld) as [pw'' Hs]. congruence.
Qed.

Lemma Evaluate_retries_without_bound_witness :
  exists pw',
    Evaluate_loop stale_browser window_page functions_helper doubling 50 None
      one fresh_PageWorld = Spin pw'
    /\ count_Unset (pw_log pw') = count_Unset (pw_log fresh_PageWorld) + 50.
Proof.
  apply (Evaluate_retries_without_bound stale_browser window_page
           functions_helper doubling one eq_refl stale_browser_evaluate).
Defined.

(** ** Method names, split at the dots *)

Lemma append_empty_r (s : string) : s +:+ "" = s.
Proof.
  induction s as [|c s IH]; [done|].
  change (String c (s +:+ "") = String c s). by rewrite IH.
Qed.

Lemma SplitDot_no_dot (m : string) :
  dot_free m = true -> proto.ParseMethodName m = None.
Proof.
  intros H. unfold proto.ParseMethodName. by rewrite (SplitDot_dot_free m H).
Qed.

Lemma SplitDot_spell (s : string) :
  forall d rest, strings.SplitDot s = d :: rest ->
    dot_free d = true
    /\ match rest with
       | [] => s = d
       | _ :: _ => exists tail, s = d +:+ "." +:+ tail /\ strings.SplitDot tail = rest
       end.
Proof.
  induction s as [|c s' IH]; simpl; intros d rest.
  - intros [= <- <-]. done.
  - destruct (Ascii.eqb_spec c ".") as [->|Hc].
    + intros [= <- <-]. split; [done|].
      destruct (SplitDot_cons s') as (piece & rest' & Hs). rewrite Hs.
      exists s'. done.
    + destruct (SplitDot_cons s') as (piece & rest' & Hs). rewrite Hs.
      intros [= <- <-]. destruct (IH piece rest' Hs) as [Hd Hrest].
      split.
      { simpl. rewrite Hd. by destruct (Ascii.eqb_spec c "."). }
      destruct rest' as [|x rest''].
      * by subst s'.
      * destruct Hrest as (tail & -> & Ht). exists tail. done.
Qed.

(** X1. [ParseMethodName] splits at the dots: the domain is the text before
    the first dot and the name the text between the first dot and the second
    (or the end). It panics exactly on a method name without a dot. *)
Theorem ParseMethodName_spec (method : string) :
  (proto.ParseMethodName method = None <-> dot_free method = true)
  /\ forall domain name,
       proto.ParseMethodName method = Some (domain, name) ->
       dot_free domain = true /\ dot_free name = true
       /\ exists rest, method = domain +:+ "." +:+ name +:+ rest
                       /\ dotted_rest rest = true.
Proof.
  split.
  - split; [|apply SplitDot_no_dot].
    unfold proto.ParseMethodName.
    destruct (strings.SplitDot method) as [|d [|n rest]] eqn:Hs; try done.
    + destruct (SplitDot_cons method) as (? & ? & ?); congruence.
    + intros _. destruct (SplitDot_spell _ _ _ Hs) as [Hd ->]. done.
  - intros domain name. unfold proto.ParseMethodName.
    destruct (strings.SplitDot method) as [|d [|n rest]] eqn:Hs; try done.
    intros [= -> ->].
    destruct (SplitDot_spell _ _ _ Hs) as [Hd (tail & -> & Ht)].
    destruct (SplitDot_spell _ _ _ Ht) as [Hn Hrest].
    split; [done|]. split; [done|].
    destruct rest as [|x rest'].
    + subst tail. exists "". split; [|done].
      f_equal. f_equal. by rewrite append_empty_r.
    + destruct Hrest as (tail' & -> & _). exists ("." +:+ tail'). done.
Qed.

(** ** The state cache, read back *)

Lemma Browser_LoadState_missing b sessionID method w :
  states w !! Browser_key b sessionID (ProtoReq method) = None ->
  Browser_LoadState b sessionID method w = Ret (false, method) w.
Proof.
  intros H. unfold Browser_LoadState, bind, states_Load. by rewrite H.
Qed.

(** X2. What a successful call of a request records, [LoadState] gives
    back: it reports the method as recorded and loads the request the call
    was made with. *)
Theorem Call_LoadState_round_trip (b : Browser) (sessionID : string)
    (req method : Request) (r : Response) (w : World) :
  client b (calls w) (mkCall sessionID (ProtoReq req) (Some req)) = inr r ->
  is_Some (proto.ParseMethodName (ProtoReq req)) ->
  ProtoReq method = ProtoReq req ->
  exists w',
    proto_call b sessionID req w = Ret (inr r) w'
    /\ Browser_LoadState b sessionID method w' = Ret (true, req) w'.
Proof.
  intros Hc Hp Hm. eexists. split.
  { unfold proto_call. by apply Browser_Call_ok. }
  unfold Browser_LoadState, bind, states_Load. simpl.
  rewrite Hm, set_states_lookup. by rewrite String.eqb_refl.
Qed.

(** X3. Once [domain.disable] has succeeded, [LoadState] no longer finds
    [domain.enable]: it reports false and leaves the request as it is. *)
Theorem LoadState_after_disable (b : Browser) (sessionID domain : string)
    (method : Request) (r : Response) (w : World) :
  dot_free domain = true ->
  ProtoReq method = domain +:+ ".enable" ->
  client b (calls w) (mkCall sessionID (domain +:+ ".disable") None) = inr r ->
  exists w',
    Browser_Call b sessionID (domain +:+ ".disable") None w = Ret (inr r) w'
    /\ Browser_LoadState b sessionID method w' = Ret (false, method) w'.
Proof.
  intros Hd Hm Hc. eexists. split.
  { apply Browser_Call_ok; [done|]. rewrite ParseMethodName_disable; eauto. }
  apply Browser_LoadState_missing. simpl. rewrite Hm.
  apply set_states_counterpart. by apply counterpart_disable.
Qed.

(** ** More on enabling and disabling *)

Lemma Browser_Call_calls b sessionID methodName params w :
  calls (final (Browser_Call b sessionID methodName params w))
  = calls w ++ [mkCall sessionID methodName params].
Proof.
  destruct (client b (calls w) (mkCall sessionID methodName params))
    as [err|r] eqn:Hc.
  - by rewrite (Browser_Call_err _ _ _ _ _ _ Hc).
  - by rewrite (Browser_Call_ok_final _ _ _ _ _ _ Hc).
Qed.

(** X4. [EnableDomain] drops the error of the enable call. When the call
    fails the domain is not recorded as enabled and nothing else of the
    state map changes, yet the restore function still sends
    [domain.disable]. *)
Theorem EnableDomain_failed_call (b : Browser) (sessionID : string)
    (req : Request) (domain name : string) (err : error) (w : World) :
  proto.ParseMethodName (ProtoReq req) = Some (domain, name) ->
  states w !! Browser_key b sessionID (ProtoReq req) = None ->
  client b (calls w) (mkCall sessionID (ProtoReq req) (Some req)) = inl err ->
  exists restore w1,
    Browser_EnableDomain b sessionID req w = Ret restore w1
    /\ states w1 = states w
    /\ calls w1 = calls w ++ [mkCall sessionID (ProtoReq req) (Some req)]
    /\ calls (final (restore w1))
       = calls w1 ++ [mkCall sessionID (domain +:+ ".disable") None].
Proof.
  intros Hp Hst Hc. eexists _, _. split.
  { unfold Browser_EnableDomain, bind at 1, states_Load. rewrite Hst. simpl.
    unfold bind at 1, bind at 1. rewrite (Browser_Call_err _ _ _ _ _ _ Hc).
    unfold ret at 1 2. reflexivity. }
  split; [done|]. split; [done|].
  unfold bind at 1, ParseMethodName. rewrite Hp. unfold ret at 1. simpl.
  rewrite bind_final.
  pose proof (Browser_Call_calls b sessionID (domain +:+ ".disable") None
    (mkWorld (states w) (calls w ++ [mkCall sessionID (ProtoReq req) (Some req)])
       (next_addr w))) as Hcalls.
  destruct (Browser_Call _ _ _ _ _); simpl in *; done.
Qed.

(** ** The page cache, emptied *)

Lemma Browser_EnableDomain_calls b sessionID req w :
  exists more,
    calls (final (Browser_EnableDomain b sessionID req w)) = calls w ++ more.
Proof.
  unfold Browser_EnableDomain. rewrite bind_final. unfold states_Load.
  cbn [final]. destruct (bool_decide _); cbn [negb].
  - exists []. by rewrite app_nil_r.
  - rewrite bind_final. unfold bind at 1.
    pose proof (Browser_Call_calls b sessionID (ProtoReq req) (Some req) w) as Hc.
    destruct (Browser_Call _ _ _ _ _) as [x w'|w'|w']; simpl in *; eauto.
Qed.

Section PageCacheMore.

Variable Page_Emulate : Browser -> Page -> Device -> M World (option error).

(** X5. [cleanupStates] takes the page out of the cache, so the next
    [PageFromTarget] for its target attaches again: its first call is a new
    [Target.attachToTarget]. *)
Theorem cleanupStates_forgets_page (b : Browser) (page : Page) (w : World) :
  (forall b' p d w', exists more,
      calls (final (Page_Emulate b' p d w')) = calls w' ++ more) ->
  let w1 := final (Page_cleanupStates page w) in
  states w1 !! inr (TargetID page) = None
  /\ calls w1 = calls w
  /\ exists more,
       calls (final (Browser_PageFromTarget Page_Emulate b (TargetID page) w1))
       = calls w ++ attach_call (TargetID page) :: more.
Proof.
  intros Hem. cbv zeta.
  change (final (Page_cleanupStates page w))
    with (mkWorld (delete (inr (TargetID page)) (states w)) (calls w) (next_addr w)).
  set (w1 := mkWorld _ _ _).
  assert (Hgone : states w1 !! inr (TargetID page) = None)
    by apply lookup_delete_eq.
  split; [done|]. split; [done|].
  assert (Hload : Browser_loadCachedPage (TargetID page) w1 = Ret None w1).
  { unfold Browser_loadCachedPage, states_Load, bind. by rewrite Hgone. }
  unfold Browser_PageFromTarget. rewrite bind_final, Hload.
  change (calls w) with (calls w1). clearbody w1.
  unfold proto_call. rewrite bind_final.
  match goal with |- context [Browser_Call ?b ?s ?m ?p ?w0] =>
    pose proof (Browser_Call_calls b s m p w0) as Hcalls;
    destruct (Browser_Call b s m p w0) as [[err|session] w2|w2|w2] end;
    simpl in Hcalls; simpl; try (exists []; exact Hcalls).
  unfold new_Page. rewrite bind_final. simpl. rewrite bind_final.
  set (page' := mkPage _ _ _ _ _). set (w3 := mkWorld _ _ _).
  assert (Hw3 : calls w3 = calls w1 ++ [attach_call (TargetID page)])
    by exact Hcalls.
  assert (Htail : forall w4 (more : list CallRecord),
    calls w4 = calls w1 ++ attach_call (TargetID page) :: more ->
    exists more',
      calls (final ((Browser_cachePage page' ;;;
                     Page_EnableDomain b page' ReqPageEnable ;;;
                     ret (@inr error Page page')) w4))
      = calls w1 ++ attach_call (TargetID page) :: more').
  { intros w4 more H4. unfold Browser_cachePage, states_Store, modify.
    rewrite bind_final. cbn [final]. rewrite bind_final.
    unfold Page_EnableDomain.
    match goal with |- context [Browser_EnableDomain ?b ?s ?r ?w0] =>
      destruct (Browser_EnableDomain_calls b s r w0) as [more' Hm];
      destruct (Browser_EnableDomain b s r w0) as [x w5|w5|w5] end;
      simpl in Hm; simpl; rewrite Hm, H4;
      eexists; by rewrite <- app_assoc. }
  destruct (negb (IsClear (defaultDevice b))).
  - destruct (Hem b page' (defaultDevice b) w3) as [more Hmore].
    destruct (Page_Emulate b page' (defaultDevice b) w3) as [[err|] w4|w4|w4];
      cbn [final] in Hmore; cbn [final bind ret].
    + exists more. by rewrite Hmore, Hw3, <- app_assoc.
    + apply (Htail w4 more). by rewrite Hmore, Hw3, <- app_assoc.
    + exists more. by rewrite Hmore, Hw3, <- app_assoc.
    + exists more. by rewrite Hmore, Hw3, <- app_assoc.
  - simpl. apply (Htail w3 []). done.
Qed.

End PageCacheMore.

(** ** Walks of the hijack router, in full *)

(** A call of the router: it returns the client's answer and adds the call
    to the log. *)
Lemma router_Call_returns r req hw :
  is_Some (proto.ParseMethodName (ProtoReq req)) ->
  exists w',
    router_Call r req hw
    = Ret (client (browser r) (calls (hw_world hw))
             (mkCall (client_session r) (ProtoReq req) (Some req)))
          (mkHijackWorld w' (hw_events hw))
    /\ calls w' = calls (hw_world hw)
                  ++ [mkCall (client_session r) (ProtoReq req) (Some req)]
    /\ next_addr w' = next_addr (hw_world hw).
Proof.
  intros Hp. unfold router_Call, lift, proto_call.
  destruct (client (browser r) (calls (hw_world hw))
              (mkCall (client_session r) (ProtoReq req) (Some req)))
    as [err|res] eqn:Hc.
  - rewrite (Browser_Call_err _ _ _ _ _ _ Hc). eexists. split; [done|]. done.
  - rewrite (Browser_Call_ok _ _ _ _ _ _ Hc Hp). eexists. split; [done|]. done.
Qed.

(** X6. The shape of every walk. The router never panics; it invokes
    handlers whose expression matches the URL and no others, in the order
    of registration, up to the one that ends the walk; it sends at most one
    call per invoked handler, each of them a continue, fail or fulfill on its
    own session; and it invokes [OnError] at most once, as the last thing it
    does. *)
Theorem walk_shape (r : HijackRouter) (e : FetchRequestPaused)
    (hs : list hijackHandler) (ctx : Hijack) (hw : HijackWorld) :
  exists hw' run errs cs,
    HijackRouter_walk r e hs ctx hw = Ret tt hw'
    /\ hw_events hw' = hw_events hw ++ map Handled_by run ++ errs
    /\ run `prefix_of` matching (Request_URL e) hs
    /\ length errs <= 1 /\ Forall is_OnError errs
    /\ calls (hw_world hw') = calls (hw_world hw) ++ cs
    /\ length cs <= length run
    /\ Forall (answers_request (client_session r)) cs.
Proof.
  revert ctx hw. induction hs as [|h hs IH]; intros ctx hw.
  { exists hw, [], [], []. simpl. rewrite !app_nil_r.
    split; [done|]. split; [done|]. split; [done|]. split; [lia|].
    split; [constructor|]. split; [done|]. split; [lia|]. constructor. }
  cbn [HijackRouter_walk]. unfold matching. rewrite filter_cons.
  fold (matching (Request_URL e) hs).
  destruct (regexp.Matches (h_regexp h) (Request_URL e)) eqn:Hm;
    cbn [negb].
  2: { rewrite decide_False by done. apply IH. }
  rewrite decide_True by done.
  unfold bind at 1, emit, modify.
  set (hw1 := mkHijackWorld (hw_world hw) (hw_events hw ++ [Handled (h_pattern h)])).
  set (ctx1 := h_handler h ctx).
  (* the three ways a call ends the walk, or not *)
  assert (Hcall : forall req (k : error + Response -> M HijackWorld unit),
    is_Some (proto.ParseMethodName (ProtoReq req)) ->
    answers_request (client_session r)
      (mkCall (client_session r) (ProtoReq req) (Some req)) ->
    (forall res hw2,
        (exists errs, k res hw2
                      = Ret tt (mkHijackWorld (hw_world hw2) (hw_events hw2 ++ errs))
                      /\ length errs <= 1 /\ Forall is_OnError errs)
        \/ (exists x, res = inr x /\ k res hw2 = HijackRouter_walk r e hs ctx1 hw2)) ->
    exists hw' run errs cs,
      (res <- router_Call r req ;; k res) hw1 = Ret tt hw'
      /\ hw_events hw' = hw_events hw ++ map Handled_by run ++ errs
      /\ run `prefix_of` h :: matching (Request_URL e) hs
      /\ length errs <= 1 /\ Forall is_OnError errs
      /\ calls (hw_world hw') = calls (hw_world hw) ++ cs
      /\ length cs <= length run
      /\ Forall (answers_request (client_session r)) cs).
  { intros req k Hp Hans Hk.
    destruct (router_Call_returns r req hw1 Hp) as (w' & Hr & Hcalls & _).
    unfold bind. rewrite Hr.
    destruct (Hk (client (browser r) (calls (hw_world hw1))
                    (mkCall (client_session r) (ProtoReq req) (Some req)))
                 (mkHijackWorld w' (hw_events hw1)))
      as [(errs & -> & Hlen & Herrs)|(x & _ & ->)].
    - eexists _, [h], errs, [_]. split; [done|]. simpl.
      rewrite <- app_assoc. split; [done|].
      split; [by apply prefix_cons, prefix_nil|].
      split; [done|]. split; [done|]. split; [exact Hcalls|].
      split; [done|]. by constructor.
    - destruct (IH ctx1 (mkHijackWorld w' (hw_events hw1)))
        as (hw' & run & errs & cs & -> & Hev & Hrun & Hlen & Herrs & Hcs & Hn & Hall).
      exists hw', (h :: run), errs,
        (mkCall (client_session r) (ProtoReq req) (Some req) :: cs).
      split; [done|].
      split. { rewrite Hev. simpl. by rewrite <- app_assoc. }
      split; [by apply prefix_cons|]. split; [done|]. split; [done|].
      split. { rewrite Hcs. simpl. rewrite Hcalls. by rewrite <- app_assoc. }
      split; [simpl; lia|]. by constructor. }
  assert (Hreport : forall res hw2,
    exists errs, report res hw2
                   = Ret tt (mkHijackWorld (hw_world hw2) (hw_events hw2 ++ errs))
                   /\ length errs <= 1 /\ Forall is_OnError errs).
  { intros [err|x] hw2; simpl.
    - exists [OnError err]. split; [done|]. split; [simpl; lia|].
      by repeat constructor.
    - exists []. rewrite app_nil_r. destruct hw2. split; [done|].
      split; [simpl; lia|]. constructor. }
  destruct (continueRequest ctx1) as [cq|].
  { apply Hcall; [by eexists|done|]. intros res hw2. left. apply Hreport. }
  destruct (Skip ctx1).
  { destruct (IH ctx1 hw1)
      as (hw' & run & errs & cs & -> & Hev & Hrun & Hlen & Herrs & Hcs & Hn & Hall).
    exists hw', (h :: run), errs, cs. split; [done|].
    split. { rewrite Hev. simpl. by rewrite <- app_assoc. }
    split; [by apply prefix_cons|]. split; [done|]. split; [done|].
    split; [done|]. split; [simpl; lia|]. done. }
  destruct (negb (String.eqb (ErrorReason (fail (Hijack_Response ctx1))) "")).
  { apply Hcall; [by eexists|done|]. intros res hw2. left. apply Hreport. }
  apply Hcall; [by eexists|done|]. intros [err|x] hw2.
  - left. exists [OnError err]. split; [done|]. split; [simpl; lia|].
    by repeat constructor.
  - right. by exists x.
Qed.

(** The walk over handlers that do not match is the walk over the rest. *)
Lemma walk_skip_unmatched r e pre post ctx hw :
  matching (Request_URL e) pre = [] ->
  HijackRouter_walk r e (pre ++ post) ctx hw = HijackRouter_walk r e post ctx hw.
Proof.
  induction pre as [|h pre IH]; [done|]. unfold matching.
  rewrite filter_cons. fold (matching (Request_URL e) pre).
  destruct (decide _) as [Hm|Hm]; [done|]. intros Hpre. simpl.
  apply not_true_is_false in Hm. rewrite Hm. simpl. by apply IH.
Qed.

(** X7. A continue directive wins. When the first handler that matches
    the URL leaves a continue directive, the router sends it, with the
    request id of the paused request whatever id the directive carried, and
    ends the walk: [Skip] and a failure reason are not looked at, and no
    later handler is invoked. An error of the call goes to [OnError]. *)
Theorem walk_continue_wins (r : HijackRouter) (e : FetchRequestPaused)
    (pre post : list hijackHandler) (h : hijackHandler)
    (cq : FetchContinueRequest) (hw : HijackWorld) :
  matching (Request_URL e) pre = [] ->
  regexp.Matches (h_regexp h) (Request_URL e) = true ->
  continueRequest (h_handler h (HijackRouter_new e)) = Some cq ->
  let c := mkCall (client_session r) "Fetch.continueRequest"
             (Some (ReqFetchContinueRequest (with_RequestID cq (RequestID e)))) in
  exists hw',
    HijackRouter_walk r e (pre ++ h :: post) (HijackRouter_new e) hw = Ret tt hw'
    /\ calls (hw_world hw') = calls (hw_world hw) ++ [c]
    /\ hw_events hw'
       = hw_events hw ++ Handled (h_pattern h)
           :: match client (browser r) (calls (hw_world hw)) c with
              | inl err => [OnError err]
              | inr _ => []
              end.
Proof.
  intros Hpre Hm Hcq c. rewrite (walk_skip_unmatched _ _ _ _ _ _ Hpre).
  cbn [HijackRouter_walk]. rewrite Hm. cbn [negb].
  unfold bind at 1, emit, modify. rewrite Hcq.
  set (hw1 := mkHijackWorld _ _).
  destruct (router_Call_returns r
              (ReqFetchContinueRequest (with_RequestID cq (RequestID e))) hw1)
    as (w' & Hr & Hcalls & _); [by eexists|].
  change (client _ _ _) with (client (browser r) (calls (hw_world hw)) c) in Hr.
  unfold bind. rewrite Hr.
  destruct (client (browser r) (calls (hw_world hw)) c) as [err|x]; simpl.
  - eexists. split; [done|]. split; [done|]. simpl. by rewrite <- app_assoc.
  - eexists. split; [done|]. split; [done|]. done.
Qed.

(** X8. A failure ends the walk. When the first matching handler leaves no
    continue directive, does not skip and has set a failure reason, the
    router sends [Fetch.failRequest] with that reason and invokes no later
    handler. *)
Theorem walk_fail_ends (r : HijackRouter) (e : FetchRequestPaused)
    (pre post : list hijackHandler) (h : hijackHandler) (hw : HijackWorld) :
  matching (Request_URL e) pre = [] ->
  regexp.Matches (h_regexp h) (Request_URL e) = true ->
  let ctx := h_handler h (HijackRouter_new e) in
  continueRequest ctx = None ->
  Skip ctx = false ->
  ErrorReason (fail (Hijack_Response ctx)) <> "" ->
  let c := mkCall (client_session r) "Fetch.failRequest"
             (Some (ReqFetchFailRequest (fail (Hijack_Response ctx)))) in
  exists hw',
    HijackRouter_walk r e (pre ++ h :: post) (HijackRouter_new e) hw = Ret tt hw'
    /\ calls (hw_world hw') = calls (hw_world hw) ++ [c]
    /\ hw_events hw'
       = hw_events hw ++ Handled (h_pattern h)
           :: match client (browser r) (calls (hw_world hw)) c with
              | inl err => [OnError err]
              | inr _ => []
              end.
Proof.
  intros Hpre Hm ctx Hcq Hskip Hfail c.
  rewrite (walk_skip_unmatched _ _ _ _ _ _ Hpre).
  cbn [HijackRouter_walk]. rewrite Hm. cbn [negb].
  unfold bind at 1, emit, modify. fold ctx. rewrite Hcq, Hskip.
  apply String.eqb_neq in Hfail. rewrite Hfail. cbn [negb].
  set (hw1 := mkHijackWorld _ _).
  destruct (router_Call_returns r
              (ReqFetchFailRequest (fail (Hijack_Response ctx))) hw1)
    as (w' & Hr & Hcalls & _); [by eexists|].
  change (client _ _ _) with (client (browser r) (calls (hw_world hw)) c) in Hr.
  unfold bind. rewrite Hr.
  destruct (client (browser r) (calls (hw_world hw)) c) as [err|x]; simpl.
  - eexists. split; [done|]. split; [done|]. simpl. by rewrite <- app_assoc.
  - eexists. split; [done|]. split; [done|]. done.
Qed.

(** X9. A fulfilled request is not the end of the walk. When the handlers
    leave the default action to the router (none of them sets a continue
    directive, skips or sets a failure reason) and the calls succeed, every
    handler that matches the URL is invoked and the router sends one
    [Fetch.fulfillRequest] after each: a request matched by n such handlers
    is fulfilled n times. *)
Theorem walk_fulfils_once_per_handler (r : HijackRouter)
    (e : FetchRequestPaused) (hs : list hijackHandler) (ctx : Hijack)
    (hw : HijackWorld) :
  (forall h ctx', In h hs -> fulfils ctx' -> fulfils (h_handler h ctx')) ->
  fulfils ctx ->
  (forall history c, exists res, client (browser r) history c = inr res) ->
  exists hw' cs,
    HijackRouter_walk r e hs ctx hw = Ret tt hw'
    /\ hw_events hw'
       = hw_events hw ++ map Handled_by (matching (Request_URL e) hs)
    /\ calls (hw_world hw') = calls (hw_world hw) ++ cs
    /\ length cs = length (matching (Request_URL e) hs)
    /\ forallb is_fulfill cs = true.
Proof.
  intros Hful Hctx Hok. revert ctx hw Hctx.
  induction hs as [|h hs IH]; intros ctx hw Hctx.
  { exists hw, []. simpl. rewrite !app_nil_r. done. }
  cbn [HijackRouter_walk]. unfold matching. rewrite filter_cons.
  fold (matching (Request_URL e) hs).
  assert (IH' := IH (fun h' ctx' Hin => Hful h' ctx' (or_intror Hin))).
  destruct (regexp.Matches (h_regexp h) (Request_URL e)) eqn:Hm;
    cbn [negb].
  2: { rewrite decide_False by done. by apply IH'. }
  rewrite decide_True by done.
  unfold bind at 1, emit, modify.
  assert (Hctx1 := Hful h ctx (or_introl eq_refl) Hctx).
  pose proof Hctx1 as (Hc & Hs & He). rewrite Hc, Hs, He.
  cbn [negb String.eqb].
  set (hw1 := mkHijackWorld _ _).
  set (req := ReqFetchFulfillRequest _).
  destruct (router_Call_returns r req hw1) as (w' & Hr & Hcalls & _);
    [by eexists|].
  unfold bind. rewrite Hr.
  destruct (Hok (calls (hw_world hw1))
              (mkCall (client_session r) (ProtoReq req) (Some req))) as [res ->].
  destruct (IH' (h_handler h ctx) (mkHijackWorld w' (hw_events hw1)) Hctx1)
    as (hw' & cs & -> & Hev & Hcs & Hlen & Hall).
  exists hw', (mkCall (client_session r) (ProtoReq req) (Some req) :: cs).
  split; [done|]. split. { rewrite Hev. simpl. by rewrite <- app_assoc. }
  split. { rewrite Hcs. simpl. rewrite Hcalls. by rewrite <- app_assoc. }
  split; [simpl; by rewrite Hlen|]. done.
Qed.

(** ** Handlers and enabled patterns *)



Lemma filter_keeps_all (pattern : list rune) (hs : list hijackHandler) :
  pattern ∉ map h_pattern hs ->
  filter (fun h => h_pattern h <> pattern) hs = hs.
Proof.
  induction hs as [|h hs IH]; [done|]. simpl.
  rewrite not_elem_of_cons. intros [Hh Hhs].
  rewrite filter_cons, decide_True by done. by rewrite IH.
Qed.

(** X11. [Add] and then [Remove] of a pattern that compiles and that no
    handler had gives back the handlers the router had. Both send
    [Fetch.enable]; the second one lists the patterns of the handlers
    without their resource types. *)
Theorem Add_then_Remove (rest : regexp.Rest) (r : HijackRouter)
    (pattern : list rune) (resourceType : string) (handler : Hijack -> Hijack)
    (w : World) :
  is_Some (regexp.Compile_all rest (proto.PatternToReg pattern)) ->
  pattern ∉ handler_patterns r ->
  exists err1 s1 err2 s2,
    HijackRouter_Add rest pattern resourceType handler (mkRouterWorld w r)
    = Ret err1 s1
    /\ HijackRouter_Remove pattern s1 = Ret err2 s2
    /\ handler_patterns (rw_router s1) = handler_patterns r ++ [pattern]
    /\ handlers (rw_router s2) = handlers r
    /\ Patterns (enable (rw_router s2))
       = map (fun h => mkFetchRequestPattern (h_pattern h) "") (handlers r)
    /\ calls (rw_world s2)
       = calls w ++ [enable_call (rw_router s1); enable_call (rw_router s2)].
Proof.
  intros [re Hre] Hnew.
  assert (Hkept : filter (fun h => h_pattern h <> pattern)
                    (handlers r ++ [mkhijackHandler pattern re handler])
                  = handlers r).
  { rewrite filter_app, filter_cons, decide_False by (simpl; tauto).
    rewrite filter_nil, app_nil_r. by apply filter_keeps_all. }
  rewrite HijackRouter_Add_spec, Hre. cbn [rw_world rw_router].
  set (r1 := handling (mkhijackHandler pattern re handler)
               (enabling pattern resourceType r)).
  destruct (enable_Call_returns (mkRouterWorld w r1)) as (w1 & Hadd & Hcalls1).
  cbn [rw_world rw_router] in Hadd, Hcalls1.
  set (r2 := removing pattern r1).
  destruct (enable_Call_returns (mkRouterWorld w1 r2)) as (w2 & Hremove & Hcalls2).
  cbn [rw_world rw_router] in Hremove, Hcalls2.
  eexists _, (mkRouterWorld w1 r1), _, (mkRouterWorld w2 r2).
  split; [exact Hadd|]. split; [exact Hremove|]. cbn [rw_world rw_router].
  split. { unfold handler_patterns. simpl. by rewrite map_app. }
  split. { simpl. exact Hkept. }
  split. { simpl. by rewrite Hkept. }
  rewrite Hcalls2, Hcalls1, <- app_assoc. done.
Qed.

(** ** Headers of a hijacked response *)

Lemma with_headers_nil ctx : with_headers [] ctx = ctx.
Proof.
  destruct ctx as [[] ?]. unfold with_headers. simpl. by rewrite app_nil_r.
Qed.

Lemma with_headers_app more1 more2 ctx :
  with_headers more2 (with_headers more1 ctx) = with_headers (more1 ++ more2) ctx.
Proof. unfold with_headers. simpl. by rewrite <- app_assoc. Qed.

(** X12. [SetHeader] adds and never replaces: the pairs are appended, in
    order, to the headers the payload has, and nothing else of the response
    changes. With an odd number of strings it panics, after having appended
    the complete pairs. *)
Theorem SetHeader_appends (pairs : list string) (ctx : HijackResponse) :
  HijackResponse_SetHeader pairs ctx
  = if Nat.even (length pairs)
    then Ret tt (with_headers (pairs_of pairs) ctx)
    else Panic (with_headers (pairs_of pairs) ctx).
Proof.
  assert (Hgen : forall n pairs ctx, length pairs <= n ->
    HijackResponse_SetHeader pairs ctx
    = if Nat.even (length pairs)
      then Ret tt (with_headers (pairs_of pairs) ctx)
      else Panic (with_headers (pairs_of pairs) ctx)).
  { clear. induction n as [|n IH]; intros pairs ctx Hlen.
    - destruct pairs; [|simpl in Hlen; lia]. simpl. by rewrite with_headers_nil.
    - destruct pairs as [|name [|value pairs]].
      + simpl. by rewrite with_headers_nil.
      + simpl. by rewrite with_headers_nil.
      + cbn [HijackResponse_SetHeader]. unfold bind, modify.
        rewrite IH by (simpl in Hlen; lia).
        change (mkHijackResponse _ (fail ctx)) with (with_headers [(name, value)] ctx).
        rewrite with_headers_app. done. }
  by apply (Hgen (length pairs)).
Qed.

(** ** Helpers are sent once *)

Lemma Function_induction (P : Function -> Prop) :
  (forall name definition dependencies,
      Forall P dependencies -> P (mkFunction name definition dependencies)) ->
  forall fn, P fn.
Proof.
  intros H. fix IH 1. intros [name definition deps]. apply H.
  induction deps as [|d deps IHd]; constructor; [apply IH|exact IHd].
Qed.

Lemma bind_Ret {S A B : Type} (m : M S A) (k : A -> M S B) (s s' : S) (a : A) :
  m s = Ret a s' -> bind m k s = k a s'.
Proof. intros H. unfold bind. by rewrite H. Qed.

Lemma grows_refl ctxID pw : grows ctxID pw pw.
Proof. by split. Qed.

Lemma grows_trans ctxID pw1 pw2 pw3 :
  grows ctxID pw1 pw2 -> grows ctxID pw2 pw3 -> grows ctxID pw1 pw3.
Proof.
  intros [H1 H1'] [H2 H2']. split; [congruence|]. eauto.
Qed.

Section Helpers.

Variable b : Browser.
Variable p : Page.
Variable js_Functions : Function.

(** A successful call of the page: the answer is the client's, and only
    the browser's world has changed. *)
Lemma Page_Call_inv req pw res pw' :
  Page_Call b p req pw = Ret (inr res) pw' ->
  (exists history,
      client b history (mkCall (SessionID p) (ProtoReq req) (Some req)) = inr res)
  /\ jsCtxID pw' = jsCtxID pw /\ helpers pw' = helpers pw.
Proof.
  unfold Page_Call, lift, proto_call, Browser_Call, bind, client_Call.
  destruct (client b (calls (pw_world pw)) _) as [err|x] eqn:Hc.
  - by intros [= ? ?].
  - destruct (Browser_set _ _ _ _ _); try done. intros [= <- <-]. eauto.
Qed.

Lemma Page_Call_grows ctxID req pw :
  grows ctxID pw (final (Page_Call b p req pw)).
Proof.
  destruct (Page_Call_frame b p req pw) as [w' ->]. by split.
Qed.

Lemma getHelper_spec ctxID name pw :
  exists pw',
    Page_getHelper ctxID name pw
    = Ret (match cached_helper pw ctxID name with
           | Some id => (id, true)
           | None => ("", false)
           end) pw'
    /\ jsCtxID pw' = jsCtxID pw
    /\ is_Some (helpers_under pw' ctxID)
    /\ (forall n, cached_helper pw' ctxID n = cached_helper pw ctxID n)
    /\ (is_Some (helpers_under pw ctxID) -> pw' = pw).
Proof.
  unfold Page_getHelper, cached_helper, helpers_under.
  destruct pw as [w cur [hs|] lg]; simpl.
  - destruct (hs !! ctxID) as [list|] eqn:Hl.
    + eexists. split; [done|]. simpl. rewrite Hl. eauto.
    + eexists. split; [by rewrite lookup_empty|]. simpl.
      rewrite lookup_insert_eq. split; [done|]. split; [by eexists|].
      split; [intros n; by rewrite lookup_empty|]. by intros [? ?].
  - rewrite lookup_empty. eexists. split; [by rewrite lookup_empty|]. simpl.
    rewrite lookup_insert_eq. split; [done|]. split; [by eexists|].
    split; [intros n; by rewrite lookup_empty|]. by intros [? ?].
Qed.

Lemma setHelper_spec ctxID name fnID pw :
  is_Some (helpers_under pw ctxID) ->
  exists pw',
    Page_setHelper ctxID name fnID pw = Ret tt pw'
    /\ jsCtxID pw' = jsCtxID pw
    /\ cached_helper pw' ctxID name = Some fnID
    /\ (forall n, n <> name -> cached_helper pw' ctxID n = cached_helper pw ctxID n).
Proof.
  unfold Page_setHelper, cached_helper, helpers_under.
  destruct pw as [w cur [hs|] lg]; simpl; [|by intros [? ?]].
  destruct (hs !! ctxID) as [list|] eqn:Hl; [|by intros [? ?]]. intros _.
  eexists. split; [done|]. simpl. rewrite lookup_insert_eq.
  split; [done|]. split; [by rewrite lookup_insert_eq|].
  intros n Hn. by rewrite lookup_insert_ne.
Qed.

Lemma setHelper_final ctxID name fnID pw :
  jsCtxID (final (Page_setHelper ctxID name fnID pw)) = jsCtxID pw
  /\ forall n, n <> name ->
       cached_helper (final (Page_setHelper ctxID name fnID pw)) ctxID n
       = cached_helper pw ctxID n.
Proof.
  unfold Page_setHelper, cached_helper, helpers_under.
  destruct pw as [w cur [hs|] lg]; simpl; [|done].
  destruct (hs !! ctxID) as [list|] eqn:Hl; simpl; [|by rewrite Hl].
  split; [done|]. intros n Hn. by rewrite lookup_insert_eq, lookup_insert_ne.
Qed.

(** An id that is resolved is returned as it is. *)
Lemma getJSCtxID_resolved pw :
  jsCtxID pw <> "" -> Page_getJSCtxID b p pw = Ret (inr (jsCtxID pw)) pw.
Proof.
  intros H. unfold Page_getJSCtxID, get_jsCtxID, bind.
  apply String.eqb_neq in H. by rewrite H.
Qed.

Hypothesis Hids : ids_not_empty b.

Lemma getJSCtxID_returns pw id pw' :
  Page_getJSCtxID b p pw = Ret (inr id) pw' -> id <> "" /\ jsCtxID pw' = id.
Proof.
  unfold Page_getJSCtxID, get_jsCtxID. unfold bind at 1.
  destruct (String.eqb_spec (jsCtxID pw) "") as [Hcur|Hcur]; cbn [negb].
  2: { by intros [= <- <-]. }
  destruct (element p) as [el|].
  - unfold Element_Describe. unfold bind at 1.
    destruct (Page_Call b p _ pw) as [[err|node] pw1|pw1|pw1] eqn:H1; try done.
    destruct (res_ContentDocument node) as [backendNodeID|]; [|done].
    unfold bind at 1.
    destruct (Page_Call b p _ pw1) as [[err|obj] pw2|pw2|pw2] eqn:H2; try done.
    unfold bind at 1, bind at 1. cbn beta iota.
    unfold bind at 1, delete_helpers, modify.
    unfold Page_jsCtxIDByObjectID. unfold bind at 1, bind at 1.
    match goal with |- context [Page_Call b p ?r ?s] =>
      destruct (Page_Call b p r s) as [[err|res] pw3|pw3|pw3] eqn:H3 end;
      try done.
    unfold ret at 1. unfold bind, set_jsCtxID, modify, ret.
    intros [= <- <-]. split; [|done].
    apply Page_Call_inv in H3 as ((history & Hc) & _).
    by eapply Hids; [|exact Hc].
  - unfold bind at 1.
    destruct (Page_Call b p _ pw) as [[err|obj] pw1|pw1|pw1] eqn:H1; try done.
    unfold bind, set_jsCtxID, set_helpers, modify, ret. simpl.
    intros [= <- <-]. split; [|done].
    apply Page_Call_inv in H1 as ((history & Hc) & _).
    by eapply Hids; [|exact Hc].
Qed.

Lemma ensure_each_grows deps :
  Forall (ensures b p js_Functions) deps ->
  forall pw, jsCtxID pw <> "" ->
    grows (jsCtxID pw) pw (final (ensure_each b p js_Functions deps pw)).
Proof.
  induction 1 as [|dep deps Hdep _ IH]; intros pw Hctx; [apply grows_refl|].
  cbn [ensure_each]. rewrite bind_final.
  destruct (Hdep pw Hctx) as [Hg _].
  destruct (Page_ensureJSHelper b p js_Functions dep pw) as [[err|id] pw1|pw1|pw1];
    cbn [final] in *; try done.
  eapply grows_trans; [exact Hg|]. destruct Hg as [Hj _].
  rewrite <- Hj. apply IH. by rewrite Hj.
Qed.

Lemma ensureJSHelper_resolved name definition dependencies pw :
  jsCtxID pw <> "" ->
  Page_ensureJSHelper b p js_Functions (mkFunction name definition dependencies) pw
  = (fnID <-? ensure_holder b p js_Functions (jsCtxID pw) ;;
     ensure_named b p js_Functions (jsCtxID pw) name definition dependencies fnID) pw.
Proof.
  intros Hctx. cbn [Page_ensureJSHelper]. unfold bind at 1.
  rewrite (getJSCtxID_resolved pw Hctx).
  unfold ensure_holder, ensure_named, ensure_each, bind.
  destruct (Page_getHelper _ _ pw) as [[id has] pw1|pw1|pw1]; [|done..].
  simpl. destruct has; [done|].
  destruct (Page_Call b p _ pw1) as [[err|res] pw2|pw2|pw2]; done.
Qed.

Lemma ensure_holder_spec pw :
  grows (jsCtxID pw) pw (final (ensure_holder b p js_Functions (jsCtxID pw) pw))
  /\ forall fnID pw1,
       ensure_holder b p js_Functions (jsCtxID pw) pw = Ret (inr fnID) pw1 ->
       cached_helper pw1 (jsCtxID pw) (fn_Name js_Functions) = Some fnID.
Proof.
  set (ctx := jsCtxID pw). unfold ensure_holder.
  destruct (getHelper_spec ctx (fn_Name js_Functions) pw)
    as (pw1 & Hget & Hj1 & Hent1 & Hsame1 & _).
  rewrite !(bind_Ret _ _ _ _ _ Hget).
  assert (Hg1 : grows ctx pw pw1).
  { split; [done|]. intros n id. by rewrite Hsame1. }
  destruct (cached_helper pw ctx (fn_Name js_Functions)) as [fnID|] eqn:Hc;
    cbn [snd fst].
  { split; [done|]. unfold ret; intros ? ? [= <- <-]. by rewrite Hsame1. }
  rewrite bind_final.
  pose proof (Page_Call_grows ctx
    (ReqRuntimeCallFunctionOn
       (mkRuntimeCallFunctionOn (fn_Definition js_Functions) ctx [] false false false))
    pw1) as Hg2.
  unfold bind at 2.
  destruct (Page_Call b p _ pw1) as [[err|res] pw2|pw2|pw2] eqn:Hcall;
    cbn [final] in *;
    try (split; [by eapply grows_trans|done]).
  apply Page_Call_inv in Hcall as (_ & Hj2 & Hh2).
  assert (Hent2 : is_Some (helpers_under pw2 ctx)).
  { unfold helpers_under in *. by rewrite Hh2. }
  destruct (setHelper_spec ctx (fn_Name js_Functions) (ObjectID (res_Object res))
              pw2 Hent2) as (pw3 & Hset & Hj3 & Hc3 & Hother).
  unfold bind. rewrite Hset. cbn [final ret].
  split.
  - eapply grows_trans; [exact Hg1|]. eapply grows_trans; [exact Hg2|].
    split; [done|]. intros n id Hn.
    destruct (decide (n = fn_Name js_Functions)) as [->|Hne].
    + destruct Hg2 as [_ Hg2]. destruct Hg1 as [_ Hg1].
      unfold cached_helper, helpers_under in Hn. rewrite Hh2 in Hn.
      fold (helpers_under pw1 ctx) in Hn.
      fold (cached_helper pw1 ctx (fn_Name js_Functions)) in Hn.
      rewrite Hsame1, Hc in Hn. done.
    + by rewrite Hother.
  - by unfold ret; intros ? ? [= <- <-].
Qed.

Lemma ensure_named_spec name definition deps fnID pw :
  Forall (ensures b p js_Functions) deps ->
  jsCtxID pw <> "" ->
  grows (jsCtxID pw) pw
    (final (ensure_named b p js_Functions (jsCtxID pw) name definition deps fnID pw))
  /\ forall id pw',
       ensure_named b p js_Functions (jsCtxID pw) name definition deps fnID pw = Ret (inr id) pw' ->
       cached_helper pw' (jsCtxID pw) name = Some id.
Proof.
  intros Hdeps Hctx. set (ctx := jsCtxID pw). unfold ensure_named.
  destruct (getHelper_spec ctx name pw)
    as (pw1 & Hget & Hj1 & Hent1 & Hsame1 & _).
  rewrite !(bind_Ret _ _ _ _ _ Hget).
  assert (Hg1 : grows ctx pw pw1).
  { split; [done|]. intros n id. by rewrite Hsame1. }
  destruct (cached_helper pw ctx name) as [id0|] eqn:Hc; cbn [snd fst].
  { split; [done|]. unfold ret; intros ? ? [= <- <-]. by rewrite Hsame1. }
  assert (Hctx1 : jsCtxID pw1 <> "") by (by rewrite Hj1).
  pose proof (ensure_each_grows deps Hdeps pw1 Hctx1) as Hg2.
  rewrite Hj1 in Hg2. fold ctx in Hg2.
  rewrite bind_final. unfold bind at 3.
  destruct (ensure_each b p js_Functions deps pw1) as [[err|[]] pw2|pw2|pw2] eqn:Heach;
    cbn [final] in *;
    try (split; [by eapply grows_trans|done]).
  rewrite bind_final. unfold bind at 2.
  match goal with |- context [Page_Call b p ?r pw2] =>
    pose proof (Page_Call_grows ctx r pw2) as Hg3;
    destruct (Page_Call b p r pw2) as [[err|res] pw3|pw3|pw3] eqn:Hcall end;
    cbn [final] in *;
    try (split; [eapply grows_trans; [exact Hg1|by eapply grows_trans]|done]).
  destruct (setHelper_final ctx name (ObjectID (res_Object res)) pw3)
    as [Hj4 Hother].
  assert (Hg4 : grows ctx pw
                  (final (Page_setHelper ctx name (ObjectID (res_Object res)) pw3))).
  { split.
    - rewrite Hj4. destruct Hg3 as [-> _]. destruct Hg2 as [-> _]. done.
    - intros n id Hn.
      destruct (decide (n = name)) as [->|Hne]; [by rewrite Hc in Hn|].
      rewrite Hother by done.
      destruct Hg3 as [_ Hg3]. destruct Hg2 as [_ Hg2]. destruct Hg1 as [_ Hg1].
      eauto. }
  unfold bind.
  destruct (Page_setHelper ctx name (ObjectID (res_Object res)) pw3)
    as [[] pw4|pw4|pw4] eqn:Hset; cbn [final ret] in *; try done.
  split; [done|]. unfold ret; intros ? ? [= <- <-].
  revert Hset. unfold Page_setHelper, cached_helper, helpers_under.
  destruct (helpers pw3) as [hs|]; [|done].
  destruct (hs !! ctx) as [list|]; [|done].
  intros [= <-]. simpl. by rewrite !lookup_insert_eq.
Qed.

Lemma ensureJSHelper_ensures fn : ensures b p js_Functions fn.
Proof.
  induction fn as [name definition deps IHdeps] using Function_induction.
  intros pw Hctx. set (ctx := jsCtxID pw).
  rewrite (ensureJSHelper_resolved _ _ _ _ Hctx). fold ctx. cbn [fn_Name].
  destruct (ensure_holder_spec pw) as [Hg1 Hholder]. fold ctx in Hg1, Hholder.
  rewrite bind_final. unfold bind.
  destruct (ensure_holder b p js_Functions ctx pw) as [[err|fnID] pw1|pw1|pw1] eqn:Hh;
    cbn [final] in *; try done.
  assert (Hj1 : jsCtxID pw1 = ctx) by (by destruct Hg1).
  assert (Hctx1 : jsCtxID pw1 <> "") by (by rewrite Hj1).
  destruct (ensure_named_spec name definition deps fnID pw1 IHdeps Hctx1)
    as [Hg2 Hnamed].
  rewrite Hj1 in Hg2, Hnamed.
  split; [by eapply grows_trans|].
  intros id pw' Hrun. split; [by apply Hnamed|].
  rewrite Hrun in Hg2. cbn [final] in Hg2. destruct Hg2 as [_ Hg2].
  erewrite Hg2; [by eexists|]. by eapply Hholder.
Qed.

(** A helper that is cached, in a resolved context that has the holder
    cached as well, is returned without a call. *)
Lemma ensureJSHelper_hit fn pw fnID id :
  jsCtxID pw <> "" ->
  cached_helper pw (jsCtxID pw) (fn_Name js_Functions) = Some fnID ->
  cached_helper pw (jsCtxID pw) (fn_Name fn) = Some id ->
  Page_ensureJSHelper b p js_Functions fn pw = Ret (inr id) pw.
Proof.
  intros Hctx Hholder Hfn. destruct fn as [name definition deps].
  rewrite (ensureJSHelper_resolved _ _ _ _ Hctx). cbn [fn_Name] in Hfn.
  assert (Hent : is_Some (helpers_under pw (jsCtxID pw))).
  { unfold cached_helper in Hfn. by destruct (helpers_under pw (jsCtxID pw)). }
  unfold ensure_holder, ensure_named.
  destruct (getHelper_spec (jsCtxID pw) (fn_Name js_Functions) pw)
    as (pw1 & Hget1 & _ & _ & _ & Heq1).
  destruct (getHelper_spec (jsCtxID pw) name pw)
    as (pw2 & Hget2 & _ & _ & _ & Heq2).
  rewrite (Heq1 Hent) in Hget1. rewrite (Heq2 Hent) in Hget2.
  unfold bind. rewrite Hget1, Hholder. cbn [snd fst ret].
  by rewrite Hget2, Hfn.
Qed.

(** X13. Helpers are sent once per context. Against a remote that hands
    out no empty object id, once [ensureJSHelper] has returned the id of a
    helper, calling it again returns the same id without any call, leaving
    the page and the browser as they are. *)
Theorem ensureJSHelper_idempotent (fn : Function) (pw pw' : PageWorld)
    (id : string) :
  Page_ensureJSHelper b p js_Functions fn pw = Ret (inr id) pw' ->
  Page_ensureJSHelper b p js_Functions fn pw' = Ret (inr id) pw'.
Proof.
  intros Hrun.
  assert (Hres : exists ctx pw1,
    Page_getJSCtxID b p pw = Ret (inr ctx) pw1
    /\ Page_ensureJSHelper b p js_Functions fn pw1 = Ret (inr id) pw').
  { destruct fn as [name definition deps].
    cbn [Page_ensureJSHelper] in Hrun. unfold bind at 1 in Hrun.
    destruct (Page_getJSCtxID b p pw) as [[err|ctx] pw1|pw1|pw1] eqn:Hget;
      try done.
    exists ctx, pw1. split; [done|].
    destruct (getJSCtxID_returns _ _ _ Hget) as [Hne <-].
    cbn [Page_ensureJSHelper]. unfold bind at 1.
    by rewrite (getJSCtxID_resolved pw1 Hne). }
  destruct Hres as (ctx & pw1 & Hget & Hrun1).
  destruct (getJSCtxID_returns _ _ _ Hget) as [Hne Hj1].
  assert (Hctx1 : jsCtxID pw1 <> "") by (by rewrite Hj1).
  destruct (ensureJSHelper_ensures fn pw1 Hctx1) as [Hg Hcached].
  destruct (Hcached id pw' Hrun1) as [Hfn [fnID Hholder]].
  rewrite Hrun1 in Hg. cbn [final] in Hg. destruct Hg as [Hj' _].
  rewrite <- Hj' in Hfn, Hholder.
  apply (ensureJSHelper_hit fn pw' fnID id); [by rewrite Hj'|done..].
Qed.

End Helpers.

(** ** Evaluation on an element *)

Section EvalProofs.

Variable b : Browser.
Variable p : Page.
Variable js_Functions : Function.
Variable jitter : N -> N.

Lemma formatArgs_plain args pw :
  forallb (fun arg => negb (is_helper arg)) args = true ->
  Page_formatArgs b p js_Functions args pw = Ret (inr (map plain_argument args)) pw.
Proof.
  induction args as [|arg args IH]; [done|]. simpl.
  intros [Harg Hargs]%andb_true_iff. unfold bind.
  destruct arg; try done; simpl; by rewrite IH.
Qed.

(** A call of the page, by what the client answers. *)
Lemma Page_Call_returns req pw :
  is_Some (proto.ParseMethodName (ProtoReq req)) ->
  exists w',
    Page_Call b p req pw
    = Ret (client b (calls (pw_world pw))
             (mkCall (SessionID p) (ProtoReq req) (Some req)))
          (mkPageWorld w' (jsCtxID pw) (helpers pw) (pw_log pw))
    /\ calls w' = calls (pw_world pw)
                  ++ [mkCall (SessionID p) (ProtoReq req) (Some req)].
Proof.
  intros Hp. unfold Page_Call, lift.
  destruct (proto_call_returns b (SessionID p) req (pw_world pw) Hp)
    as (w' & -> & Hcalls & _).
  by exists w'.
Qed.

(** An evaluation on an explicit object with plain arguments. *)
Lemma evaluate_on_object opts this pw :
  ThisObj opts = Some this ->
  forallb (fun arg => negb (is_helper arg)) (JSArgs opts) = true ->
  let c := mkCall (SessionID p) "Runtime.callFunctionOn"
             (Some (ReqRuntimeCallFunctionOn
                      (mkRuntimeCallFunctionOn (formatToJSFunc opts) (ObjectID this)
                         (map plain_argument (JSArgs opts))
                         (AwaitPromise opts) (ByValue opts) (UserGesture opts)))) in
  exists w',
    Page_evaluate b p js_Functions opts pw
    = Ret (evaluated (client b (calls (pw_world pw)) c))
          (mkPageWorld w' (jsCtxID pw) (helpers pw) (pw_log pw))
    /\ calls w' = calls (pw_world pw) ++ [c].
Proof.
  intros Hthis Hplain c. unfold Page_evaluate. rewrite Hthis.
  rewrite (bind_Ret _ _ _ _ _ (formatArgs_plain (JSArgs opts) pw Hplain)).
  unfold bind at 1, ret at 1.
  set (req := ReqRuntimeCallFunctionOn _).
  destruct (Page_Call_returns req pw) as (w' & Hcall & Hcalls); [by eexists|].
  exists w'. split; [|exact Hcalls].
  change (mkCall _ _ _) with c in Hcall.
  unfold bind. rewrite Hcall.
  destruct (client b (calls (pw_world pw)) c) as [err|res]; [done|].
  simpl. by destruct (res_ExceptionDetails res).
Qed.

(** X14. [Element.Eval] with arguments that are no helpers is one call
    and nothing else: [Runtime.callFunctionOn] on the object of the element,
    by value and awaiting the promise. The execution context of the page is
    neither resolved nor invalidated and nothing is retried: when the remote
    no longer knows the context, the answer is [ErrObjectNotFound] for the
    element. *)
Theorem Element_Eval_is_one_call (fuel : nat) (el : Element) (js : string)
    (params : list Arg) (pw : PageWorld) :
  forallb (fun arg => negb (is_helper arg)) params = true ->
  let c := Eval_call p el js params in
  exists w',
    Element_Eval b p js_Functions jitter (S fuel) el js params pw
    = Ret (match client b (calls (pw_world pw)) c with
           | inl ErrCtxNotFound => inl (ErrObjectNotFound (el_Object el))
           | answer => evaluated answer
           end)
          (mkPageWorld w' (jsCtxID pw) (helpers pw) (pw_log pw))
    /\ calls w' = calls (pw_world pw) ++ [c].
Proof.
  intros Hplain c.
  destruct (evaluate_on_object (This (ByPromise (Eval_ js params)) (el_Object el))
              (el_Object el) pw eq_refl Hplain) as (w' & Hev & Hcalls).
  exists w'. split; [|exact Hcalls].
  unfold Element_Eval, Element_Evaluate, Page_Evaluate.
  cbn [Evaluate_loop]. rewrite (bind_Ret _ _ _ _ _ Hev).
  change (mkCall _ _ _) with c.
  destruct (client b (calls (pw_world pw)) c) as [[]|res]; try done.
  simpl. by destruct (res_ExceptionDetails res).
Qed.

End EvalProofs.

(** ** Timeouts and their cancellation *)

Lemma Value_timeout_derived base ctx :
  derived base ctx = true -> Value_timeout ctx = Value_timeout base.
Proof.
  induction ctx as [|id parent IH|id d parent IH|? _ ? ? _|key value parent IH];
    simpl; intros [Heq|Hder]%orb_true_iff;
    try (apply bool_decide_eq_true in Heq; by subst base);
    try done; by apply IH.
Qed.

Section ChainProofs.

Context {T S : Type}.

Lemma Done_derived w base ctx :
  derived base ctx = true -> Done w base = true -> Done w ctx = true.
Proof.
  intros Hder Hbase.
  induction ctx as [|id parent IH|id d parent IH|? _ ? ? _|key value parent IH];
    simpl in Hder; apply orb_true_iff in Hder as [Heq|Hder];
    try (apply bool_decide_eq_true in Heq; by subst base);
    try done; simpl; rewrite ?IH by done; by rewrite ?orb_true_r.
Qed.

(** X15. [CancelTimeout] undoes the innermost [Timeout]. Whatever was
    derived from the clone that [Timeout] returned, by [WithCancel],
    [Sleeper], or a context with further cancels and foreign values,
    [CancelTimeout] on it returns a clone with the context the object had
    before the [Timeout]: on the clone of [Timeout] itself that is the
    object as it was. It cancels the context of the timeout and no other,
    and with it every context derived from it. *)
Theorem CancelTimeout_undoes_Timeout (o o1 o2 : Chained T S) (d : Z)
    (w w1 w2 : CtxWorld) :
  Chained_Timeout o d w = Ret o1 w1 ->
  derived (ch_ctx o1) (ch_ctx o2) = true ->
  exists w3,
    Chained_CancelTimeout o2 w2 = Ret (Chained_Context o2 (ch_ctx o)) w3
    /\ Chained_Context o1 (ch_ctx o) = o
    /\ cancelled w3 = {[next_ctx w]} ∪ cancelled w2
    /\ Done w3 (ch_ctx o2) = true.
Proof.
  unfold Chained_Timeout, context_WithTimeout, bind, ret. intros [= <- <-].
  simpl. intros Hder. unfold Chained_CancelTimeout.
  rewrite (Value_timeout_derived _ _ Hder). simpl.
  eexists. split; [done|]. split; [by destruct o|]. split; [done|].
  apply (Done_derived _ _ _ Hder). simpl.
  rewrite bool_decide_eq_true_2; [done|]. set_solver.
Qed.

(** X16. [CancelTimeout] without a [Timeout] panics: on an object whose
    context comes from [context.Background] by cancels, plain timeouts and
    foreign values only, there is no value to find under the key of the
    driver. Nothing is cancelled. *)
Theorem CancelTimeout_without_Timeout (o : Chained T S) (w : CtxWorld) :
  derived Background (ch_ctx o) = true ->
  Chained_CancelTimeout o w = Panic w.
Proof.
  intros Hder. unfold Chained_CancelTimeout.
  by rewrite (Value_timeout_derived _ _ Hder).
Qed.

End ChainProofs.

Lemma CancelTimeout_undoes_Timeout_witness :
  exists w3,
    Chained_CancelTimeout
      (mkChained "browser"
         (WithCancel 1 (WithTimeoutVal Background 0 (WithTimeout 0 5000 Background)))
         30%N)
      (mkCtxWorld 2 ∅)
    = Ret (mkChained "browser" Background 30%N) w3
    /\ Chained_Context
         (mkChained "browser"
            (WithTimeoutVal Background 0 (WithTimeout 0 5000 Background)) 100%N)
         Background = a_target
    /\ cancelled w3 = {[0]} ∪ ∅
    /\ Done w3 (WithCancel 1 (WithTimeoutVal Background 0 (WithTimeout 0 5000 Background)))
       = true.
Proof.
  apply (CancelTimeout_undoes_Timeout a_target _
           (mkChained "browser"
              (WithCancel 1 (WithTimeoutVal Background 0 (WithTimeout 0 5000 Background)))
              30%N)
           5000 fresh_CtxWorld (mkCtxWorld 1 ∅) (mkCtxWorld 2 ∅)).
  - reflexivity.
  - reflexivity.
Defined.

Lemma CancelTimeout_without_Timeout_witness :
  Chained_CancelTimeout (mkChained "page" (WithCancel 0 Background) 100%N)
    (mkCtxWorld 1 ∅)
  = Panic (mkCtxWorld 1 ∅).
Proof.
  apply (CancelTimeout_without_Timeout
           (mkChained "page" (WithCancel 0 Background) 100%N) (mkCtxWorld 1 ∅)).
  reflexivity.
Defined.

(** ** Matchers and pools *)

Lemma excluded_existsb regExcludes s :
  excluded regExcludes s = existsb (fun re => regexp.Matches re s) regExcludes.
Proof.
  induction regExcludes as [|re res IH]; [done|]. simpl.
  by destruct (regexp.Matches re s).
Qed.

Lemma MustCompile_each_Some rest patterns regs :
  MustCompile_each rest patterns = Some regs ->
  Forall2 (fun p re => regexp.Compile_all rest p = Some re) patterns regs.
Proof.
  revert regs. induction patterns as [|p ps IH]; simpl; intros regs.
  - intros [= <-]. constructor.
  - destruct (regexp.Compile_all rest p) as [re|] eqn:Hre; [|done].
    destruct (MustCompile_each rest ps) as [res|]; [|done].
    intros [= <-]. constructor; [done|]. by apply IH.
Qed.

Lemma MustCompile_each_None rest patterns :
  MustCompile_each rest patterns = None ->
  exists p, In p patterns /\ regexp.Compile_all rest p = None.
Proof.
  induction patterns as [|p ps IH]; simpl; [done|].
  destruct (regexp.Compile_all rest p) as [re|] eqn:Hre.
  - destruct (MustCompile_each rest ps) as [res|]; [done|].
    intros _. destruct IH as (p' & Hin & Hp'); [done|]. exists p'. auto.
  - intros _. exists p. auto.
Qed.

(** X17. [genRegMatcher] panics exactly when one of the expressions does
    not compile. The function it returns otherwise accepts a string exactly
    when one of the include expressions matches it and none of the exclude
    expressions does. *)
Theorem genRegMatcher_spec (rest : regexp.Rest)
    (includes excludes : list (list rune)) :
  match genRegMatcher rest includes excludes with
  | None =>
      exists p, In p (includes ++ excludes) /\ regexp.Compile_all rest p = None
  | Some matcher =>
      exists regIncludes regExcludes,
        Forall2 (fun p re => regexp.Compile_all rest p = Some re)
          includes regIncludes
        /\ Forall2 (fun p re => regexp.Compile_all rest p = Some re)
             excludes regExcludes
        /\ forall s,
             matcher s
             = existsb (fun re => regexp.Matches re s) regIncludes
               && negb (existsb (fun re => regexp.Matches re s) regExcludes)
  end.
Proof.
  unfold genRegMatcher.
  destruct (MustCompile_each rest includes) as [regIncludes|] eqn:Hi.
  2: { destruct (MustCompile_each_None _ _ Hi) as (p & Hin & Hp).
       exists p. split; [|done]. apply in_or_app. by left. }
  destruct (MustCompile_each rest excludes) as [regExcludes|] eqn:He.
  2: { destruct (MustCompile_each_None _ _ He) as (p & Hin & Hp).
       exists p. split; [|done]. apply in_or_app. by right. }
  exists regIncludes, regExcludes.
  split; [by apply MustCompile_each_Some|].
  split; [by apply MustCompile_each_Some|].
  intros s. clear Hi. rewrite <- (excluded_existsb regExcludes).
  induction regIncludes as [|re res IH]; [done|]. simpl.
  destruct (regexp.Matches re s); simpl; [|exact IH].
  by destruct (excluded regExcludes s).
Qed.

Lemma pool_step_inv {T : Type} (pp pp' : Pool T) (op : pool_op T) :
  pool_step pp op = Some pp' ->
  pool_cap pp' = pool_cap pp
  /\ (length (pool_queue pp) <= pool_cap pp ->
      length (pool_queue pp') <= pool_cap pp)
  /\ Z.of_nat (length (pool_queue pp'))
     = (Z.of_nat (length (pool_queue pp)) - (if is_Get op then 1 else -1))%Z.
Proof.
  destruct op as [create|p]; simpl.
  - unfold Pool_Get, chan_recv. destruct (pool_queue pp) as [|[x|] queue] eqn:Hq;
      simpl; [done|..]; intros [= <-]; simpl; (split; [done|]); split; lia.
  - unfold Pool_Put, chan_send.
    destruct (Nat.ltb_spec (length (pool_queue pp)) (pool_cap pp)); [|done].
    intros [= <-]. simpl. rewrite length_app. simpl. split; [done|]. split; lia.
Qed.

Lemma pool_run_inv {T : Type} (ops : list (pool_op T)) (pp1 pp : Pool T) :
  pool_run ops pp1 = Some pp ->
  pool_cap pp = pool_cap pp1
  /\ (length (pool_queue pp1) <= pool_cap pp1 ->
      length (pool_queue pp) <= pool_cap pp1)
  /\ Z.of_nat (length (pool_queue pp))
     = (Z.of_nat (length (pool_queue pp1)) - in_use ops)%Z.
Proof.
  revert pp1. induction ops as [|op ops' IH]; intros pp1; simpl.
  - intros [= <-]. unfold in_use. simpl. split; [done|]. split; [done|]. lia.
  - destruct (pool_step pp1 op) as [pp2|] eqn:Hstep; [|done].
    intros Hrun. destruct (pool_step_inv _ _ _ Hstep) as (Hcap & Hle & Hlen).
    destruct (IH pp2 Hrun) as (Hcap' & Hle' & Hlen').
    rewrite Hcap in *. split; [done|]. split; [by auto|].
    rewrite Hlen', Hlen. unfold in_use. rewrite !filter_cons.
    destruct op; simpl; rewrite ?decide_True, ?decide_False by done;
      simpl; lia.
Qed.

(** What a new pool has become after a run: its capacity is the limit and
    its channel holds what is not in use. *)
Lemma pool_run_new {T : Type} (limit : Z) (ops : list (pool_op T))
    (pp0 pp : Pool T) :
  NewPool limit = Some pp0 ->
  pool_run ops pp0 = Some pp ->
  (0 <= limit)%Z /\ pool_cap pp = Z.to_nat limit
  /\ length (pool_queue pp) <= pool_cap pp
  /\ Z.of_nat (length (pool_queue pp)) = (limit - in_use ops)%Z.
Proof.
  unfold NewPool. destruct (Z.ltb_spec limit 0) as [|Hlimit]; [done|].
  intros [= <-] Hrun. destruct (pool_run_inv _ _ _ Hrun) as (Hcap & Hle & Hlen).
  simpl in *. rewrite length_replicate in *.
  specialize (Hle (le_n _)). repeat split; [done|done|lia|lia].
Qed.

(** X18. A pool keeps its limit. After any sequence of [Get] and [Put] on a
    new pool of [limit] that ran without blocking, the number of elements
    taken and not put back is between 0 and [limit], and the channel holds
    the rest. A further [Get] blocks exactly when [limit] elements are in
    use, a further [Put] exactly when none is. *)
Theorem Pool_keeps_limit {T : Type} (limit : Z) (ops : list (pool_op T))
    (pp0 pp : Pool T) :
  NewPool limit = Some pp0 ->
  pool_run ops pp0 = Some pp ->
  (0 <= in_use ops <= limit)%Z
  /\ Z.of_nat (length (pool_queue pp)) = (limit - in_use ops)%Z
  /\ (forall create, Pool_Get create pp = None <-> in_use ops = limit)
  /\ (forall p, Pool_Put p pp = None <-> in_use ops = 0%Z).
Proof.
  intros Hnew Hrun.
  destruct (pool_run_new _ _ _ _ Hnew Hrun) as (Hlimit & Hcap & Hle & Hq).
  split; [lia|]. split; [done|]. split.
  - intros create. unfold Pool_Get, chan_recv.
    destruct (pool_queue pp) as [|[x|] queue]; simpl in *; split; try done; lia.
  - intros p. unfold Pool_Put, chan_send. rewrite Hcap.
    destruct (Nat.ltb_spec (length (pool_queue pp)) (Z.to_nat limit));
      split; try done; lia.
Qed.

Lemma Cleanup_loop_spec {T : Type} (n : nat) (pp : Pool T) :
  Cleanup_loop n pp
  = (omap id (take n (pool_queue pp)),
     mkPool (pool_cap pp) (drop n (pool_queue pp)),
     n - length (pool_queue pp)).
Proof.
  revert pp. induction n as [|n IH]; intros [cap queue]; [done|].
  cbn [Cleanup_loop]. unfold chan_recv. cbn [pool_queue pool_cap].
  destruct queue as [|x queue]; [done|].
  rewrite IH. cbn [pool_queue pool_cap length take drop omap].
  by destruct x.
Qed.

(** X19. [Cleanup] waits for every element. On a pool that [Get]s and
    [Put]s have been run on, [Cleanup] first calls [iteratee] with the
    elements that are in the channel, nils left out, in their order, and
    empties the channel. It returns if no element is in use; otherwise it
    is then blocked with as many receives to make as elements are in use,
    and each [Put] that follows is one of them: the element is visited and
    the channel is empty again, so that [Get] blocks throughout. *)
Theorem Pool_Cleanup_waits_for_all {T : Type} (limit : Z)
    (ops : list (pool_op T)) (pp0 pp : Pool T) :
  NewPool limit = Some pp0 ->
  pool_run ops pp0 = Some pp ->
  let empty := mkPool (pool_cap pp) [] in
  Pool_Cleanup pp = (omap id (pool_queue pp), empty, Z.to_nat (in_use ops))
  /\ (forall create, Pool_Get create empty = None)
  /\ forall todo p,
       todo < Z.to_nat (in_use ops) ->
       exists pp',
         Pool_Put p empty = Some pp'
         /\ Cleanup_loop (S todo) pp' = (omap id [p], empty, todo).
Proof.
  intros Hnew Hrun empty.
  destruct (pool_run_new _ _ _ _ Hnew Hrun) as (Hlimit & Hcap & Hle & Hq).
  split; [|split].
  - unfold Pool_Cleanup. rewrite Cleanup_loop_spec.
    rewrite take_ge, drop_ge by lia. do 2 f_equal. lia.
  - done.
  - intros todo p Htodo. unfold Pool_Put, chan_send, empty. cbn [pool_queue pool_cap length].
    destruct (Nat.ltb_spec 0 (pool_cap pp)) as [_|Hzero]; [|lia].
    eexists. split; [done|]. rewrite Cleanup_loop_spec.
    cbn [pool_queue pool_cap app length].
    rewrite take_ge, drop_ge by (simpl; lia). do 2 f_equal. simpl. lia.
Qed.

(** ** Key actions *)

Lemma foldl_release (kvs : list (input_Key * bool)) (actions : list KeyAction) :
  foldl (fun (actions : list KeyAction) (kv : input_Key * bool) =>
           if snd kv then actions ++ [mkKeyAction KeyActionRelease (fst kv)]
           else actions) actions kvs
  = actions ++ map (fun kv => mkKeyAction KeyActionRelease (fst kv))
                 (filter (fun kv => snd kv = true) kvs).
Proof.
  revert actions. induction kvs as [|[key need] kvs IH]; intros actions; simpl.
  - by rewrite app_nil_r.
  - rewrite IH. destruct need.
    + rewrite filter_cons_True by done. simpl. by rewrite <- app_assoc.
    + by rewrite filter_cons_False by done.
Qed.

Lemma elem_of_map {A B : Type} (f : A -> B) (l : list A) (y : B) :
  y ∈ map f l <-> exists x, y = f x /\ x ∈ l.
Proof.
  rewrite list_elem_of_In, in_map_iff. split.
  - intros (x & <- & Hx). exists x. by rewrite list_elem_of_In.
  - intros (x & -> & Hx). exists x. by rewrite <- list_elem_of_In.
Qed.

Lemma need_release_snoc actions a :
  need_release (actions ++ [a])
  = <[ka_Key a := match ka_Type a with KeyActionPress => true | _ => false end]>
      (need_release actions).
Proof.
  unfold need_release. rewrite foldl_app. simpl. by destruct (ka_Type a).
Qed.

Lemma need_release_last_on actions key :
  need_release actions !! key
  = option_map (fun t => match t with KeyActionPress => true | _ => false end)
      (last_on key actions).
Proof.
  induction actions as [|a actions IH] using rev_ind; [done|].
  rewrite need_release_snoc. unfold last_on in *. rewrite filter_app.
  destruct (decide (ka_Key a = key)) as [Heq|Hne].
  - rewrite filter_cons_True by done. rewrite filter_nil, last_snoc. subst key.
    rewrite lookup_insert_eq. simpl. by destruct (ka_Type a).
  - rewrite filter_cons_False by done. rewrite filter_nil, app_nil_r.
    rewrite lookup_insert_ne by done. exact IH.
Qed.

Section balanceProofs.

Variable range_order : gmap input_Key bool -> list (input_Key * bool).
Hypothesis range_order_visits_all :
  forall h, range_order h ≡ₚ map_to_list h.

(** X20. [balance] adds what is missing and nothing else. Whatever order
    the map is visited in, the result is the actions followed by releases,
    one for each key whose last action is a press and none for any other
    key; balancing what is balanced changes nothing. *)
Theorem balance_releases_pressed_keys (actions : list KeyAction) :
  exists keys,
    KeyActions_balance range_order actions
    = actions ++ map (mkKeyAction KeyActionRelease) keys
    /\ NoDup keys
    /\ (forall key, key ∈ keys <-> last_on key actions = Some KeyActionPress)
    /\ KeyActions_balance range_order (KeyActions_balance range_order actions)
       = KeyActions_balance range_order actions.
Proof.
  set (kvs := filter (fun kv : input_Key * bool => snd kv = true)
                (range_order (need_release actions))).
  assert (Hbal : KeyActions_balance range_order actions
                 = actions ++ map (mkKeyAction KeyActionRelease) (map fst kvs)).
  { unfold KeyActions_balance. rewrite foldl_release. by rewrite map_map. }
  assert (Hin : forall key need,
    (key, need) ∈ range_order (need_release actions)
    <-> need_release actions !! key = Some need).
  { intros key need. rewrite range_order_visits_all.
    apply elem_of_map_to_list. }
  assert (Hkeys : forall key,
    key ∈ map fst kvs <-> last_on key actions = Some KeyActionPress).
  { intros key. rewrite elem_of_map. split.
    - intros ([k need] & -> & Hkv). apply list_elem_of_filter in Hkv as [Hneed Hkv].
      simpl in Hneed. subst need. apply Hin in Hkv.
      rewrite need_release_last_on in Hkv. simpl.
      destruct (last_on k actions) as [[]|]; done.
    - intros Hlast. exists (key, true). split; [done|].
      apply list_elem_of_filter. split; [done|]. apply Hin.
      by rewrite need_release_last_on, Hlast. }
  exists (map fst kvs). split; [exact Hbal|]. split.
  { assert (Hnd : NoDup (map fst (range_order (need_release actions)))).
    { rewrite range_order_visits_all. apply NoDup_fst_map_to_list. }
    unfold kvs. clear -Hnd.
    induction (range_order (need_release actions)) as [|[k v] l IH]; [constructor|].
    simpl in Hnd. apply NoDup_cons in Hnd as [Hk Hl].
    rewrite filter_cons. destruct (decide _); [|by apply IH].
    simpl. apply NoDup_cons. split; [|by apply IH].
    intros Hin. apply Hk. apply elem_of_map in Hin as ([k' v'] & -> & Hin).
    apply list_elem_of_filter in Hin as [_ Hin].
    apply elem_of_map. by exists (k', v'). }
  split; [exact Hkeys|].
  (* nothing is left to release *)
  assert (Hnone : forall key, last_on key (KeyActions_balance range_order actions)
                              <> Some KeyActionPress).
  { intros key. rewrite Hbal. unfold last_on. rewrite filter_app, last_app.
    destruct (last (filter (fun a => ka_Key a = key)
                      (map (mkKeyAction KeyActionRelease) (map fst kvs))))
      as [a|] eqn:Hlast.
    - apply last_Some_elem_of, list_elem_of_filter in Hlast as [_ Hel].
      apply elem_of_map in Hel as (k' & -> & _). done.
    - apply last_None in Hlast. fold (last_on key actions). intros Hpress.
      apply Hkeys in Hpress.
      apply (filter_nil_not_elem_of _ _ (mkKeyAction KeyActionRelease key) Hlast);
        [done|].
      apply elem_of_map. by exists key. }
  unfold KeyActions_balance at 1. rewrite foldl_release.
  destruct (filter (fun kv : input_Key * bool => snd kv = true)
              (range_order (need_release (KeyActions_balance range_order actions))))
    as [|[k v] rest] eqn:Hrest.
  { simpl. by rewrite app_nil_r. }
  exfalso.
  assert (Hel : (k, v) ∈ filter (fun kv : input_Key * bool => snd kv = true)
                  (range_order (need_release (KeyActions_balance range_order actions)))).
  { rewrite Hrest. by left. }
  apply list_elem_of_filter in Hel as [Hv Hel]. simpl in Hv. subst v.
  rewrite range_order_visits_all in Hel. apply elem_of_map_to_list in Hel.
  rewrite need_release_last_on in Hel. apply (Hnone k).
  destruct (last_on k _) as [[]|]; done.
Qed.

End balanceProofs.

(** ** The buttons of the mouse *)

Section MouseProofs.

Variable b : Browser.
Variable p : Page.
Variable Key_Modifier : input_Key -> Z.
Variable EncodeMouseButton : list string -> string * Z.
Variable marshal : InputDispatchMouseEvent -> string.
Variable trySlowmotion : M InputWorld unit.

Lemma Mouse_Call_returns ev iw :
  exists w',
    InputDispatchMouseEvent_Call b p marshal ev iw
    = Ret (client b (calls (iw_world iw))
             (mkCall (SessionID p) "Input.dispatchMouseEvent"
                (Some (OtherRequest "Input.dispatchMouseEvent" (marshal ev)))))
          (mkInputWorld w' (iw_pressed iw) (iw_mouse iw))
    /\ calls w' = calls (iw_world iw)
                  ++ [mkCall (SessionID p) "Input.dispatchMouseEvent"
                        (Some (OtherRequest "Input.dispatchMouseEvent" (marshal ev)))].
Proof.
  unfold InputDispatchMouseEvent_Call, lift.
  destruct (proto_call_returns b (SessionID p)
              (OtherRequest "Input.dispatchMouseEvent" (marshal ev)) (iw_world iw))
    as (w' & -> & Hcalls & _); [by eexists|].
  by exists w'.
Qed.

Lemma Mouse_Down_spec button clicks iw :
  let m := iw_mouse iw in
  let c := mouse_call p marshal "mousePressed" m button
             (snd (EncodeMouseButton (m_buttons m ++ [button]))) clicks
             (modifiers_of Key_Modifier (iw_pressed iw)) in
  exists w',
    calls w' = calls (iw_world iw) ++ [c]
    /\ Mouse_Down b p Key_Modifier EncodeMouseButton marshal button clicks iw
       = match client b (calls (iw_world iw)) c with
         | inl err => Ret (Some err) (mkInputWorld w' (iw_pressed iw) m)
         | inr _ =>
             Ret None
               (mkInputWorld w' (iw_pressed iw)
                  (mkMouse (m_x m) (m_y m) (m_buttons m ++ [button])))
         end.
Proof.
  intros m c. unfold Mouse_Down. cbv zeta.
  unfold bind at 1, Keyboard_getModifiers.
  match goal with |- context [InputDispatchMouseEvent_Call _ _ _ ?ev] =>
    destruct (Mouse_Call_returns ev iw) as (w' & Hcall & Hcalls) end.
  exists w'. split; [exact Hcalls|].
  unfold bind. rewrite Hcall. fold m.
  change (mkCall _ _ _) with c.
  by destruct (client b (calls (iw_world iw)) c).
Qed.

Lemma Mouse_Up_spec button clicks iw :
  let m := iw_mouse iw in
  let c := mouse_call p marshal "mouseReleased" m button
             (snd (EncodeMouseButton (released button (m_buttons m)))) clicks
             (modifiers_of Key_Modifier (iw_pressed iw)) in
  exists w',
    calls w' = calls (iw_world iw) ++ [c]
    /\ Mouse_Up b p Key_Modifier EncodeMouseButton marshal button clicks iw
       = match client b (calls (iw_world iw)) c with
         | inl err => Ret (Some err) (mkInputWorld w' (iw_pressed iw) m)
         | inr _ =>
             Ret None
               (mkInputWorld w' (iw_pressed iw)
                  (mkMouse (m_x m) (m_y m) (released button (m_buttons m))))
         end.
Proof.
  intros m c. unfold Mouse_Up. cbv zeta.
  unfold bind at 1, Keyboard_getModifiers.
  match goal with |- context [InputDispatchMouseEvent_Call _ _ _ ?ev] =>
    destruct (Mouse_Call_returns ev iw) as (w' & Hcall & Hcalls) end.
  exists w'. split; [exact Hcalls|].
  unfold bind. rewrite Hcall. fold m.
  change (mkCall _ _ _) with c.
  by destruct (client b (calls (iw_world iw)) c).
Qed.

(** X21. The buttons of the mouse follow the calls that succeed. With a
    slow-motion pause that only pauses, [Click] sends the press of the
    button, at the place of the mouse and with the button added to the
    buttons that are down; if the remote refuses it, that is the error,
    nothing more is sent and the buttons are as they were. Otherwise it
    sends the release, with the button taken out of the buttons that are
    down: if the remote accepts it the button is no longer down, even if it
    was before the click, and if it refuses it the button stays down. The
    place of the mouse and the keys that are down never change. *)
Theorem Mouse_Click_buttons (button : string) (iw : InputWorld) :
  (forall iw0, trySlowmotion iw0 = Ret tt iw0) ->
  let m := iw_mouse iw in
  let modifiers := modifiers_of Key_Modifier (iw_pressed iw) in
  let press := mouse_call p marshal "mousePressed" m button
                 (snd (EncodeMouseButton (m_buttons m ++ [button]))) 1 modifiers in
  let release := mouse_call p marshal "mouseReleased" m button
                   (snd (EncodeMouseButton (released button (m_buttons m)))) 1
                   modifiers in
  let down buttons := mkMouse (m_x m) (m_y m) buttons in
  exists w',
    Mouse_Click b p Key_Modifier EncodeMouseButton marshal trySlowmotion button iw
    = match client b (calls (iw_world iw)) press with
      | inl err => Ret (Some err) (mkInputWorld w' (iw_pressed iw) m)
      | inr _ =>
          match client b (calls (iw_world iw) ++ [press]) release with
          | inl err =>
              Ret (Some err)
                (mkInputWorld w' (iw_pressed iw) (down (m_buttons m ++ [button])))
          | inr _ =>
              Ret None
                (mkInputWorld w' (iw_pressed iw)
                   (down (released button (m_buttons m))))
          end
      end
    /\ calls w'
       = calls (iw_world iw)
         ++ match client b (calls (iw_world iw)) press with
            | inl _ => [press]
            | inr _ => [press; release]
            end.
Proof.
  intros Hslow m modifiers press release down.
  unfold Mouse_Click. rewrite (bind_Ret _ _ _ _ _ (Hslow iw)).
  destruct (Mouse_Down_spec button 1 iw) as (w1 & Hc1 & Hdown).
  fold m modifiers press in Hc1, Hdown.
  unfold bind. rewrite Hdown.
  destruct (client b (calls (iw_world iw)) press) as [err1|r1].
  { exists w1. by split. }
  match goal with |- context [Mouse_Up _ _ _ _ _ _ _ ?iw1] =>
    destruct (Mouse_Up_spec button 1 iw1) as (w2 & Hc2 & Hup) end.
  cbn [iw_mouse iw_world iw_pressed m_x m_y m_buttons] in Hc2, Hup.
  assert (Hrel : released button (m_buttons m ++ [button])
                 = released button (m_buttons m)).
  { unfold released. rewrite filter_app, filter_cons_False by tauto.
    by rewrite filter_nil, app_nil_r. }
  rewrite Hrel in Hc2, Hup.
  change (mouse_call p marshal "mouseReleased" _ button _ 1 _)
    with release in Hc2, Hup.
  rewrite Hup, Hc1. exists w2. split.
  - by destruct (client b (calls (iw_world iw) ++ [press]) release).
  - rewrite Hc2, Hc1, <- app_assoc. done.
Qed.

End MouseProofs.

(** ** Quads and shapes *)

Section Shapes.

Import proto.

Lemma SFltb_below (a b c : SpecFloat.spec_float) :
  SpecFloat.SFltb a b = true -> SpecFloat.SFltb c b = false ->
  SpecFloat.SFltb c a = false.
Proof.
  unfold SpecFloat.SFltb, SpecFloat.SFcompare.
  change (PosDef.Pos.compare_cont Eq) with Pos.compare.
  destruct a as [sa|sa| |sa ma ea], b as [sb|sb| |sb mb eb],
    c as [sc|sc| |sc mc ec];
    repeat match goal with s : bool |- _ => destruct s end;
    try done;
    repeat match goal with
      | |- context [(?x ?= ?y)%Z] => destruct (Z.compare_spec x y)
      | |- context [(?x ?= ?y)%positive] => destruct (Pos.compare_spec x y)
      end; simpl; try done; intros; lia.
Qed.

Lemma SFltb_above (a b c : SpecFloat.spec_float) :
  SpecFloat.SFltb b a = true -> SpecFloat.SFltb b c = false ->
  SpecFloat.SFltb a c = false.
Proof.
  unfold SpecFloat.SFltb, SpecFloat.SFcompare.
  change (PosDef.Pos.compare_cont Eq) with Pos.compare.
  destruct a as [sa|sa| |sa ma ea], b as [sb|sb| |sb mb eb],
    c as [sc|sc| |sc mc ec];
    repeat match goal with s : bool |- _ => destruct s end;
    try done;
    repeat match goal with
      | |- context [(?x ?= ?y)%Z] => destruct (Z.compare_spec x y)
      | |- context [(?x ?= ?y)%positive] => destruct (Pos.compare_spec x y)
      end; simpl; try done; intros; lia.
Qed.

Lemma SFltb_irrefl (a : SpecFloat.spec_float) : SpecFloat.SFltb a a = false.
Proof.
  unfold SpecFloat.SFltb, SpecFloat.SFcompare.
  change (PosDef.Pos.compare_cont Eq) with Pos.compare.
  destruct a as [sa|sa| |sa ma ea]; try destruct sa; try done;
    rewrite Z.compare_refl, Pos.compare_refl; done.
Qed.

(** The order of floating-point numbers, as far as [Box] relies on it;
    the three facts hold for NaN as well, which is below and above
    nothing. *)
Lemma ltb_below a b c :
  PrimFloat.ltb a b = true -> PrimFloat.ltb c b = false ->
  PrimFloat.ltb c a = false.
Proof. rewrite !FloatAxioms.ltb_spec. apply SFltb_below. Qed.

Lemma ltb_above a b c :
  PrimFloat.ltb b a = true -> PrimFloat.ltb b c = false ->
  PrimFloat.ltb a c = false.
Proof. rewrite !FloatAxioms.ltb_spec. apply SFltb_above. Qed.

Lemma ltb_irrefl a : PrimFloat.ltb a a = false.
Proof. rewrite FloatAxioms.ltb_spec. apply SFltb_irrefl. Qed.

Lemma list_pairs_ind {A : Type} (P : list A -> Prop) :
  P [] -> (forall x, P [x]) -> (forall x y l, P l -> P (x :: y :: l)) ->
  forall l, P l.
Proof.
  intros Hnil Hone Hcons. fix IH 1. intros [|x [|y l]]; [done|done|].
  apply Hcons, IH.
Qed.

Lemma length_vertices (q : DOMQuad) : length (vertices q) = (length q / 2)%nat.
Proof.
  induction q as [|x|x y q IH] using list_pairs_ind; [done|done|].
  cbn [vertices length]. rewrite IH.
  replace (S (S (length q))) with (1 * 2 + length q)%nat by lia.
  rewrite Nat.div_add_l by lia. lia.
Qed.

Lemma vertices_lookup (q : DOMQuad) (i : nat) (pt : Point) :
  vertices q !! i = Some pt ->
  q !! (i * 2)%nat = Some (pt_X pt) /\ q !! (i * 2 + 1)%nat = Some (pt_Y pt).
Proof.
  revert i. induction q as [|x|x y q IH] using list_pairs_ind; [done|done|].
  intros [|i]; simpl.
  - by intros [= <-].
  - apply IH.
Qed.

Lemma index_nat (q : DOMQuad) (n : nat) : index q (Z.of_nat n) = q !! n.
Proof.
  unfold index. destruct (Z.ltb_spec (Z.of_nat n) 0); [lia|].
  by rewrite Nat2Z.id.
Qed.

(** A loop over the indices of a list that reads the element at each. *)
Lemma for_range_lookup {S A : Type} (l : list A) (f : A -> S -> S)
    (body : Z -> S -> option S) (n : Z) (s : S) :
  n = Z.of_nat (length l) ->
  (forall i x s, l !! i = Some x -> body (Z.of_nat i) s = Some (f x s)) ->
  for_range n body s = Some (foldl (fun s x => f x s) s l).
Proof.
  intros -> Hbody. unfold for_range. rewrite Nat2Z.id.
  assert (Hgen : forall m k s,
    (k + m = length l)%nat ->
    foldl (fun acc i => s ← acc; body (Z.of_nat i) s) (Some s) (seq k m)
    = Some (foldl (fun s x => f x s) s (drop k l))).
  { clear s. induction m as [|m IH]; intros k s Hk.
    - rewrite drop_ge by lia. done.
    - destruct (lookup_lt_is_Some_2 l k) as [x Hx]; [lia|].
      rewrite (drop_S _ _ _ Hx). simpl. rewrite (Hbody _ _ _ Hx).
      apply IH. lia. }
  rewrite (Hgen (length l) 0%nat s) by lia. by rewrite drop_0.
Qed.

Lemma Len_vertices (q : DOMQuad) :
  DOMQuad_Len q = Z.of_nat (length (vertices q)).
Proof.
  unfold DOMQuad_Len. rewrite length_vertices.
  rewrite Z.quot_div_nonneg by lia. by rewrite Nat2Z.inj_div.
Qed.

(** [Each] never reads out of range: it visits the vertices in order. *)
Lemma Each_vertices {S : Type} (fn : Point -> Z -> S -> S) (f : Point -> S -> S)
    (q : DOMQuad) (s : S) :
  (forall pt i s, fn pt i s = f pt s) ->
  DOMQuad_Each fn q s = Some (foldl (fun s pt => f pt s) s (vertices q)).
Proof.
  intros Hfn. unfold DOMQuad_Each.
  apply for_range_lookup; [apply Len_vertices|].
  intros i pt s' Hpt. apply vertices_lookup in Hpt as [Hx Hy].
  replace (Z.of_nat i * 2)%Z with (Z.of_nat (i * 2)) by lia.
  replace (Z.of_nat (i * 2) + 1)%Z with (Z.of_nat (i * 2 + 1)) by lia.
  rewrite !index_nat, Hx, Hy. simpl. rewrite Hfn. by destruct pt.
Qed.

Lemma Box_fold (qs : Shape) (e : Edges) :
  foldl (fun acc q => e ← acc; DOMQuad_Each Box_grow q e) (Some e) qs
  = Some (foldl (fun e pt => Box_grow pt 0 e) e (Shape_vertices qs)).
Proof.
  revert e. induction qs as [|q qs IH]; intros e; [done|].
  unfold Shape_vertices. cbn [foldl map concat mbind option_bind].
  rewrite foldl_app.
  rewrite (Each_vertices Box_grow (fun pt e => Box_grow pt 0 e)) by done.
  apply IH.
Qed.

Lemma Box_grow_within (q pt : Point) (e : Edges) :
  within e pt -> within (Box_grow q 0 e) pt.
Proof.
  intros (Hl & Ht & Hr & Hb). unfold within, Box_grow. cbn.
  repeat split.
  - destruct (PrimFloat.ltb (pt_X q) (e_left e)) eqn:H; [|done].
    by apply (ltb_below _ (e_left e)).
  - destruct (PrimFloat.ltb (pt_Y q) (e_top e)) eqn:H; [|done].
    by apply (ltb_below _ (e_top e)).
  - destruct (PrimFloat.ltb (e_right e) (pt_X q)) eqn:H; [|done].
    by apply (ltb_above _ (e_right e)).
  - destruct (PrimFloat.ltb (e_bottom e) (pt_Y q)) eqn:H; [|done].
    by apply (ltb_above _ (e_bottom e)).
Qed.

Lemma Box_grow_within_new (q : Point) (e : Edges) : within (Box_grow q 0 e) q.
Proof.
  unfold within, Box_grow. cbn. repeat split.
  - destruct (PrimFloat.ltb (pt_X q) (e_left e)) eqn:H; [apply ltb_irrefl|done].
  - destruct (PrimFloat.ltb (pt_Y q) (e_top e)) eqn:H; [apply ltb_irrefl|done].
  - destruct (PrimFloat.ltb (e_right e) (pt_X q)) eqn:H; [apply ltb_irrefl|done].
  - destruct (PrimFloat.ltb (e_bottom e) (pt_Y q)) eqn:H; [apply ltb_irrefl|done].
Qed.

Lemma Box_grow_all_within (pts seen : list Point) (e : Edges) :
  Forall (within e) seen ->
  Forall (within (foldl (fun e pt => Box_grow pt 0 e) e pts)) (seen ++ pts).
Proof.
  revert seen e. induction pts as [|q pts IH]; intros seen e Hseen.
  { by rewrite app_nil_r. }
  cbn [foldl]. rewrite (cons_middle q seen pts), app_assoc. apply IH.
  apply Forall_app. split.
  - eapply Forall_impl; [exact Hseen|]. intros pt. apply Box_grow_within.
  - constructor; [apply Box_grow_within_new|constructor].
Qed.

(** An edge is where it was or has moved to a vertex. *)
Lemma Box_grow_touches (pts : list Point) (e : Edges) :
  let e' := foldl (fun e pt => Box_grow pt 0 e) e pts in
  (e_left e' = e_left e \/ e_left e' ∈ map pt_X pts)
  /\ (e_top e' = e_top e \/ e_top e' ∈ map pt_Y pts)
  /\ (e_right e' = e_right e \/ e_right e' ∈ map pt_X pts)
  /\ (e_bottom e' = e_bottom e \/ e_bottom e' ∈ map pt_Y pts).
Proof.
  revert e. induction pts as [|q pts IH]; intros e; [by cbn; auto|].
  cbn [foldl map]. cbv zeta.
  assert (Hstep : (e_left (Box_grow q 0 e) = e_left e
                   \/ e_left (Box_grow q 0 e) = pt_X q)
                  /\ (e_top (Box_grow q 0 e) = e_top e
                      \/ e_top (Box_grow q 0 e) = pt_Y q)
                  /\ (e_right (Box_grow q 0 e) = e_right e
                      \/ e_right (Box_grow q 0 e) = pt_X q)
                  /\ (e_bottom (Box_grow q 0 e) = e_bottom e
                      \/ e_bottom (Box_grow q 0 e) = pt_Y q)).
  { unfold Box_grow. cbn. repeat split; destruct (PrimFloat.ltb _ _); auto. }
  destruct Hstep as (Sl & St & Sr & Sb).
  destruct (IH (Box_grow q 0 e)) as (Hl & Ht & Hr & Hb).
  repeat split.
  - destruct Hl as [->|Hl]; [|right; by right].
    destruct Sl as [->| ->]; [by left|right; by left].
  - destruct Ht as [->|Ht]; [|right; by right].
    destruct St as [->| ->]; [by left|right; by left].
  - destruct Hr as [->|Hr]; [|right; by right].
    destruct Sr as [->| ->]; [by left|right; by left].
  - destruct Hb as [->|Hb]; [|right; by right].
    destruct Sb as [->| ->]; [by left|right; by left].
Qed.

Lemma index_is_Some (q : DOMQuad) (i : Z) :
  is_Some (index q i) <-> (0 <= i < Z.of_nat (length q))%Z.
Proof.
  unfold index. destruct (Z.ltb_spec i 0).
  - split; [by intros [? ?]|lia].
  - rewrite lookup_lt_is_Some. lia.
Qed.

(** X22. [Box] covers the shape. It returns nil for the empty shape and
    panics when the first quad has fewer than two coordinates; in every
    other case it returns a rectangle whose four edges each pass through a
    vertex of the shape and leave no vertex outside: as Go compares floats,
    no vertex is to the left of the left edge, above the top edge, to the
    right of the right edge or below the bottom one. The width and the
    height are the differences of the edges. *)
Theorem Box_covers (qs : Shape) :
  (Shape_Box qs = Some None <-> qs = [])
  /\ (Shape_Box qs = None <-> exists q0 rest, qs = q0 :: rest /\ length q0 < 2)
  /\ forall box, Shape_Box qs = Some (Some box) ->
       exists e,
         box = mkDOMRect (e_left e) (e_top e)
                 (PrimFloat.sub (e_right e) (e_left e))
                 (PrimFloat.sub (e_bottom e) (e_top e))
         /\ Forall (within e) (Shape_vertices qs)
         /\ touches e (Shape_vertices qs).
Proof.
  destruct qs as [|q0 rest].
  { split; [done|]. split; [|done]. split; [done|]. by intros (? & ? & ? & _). }
  unfold Shape_Box.
  destruct q0 as [|x0 [|y0 q0]].
  { split; [done|]. split; [|done]. split; [|done]. intros _.
    eexists _, _. split; [done|]. simpl. lia. }
  { split; [done|]. split; [|done]. split; [|done]. intros _.
    eexists _, _. split; [done|]. simpl. lia. }
  change (index (x0 :: y0 :: q0) 0) with (Some x0).
  change (index (x0 :: y0 :: q0) 1) with (Some y0).
  cbn [mbind option_bind]. rewrite Box_fold. cbn [mbind option_bind].
  split; [done|]. split.
  { split; [done|]. intros (? & ? & [= <- <-] & Hlen). simpl in Hlen. lia. }
  intros box [= <-]. eexists. split; [done|].
  set (pts := Shape_vertices ((x0 :: y0 :: q0) :: rest)).
  split.
  - apply (Box_grow_all_within pts [] (mkEdges x0 y0 x0 y0)). constructor.
  - assert (Hfirst : exists pts', pts = mkPoint x0 y0 :: pts') by (by eexists).
    destruct Hfirst as [pts' Hpts].
    destruct (Box_grow_touches pts (mkEdges x0 y0 x0 y0)) as (Hl & Ht & Hr & Hb).
    cbn in Hl, Ht, Hr, Hb. unfold touches.
    repeat split.
    + destruct Hl as [->|Hl]; [|done]. rewrite Hpts. by left.
    + destruct Ht as [->|Ht]; [|done]. rewrite Hpts. by left.
    + destruct Hr as [->|Hr]; [|done]. rewrite Hpts. by left.
    + destruct Hb as [->|Hb]; [|done]. rewrite Hpts. by left.
Qed.

Lemma for_range_is_Some {S : Type} (n : Z) (body : Z -> S -> option S) (s : S) :
  (forall i s, (0 <= i < n)%Z -> is_Some (body i s)) ->
  is_Some (for_range n body s).
Proof.
  intros Hbody. unfold for_range.
  assert (Hgen : forall m k s,
    (Z.of_nat (k + m) <= Z.max 0 n)%Z ->
    is_Some (foldl (fun acc i => s ← acc; body (Z.of_nat i) s) (Some s) (seq k m))).
  { clear s. induction m as [|m IH]; intros k s Hk; [by eexists|].
    cbn [seq foldl mbind option_bind].
    destruct (Hbody (Z.of_nat k) s) as [s' ->]; [lia|].
    apply IH. lia. }
  apply Hgen. lia.
Qed.

(** X23. [Area] reads past the quad exactly when the quad has fewer than two
    coordinates: on such a quad it panics (so does [OnePointInside] on a
    result that has one), on every other it returns. *)
Theorem Area_panics_iff (q : DOMQuad) :
  DOMQuad_Area q = None <-> length q < 2.
Proof.
  unfold DOMQuad_Area.
  set (l := (Z.of_nat (length q) ÷ 2 - 1)%Z).
  destruct (decide (length q < 2)) as [Hshort|Hlong].
  - assert (Hl : l = (-1)%Z).
    { unfold l. destruct q as [|? [|? ?]]; [done|done|simpl in Hshort; lia]. }
    rewrite Hl. split; [done|]. intros _. done.
  - assert (Hl : (0 <= l /\ l * 2 + 1 < Z.of_nat (length q))%Z).
    { unfold l. rewrite Z.quot_div_nonneg by lia.
      pose proof (Z.mul_div_le (Z.of_nat (length q)) 2).
      assert (1 <= Z.of_nat (length q) / 2)%Z.
      { apply Z.div_le_lower_bound; lia. }
      lia. }
    split; [|lia]. intros Hnone. exfalso.
    match type of Hnone with context [for_range l ?body ?s] =>
      destruct (for_range_is_Some l body s) as [area Harea] end.
    { intros i s [Hi0 Hi].
      destruct (proj2 (index_is_Some q (i * 2)%Z)) as [a ->]; [lia|].
      destruct (proj2 (index_is_Some q (i * 2 + 3)%Z)) as [b ->]; [lia|].
      destruct (proj2 (index_is_Some q (i * 2 + 2)%Z)) as [c ->]; [lia|].
      destruct (proj2 (index_is_Some q (i * 2 + 1)%Z)) as [d ->]; [lia|].
      by eexists. }
    rewrite Harea in Hnone. cbn [mbind option_bind] in Hnone.
    destruct (proj2 (index_is_Some q (l * 2)%Z)) as [a Ha]; [lia|].
    destruct (proj2 (index_is_Some q 1%Z)) as [b Hb]; [lia|].
    destruct (proj2 (index_is_Some q 0%Z)) as [c Hc]; [lia|].
    destruct (proj2 (index_is_Some q (l * 2 + 1)%Z)) as [d Hd]; [lia|].
    rewrite Ha, Hb, Hc, Hd in Hnone. done.
Qed.

End Shapes.

(** ** The properties, on the browsers and pages of Part III *)

Lemma Call_LoadState_round_trip_witness :
  exists w',
    proto_call a_browser "" (ReqFetchEnable hijack_patterns) empty_World
    = Ret (inr the_answer) w'
    /\ Browser_LoadState a_browser "" (ReqFetchEnable empty_FetchEnable) w'
       = Ret (true, ReqFetchEnable hijack_patterns) w'.
Proof.
  apply (Call_LoadState_round_trip a_browser "" (ReqFetchEnable hijack_patterns)
           (ReqFetchEnable empty_FetchEnable) the_answer empty_World).
  - reflexivity.
  - vm_compute. eexists. reflexivity.
  - reflexivity.
Defined.

Lemma LoadState_after_disable_witness :
  exists w',
    Browser_Call a_browser "" "Fetch.disable" None hijacking_World
    = Ret (inr the_answer) w'
    /\ Browser_LoadState a_browser "" (ReqFetchEnable empty_FetchEnable) w'
       = Ret (false, ReqFetchEnable empty_FetchEnable) w'.
Proof.
  apply (LoadState_after_disable a_browser "" "Fetch"
           (ReqFetchEnable empty_FetchEnable) the_answer hijacking_World);
    reflexivity.
Defined.

Lemma EnableDomain_failed_call_witness :
  exists restore w1,
    Browser_EnableDomain cut_off_browser "" ReqPageEnable empty_World
    = Ret restore w1
    /\ states w1 = states empty_World
    /\ calls w1 = calls empty_World ++ [mkCall "" "Page.enable" (Some ReqPageEnable)]
    /\ calls (final (restore w1))
       = calls w1 ++ [mkCall "" "Page.disable" None].
Proof.
  apply (EnableDomain_failed_call cut_off_browser "" ReqPageEnable "Page" "enable"
           (ErrClient "connection closed") empty_World); reflexivity.
Defined.

Lemma cleanupStates_forgets_page_witness :
  let w1 := final (Page_cleanupStates the_page (final attached)) in
  states w1 !! inr "T" = None
  /\ calls w1 = calls (final attached)
  /\ exists more,
       calls (final (Browser_PageFromTarget (fun _ _ _ => ret None) a_browser "T" w1))
       = calls (final attached) ++ attach_call "T" :: more.
Proof.
  apply (cleanupStates_forgets_page (fun _ _ _ => ret None) a_browser the_page
           (final attached)).
  intros b' p d w'. exists []. simpl. by rewrite app_nil_r.
Defined.

Lemma walk_continue_wins_witness :
  let c := mkCall "" "Fetch.continueRequest"
             (Some (ReqFetchContinueRequest
                      (mkFetchContinueRequest "request-1" (runes "/api/v2/users")
                         "GET" ""))) in
  exists hw',
    HijackRouter_walk a_router api_request
      ([handler_for "/img/*" keep_handler]
       ++ handler_for "/api/*" continue_handler
          :: [handler_for "/api/*" fail_handler])
      (HijackRouter_new api_request) fresh_HijackWorld
    = Ret tt hw'
    /\ calls (hw_world hw') = [] ++ [c]
    /\ hw_events hw' = [] ++ [Handled (runes "/api/*")].
Proof.
  apply (walk_continue_wins a_router api_request
           [handler_for "/img/*" keep_handler]
           [handler_for "/api/*" fail_handler]
           (handler_for "/api/*" continue_handler)
           (mkFetchContinueRequest "" (runes "/api/v2/users") "GET" "")
           fresh_HijackWorld); reflexivity.
Defined.

Lemma walk_fail_ends_witness :
  let c := mkCall "" "Fetch.failRequest"
             (Some (ReqFetchFailRequest
                      (mkFetchFailRequest "request-1" "BlockedByClient"))) in
  exists hw',
    HijackRouter_walk a_router api_request
      ([handler_for "/img/*" keep_handler]
       ++ handler_for "/api/*" fail_handler
          :: [handler_for "/api/*" continue_handler])
      (HijackRouter_new api_request) fresh_HijackWorld
    = Ret tt hw'
    /\ calls (hw_world hw') = [] ++ [c]
    /\ hw_events hw' = [] ++ [Handled (runes "/api/*")].
Proof.
  apply (walk_fail_ends a_router api_request
           [handler_for "/img/*" keep_handler]
           [handler_for "/api/*" continue_handler]
           (handler_for "/api/*" fail_handler)
           fresh_HijackWorld); try reflexivity.
  discriminate.
Defined.

Lemma walk_fulfils_once_per_handler_witness :
  exists hw' cs,
    HijackRouter_walk a_router api_request
      [handler_for "/api/*" keep_handler; handler_for "/img/*" keep_handler;
       handler_for "*" body_handler]
      (HijackRouter_new api_request) fresh_HijackWorld
    = Ret tt hw'
    /\ hw_events hw' = [] ++ [Handled (runes "/api/*"); Handled (runes "*")]
    /\ calls (hw_world hw') = [] ++ cs
    /\ length cs = 2
    /\ forallb is_fulfill cs = true.
Proof.
  apply (walk_fulfils_once_per_handler a_router api_request
           [handler_for "/api/*" keep_handler; handler_for "/img/*" keep_handler;
            handler_for "*" body_handler]
           (HijackRouter_new api_request) fresh_HijackWorld).
  - intros h ctx' [<-|[<-|[<-|[]]]] H; exact H.
  - repeat split.
  - intros history c. eexists. reflexivity.
Defined.

Lemma Add_then_Remove_witness :
  exists err1 s1 err2 s2,
    HijackRouter_Add versions_rest (runes "/api/(v1|v2)/*") "XHR" keep_handler
      (mkRouterWorld empty_World skipping_router)
    = Ret err1 s1
    /\ HijackRouter_Remove (runes "/api/(v1|v2)/*") s1 = Ret err2 s2
    /\ handler_patterns (rw_router s1)
       = handler_patterns skipping_router ++ [runes "/api/(v1|v2)/*"]
    /\ handlers (rw_router s2) = handlers skipping_router
    /\ Patterns (enable (rw_router s2))
       = map (fun h => mkFetchRequestPattern (h_pattern h) "")
           (handlers skipping_router)
    /\ calls (rw_world s2)
       = calls empty_World ++ [enable_call (rw_router s1); enable_call (rw_router s2)].
Proof.
  apply (Add_then_Remove versions_rest skipping_router (runes "/api/(v1|v2)/*")
           "XHR" keep_handler empty_World).
  - vm_compute. eexists. reflexivity.
  - vm_compute. intros H.
    repeat (apply elem_of_cons in H as [H|H]; [discriminate|]).
    by apply elem_of_nil in H.
Defined.

(** A sequence that returns, and one that panics in its second [Add], on
    the unbalanced "(": the pattern is enabled and has no handler. *)
Example router_after_some_ops :
  exists s,
    apply_ops versions_rest some_ops
      (mkRouterWorld empty_World (newHijackRouter a_browser ""))
    = Ret tt s
    /\ enabled_patterns (rw_router s) = [runes "/api/(v1|v2)/*"]
    /\ handler_patterns (rw_router s) = [runes "/api/(v1|v2)/*"]
    /\ length (calls (rw_world s)) = 3.
Proof. eexists. split; [vm_compute; reflexivity|]. vm_compute. by repeat split. Qed.

Example router_after_a_panic :
  exists s,
    apply_ops versions_rest
      [OpAdd (runes "/img/*") "" keep_handler; OpAdd (runes "(") "" keep_handler;
       OpAdd (runes "/api/*") "" keep_handler]
      (mkRouterWorld empty_World (newHijackRouter a_browser ""))
    = Panic s
    /\ enabled_patterns (rw_router s) = [runes "/img/*"; runes "("]
    /\ handler_patterns (rw_router s) = [runes "/img/*"]
    /\ length (calls (rw_world s)) = 1.
Proof. eexists. split; [vm_compute; reflexivity|]. vm_compute. by repeat split. Qed.

Lemma frame_ids_not_empty : ids_not_empty frame_browser.
Proof.
  intros history [s m [[]|]] res Hev; try discriminate;
    unfold frame_browser, frame_client; cbn [client call_params].
  - intros [= <-]. simpl. unfold window_id. by destruct (existsb _ _).
  - destruct (String.eqb (cf_FunctionDeclaration r) "() => window");
      intros [= <-]; simpl; [|done].
    unfold window_id. by destruct (existsb _ _).
Qed.

Lemma ensureJSHelper_idempotent_witness :
  let first := Page_ensureJSHelper frame_browser window_page functions_helper
                 element_helper fresh_PageWorld in
  Page_ensureJSHelper frame_browser window_page functions_helper element_helper
    (final first)
  = Ret (inr "helper@window-1") (final first).
Proof.
  apply (ensureJSHelper_idempotent frame_browser window_page functions_helper
           frame_ids_not_empty element_helper fresh_PageWorld).
  vm_compute. reflexivity.
Defined.

Lemma Element_Eval_is_one_call_witness :
  let c := Eval_call window_page a_gone_node "() => this.id" [ArgJSON "1"] in
  exists w',
    Element_Eval stale_browser window_page functions_helper doubling 1
      a_gone_node "() => this.id" [ArgJSON "1"] stale_PageWorld
    = Ret (inl (ErrObjectNotFound a_node)) (mkPageWorld w' "window-1" None [])
    /\ calls w' = [] ++ [c].
Proof.
  apply (Element_Eval_is_one_call stale_browser window_page functions_helper
           doubling 0 a_gone_node "() => this.id" [ArgJSON "1"] stale_PageWorld).
  reflexivity.
Defined.

(** A matcher of the requests under "/api/v1/" or "/api/v2/" that are not
    for JSON. *)
Example genRegMatcher_on_urls :
  exists matcher,
    genRegMatcher versions_rest [runes "\A/api/(v1|v2)/.*\z"] [runes "\.json\z"]
    = Some matcher
    /\ matcher (runes "/api/v1/users") = true
    /\ matcher (runes "/api/v2/users.json") = false
    /\ matcher (runes "/api/v3/users") = false.
Proof. eexists. split; [vm_compute; reflexivity|]. vm_compute. by repeat split. Qed.

Lemma Pool_keeps_limit_witness :
  let ops := [OpGet (Some "page-1"); OpGet (Some "page-2"); OpPut (Some "page-1")] in
  (0 <= in_use ops <= 2)%Z
  /\ Z.of_nat (length (pool_queue busy_pool)) = (2 - in_use ops)%Z
  /\ (forall create, Pool_Get create busy_pool = None <-> in_use ops = 2%Z)
  /\ (forall p, Pool_Put p busy_pool = None <-> in_use ops = 0%Z).
Proof.
  apply (Pool_keeps_limit 2
           [OpGet (Some "page-1"); OpGet (Some "page-2"); OpPut (Some "page-1")]
           (mkPool 2 [None; None]) busy_pool); reflexivity.
Defined.

Lemma balance_releases_pressed_keys_witness :
  exists keys,
    KeyActions_balance map_to_list some_keys
    = some_keys ++ map (mkKeyAction KeyActionRelease) keys
    /\ NoDup keys
    /\ (forall key, key ∈ keys <-> last_on key some_keys = Some KeyActionPress)
    /\ KeyActions_balance map_to_list (KeyActions_balance map_to_list some_keys)
       = KeyActions_balance map_to_list some_keys.
Proof.
  apply (balance_releases_pressed_keys map_to_list).
  intros h. reflexivity.
Defined.

Lemma Mouse_Click_buttons_witness :
  let m := iw_mouse a_mouse in
  let press := mouse_call window_page me_Type "mousePressed" m "left" 0 1 0 in
  let release := mouse_call window_page me_Type "mouseReleased" m "left" 0 1 0 in
  exists w',
    Mouse_Click a_browser window_page (fun _ => 0%Z) (fun _ => ("none", 0%Z))
      me_Type (ret tt) "left" a_mouse
    = Ret None (mkInputWorld w' ∅ (mkMouse (m_x m) (m_y m) []))
    /\ calls w' = [] ++ [press; release].
Proof.
  apply (Mouse_Click_buttons a_browser window_page (fun _ => 0%Z)
           (fun _ => ("none", 0%Z)) me_Type (ret tt) "left" a_mouse).
  intros iw0. reflexivity.
Defined.

Lemma Pool_Cleanup_waits_for_all_witness :
  let empty := mkPool 2 [] in
  Pool_Cleanup busy_pool = (["page-1"], empty, 1)
  /\ (forall create : option string, Pool_Get create empty = None)
  /\ forall todo p,
       todo < 1 ->
       exists pp',
         Pool_Put p empty = Some pp'
         /\ Cleanup_loop (S todo) pp' = (omap id [p], empty, todo).
Proof.
  apply (Pool_Cleanup_waits_for_all 2
           [OpGet (Some "page-1"); OpGet (Some "page-2"); OpPut (Some "page-1")]
           (mkPool 2 [None; None]) busy_pool); reflexivity.
Defined.
